(** * A TF-IDF retrieval engine: index consistency, scoring and ranking

    Shallow embedding of [core/document_indexer.py] (class
    [DocumentIndex]), [core/search_engine.py] (classes [SearchResult]
    and [SearchEngine]) and the part of [utils/document_manager.py] the
    search engine calls; reading and writing the store's file is left
    out.

    Conventions.
    - A Python [dict] with string keys is a [gmap string _]; a
      [defaultdict(dict)] read at a missing key is written out (the read
      stores an empty dictionary under that key).
    - A Python [int] is a [Z].  A Python [float] is idealised as a real
      number: rounding, overflow and underflow are outside the model.
      The one question that rounding decides, whether
      [calculate_cosine_similarity] depends on the order of its
      arguments, is settled on binary64 numbers.
    - An exception is a value [Raise e] of the [result] type; methods that
      write to [self] pass the object explicitly and return it.
    - The order in which a [dict] or a [set] is iterated is the order of
      [map_to_list] / [elements]; the final contents of every dictionary
      built in a loop do not depend on it, and in a sorted result it only
      decides how entries of equal score follow each other.
    - [core/text_processor.py] is not part of the sources at hand:
      [preprocess_text] is a parameter of the development. *)

From Stdlib Require Import Reals Lra Ascii String ZArith List Sorted Permutation.
From stdpp Require Import gmap strings list fin_maps pretty.
From Stdlib Require PrimFloat FloatOps FloatAxioms SpecFloat.

Local Open Scope string_scope.
Local Open Scope Z_scope.

(** ** Python primitives *)

Inductive exn : Type :=
| ZeroDivisionError
| ValueError.

Inductive result (A : Type) : Type :=
| Ok (a : A)
| Raise (e : exn).
Arguments Ok {A} a.
Arguments Raise {A} e.

Definition result_bind {A B} (r : result A) (k : A → result B) : result B :=
  match r with
  | Ok a => k a
  | Raise e => Raise e
  end.

(** [a / b] on two [int]s (true division). *)
Definition int_truediv (a b : Z) : result R :=
  if decide (b = 0) then Raise ZeroDivisionError else Ok (IZR a / IZR b)%R.

(** [x / y] on two [float]s. *)
Definition float_truediv (x y : R) : result R :=
  if Req_dec_T y 0 then Raise ZeroDivisionError else Ok (x / y)%R.

(** [math.log(x)]: a domain error unless [x] is positive. *)
Definition math_log (x : R) : result R :=
  if Rlt_dec 0 x then Ok (ln x) else Raise ValueError.

(** [math.sqrt(x)]: a domain error on a negative argument. *)
Definition math_sqrt (x : R) : result R :=
  if Rlt_dec x 0 then Raise ValueError else Ok (sqrt x).

(** [sum(xs)] on floats and on ints: left to right, from [0]. *)
Definition sum_float (xs : list R) : R := foldl Rplus 0%R xs.
Definition sum_int (xs : list Z) : Z := foldl Z.add 0 xs.

(** [l[:k]]: a negative [k] counts from the end of the list. *)
Definition slice_to {A} (k : Z) (l : list A) : list A :=
  if decide (0 ≤ k) then take (Z.to_nat k) l
  else take (length l - Z.to_nat (- k))%nat l.

(** [str.isspace] on the code points below 256. *)
Definition isspace (c : ascii) : bool :=
  let n := N_of_ascii c in
  ((9 <=? n) && (n <=? 13) || (28 <=? n) && (n <=? 32)
   || (n =? 133) || (n =? 160))%N.

(** [s.split()]: the maximal runs of non-space characters. *)
Fixpoint split_go (cur : string) (s : string) : list string :=
  match s with
  | EmptyString => if decide (cur = "") then [] else [cur]
  | String c s' =>
      if isspace c
      then (if decide (cur = "") then split_go "" s' else cur :: split_go "" s')
      else split_go (cur +:+ String c "") s'
  end.

Definition split (s : string) : list string := split_go "" s.

Fixpoint lstrip (s : string) : string :=
  match s with
  | EmptyString => ""
  | String c s' => if isspace c then lstrip s' else s
  end.

Fixpoint rstrip (s : string) : string :=
  match s with
  | EmptyString => ""
  | String c s' =>
      match rstrip s' with
      | EmptyString => if isspace c then "" else String c ""
      | r => String c r
      end
  end.

(** [s.strip()] *)
Definition strip (s : string) : string := rstrip (lstrip s).

(** [collections.Counter(words)] *)
Definition Counter (words : list string) : gmap string Z :=
  foldl (λ m w, <[w := default 0 (m !! w) + 1]> m) ∅ words.

(** [d.items()], [d.keys()] (also plain iteration over [d]), [d.values()] *)
Definition items {V} (d : gmap string V) : list (string * V) := map_to_list d.
Definition keys {V} (d : gmap string V) : list string := (map_to_list d).*1.
Definition values {V} (d : gmap string V) : list V := (map_to_list d).*2.

(** [d[k]] for a key the caller has taken from [d] itself. *)
Definition getitem (d : gmap string R) (k : string) : R := default 0%R (d !! k).

(** [l.sort(key=lambda x: x[1], reverse=True)]: a stable sort, greatest
    score first. *)
Fixpoint insert_desc {A} (x : A * R) (l : list (A * R)) : list (A * R) :=
  match l with
  | [] => [x]
  | y :: l' => if Rlt_dec x.2 y.2 then y :: insert_desc x l' else x :: l
  end.

Definition sort_desc {A} (l : list (A * R)) : list (A * R) :=
  foldr insert_desc [] l.

(** ** The index ([DocumentIndex]) *)

Record DocumentIndex : Type := mkIndex {
  inverted_index : gmap string (gmap string Z);
  forward_index : gmap string (gmap string Z);
  total_documents : Z;
  document_lengths : gmap string Z;
  tf_idf_weights : gmap string (gmap string R);
  idf_cache : gmap string R
}.

(** [DocumentIndex()] *)
Definition empty_index : DocumentIndex :=
  mkIndex ∅ ∅ 0 ∅ ∅ ∅.

(** Methods that read and write the index and may raise. *)
Definition M (A : Type) : Type := DocumentIndex → result A * DocumentIndex.

Definition ret {A} (a : A) : M A := λ s, (Ok a, s).
Definition lift {A} (r : result A) : M A := λ s, (r, s).
Definition bind {A B} (m : M A) (k : A → M B) : M B :=
  λ s, match m s with
       | (Ok a, s') => k a s'
       | (Raise e, s') => (Raise e, s')
       end.

Notation "'let*' x ':=' m 'in' k" := (bind m (λ x, k))
  (at level 10, x pattern, m at level 100, k at level 200).

(** A [for] loop that updates a local accumulator. *)
Fixpoint for_each {A B} (xs : list A) (body : A → B → M B) (acc : B) : M B :=
  match xs with
  | [] => ret acc
  | x :: xs' => let* acc' := body x acc in for_each xs' body acc'
  end.

Section Engine.

(** [TextProcessor.preprocess_text]: case folding, stop-word removal and
    lemmatisation live in a module that is not available; the index only
    needs the normalised text it returns. *)
Variable preprocess_text : string → string.

(** One iteration of the indexing loop of [add_document]. *)
Definition index_word (doc_id : string) (s : DocumentIndex) (wc : string * Z)
  : DocumentIndex :=
  let '(word, count) := wc in
  let postings := default ∅ (inverted_index s !! word) in
  let inv := <[word := <[doc_id := count]> postings]> (inverted_index s) in
  let entry := default ∅ (forward_index s !! doc_id) in
  let fwd := <[doc_id := <[word := count]> entry]> (forward_index s) in
  mkIndex inv fwd (total_documents s) (document_lengths s)
          (tf_idf_weights s) (idf_cache s).

Definition add_document (doc_id content : string) (s : DocumentIndex)
  : DocumentIndex :=
  let processed_text := preprocess_text content in
  if decide (processed_text = "") then s
  else
    let words := split processed_text in
    let word_counts := Counter words in
    let s1 := foldl (index_word doc_id) s (items word_counts) in
    let lengths := <[doc_id := sum_int (values word_counts)]> (document_lengths s1) in
    mkIndex (inverted_index s1) (forward_index s1)
            (Z.of_nat (size (forward_index s1))) lengths
            (tf_idf_weights s1) ∅.

(** One iteration of the clean-up loop of [remove_document].  Reading
    [self.inverted_index[word]] stores an empty postings dictionary when
    [word] is missing. *)
Definition unindex_word (doc_id : string)
    (inv : gmap string (gmap string Z)) (word : string)
  : gmap string (gmap string Z) :=
  let postings := default ∅ (inv !! word) in
  if decide (doc_id ∈ dom postings) then
    let postings' := delete doc_id postings in
    if decide (postings' = ∅) then delete word inv
    else <[word := postings']> inv
  else <[word := postings]> inv.

Definition remove_document (doc_id : string) (s : DocumentIndex)
  : DocumentIndex :=
  match forward_index s !! doc_id with
  | None => s
  | Some entry =>
      let words := keys entry in
      let fwd := delete doc_id (forward_index s) in
      let inv := foldl (unindex_word doc_id) (inverted_index s) words in
      mkIndex inv fwd (Z.of_nat (size fwd))
              (delete doc_id (document_lengths s))
              (delete doc_id (tf_idf_weights s)) ∅
  end.

(** [calculate_tf]: the count of [word] in the document over the stored
    length of the document. *)
Definition calculate_tf (word doc_id : string) (s : DocumentIndex) : result R :=
  match forward_index s !! doc_id with
  | None => Ok 0%R
  | Some entry =>
      match entry !! word with
      | None => Ok 0%R
      | Some word_count =>
          let doc_length := default 1 (document_lengths s !! doc_id) in
          int_truediv word_count doc_length
      end
  end.

(** [calculate_idf]: served from [idf_cache] when the word is there. *)
Definition calculate_idf (word : string) : M R := λ s,
  match idf_cache s !! word with
  | Some idf => (Ok idf, s)
  | None =>
      match inverted_index s !! word with
      | None => (Ok 0%R, s)
      | Some postings =>
          let doc_frequency := Z.of_nat (size postings) in
          let computed :=
            if decide (doc_frequency = 0) then Ok 0%R
            else result_bind (int_truediv (total_documents s) doc_frequency)
                             math_log in
          match computed with
          | Ok idf =>
              (Ok idf,
               mkIndex (inverted_index s) (forward_index s) (total_documents s)
                       (document_lengths s) (tf_idf_weights s)
                       (<[word := idf]> (idf_cache s)))
          | Raise e => (Raise e, s)
          end
      end
  end.

Definition calculate_tf_idf (word doc_id : string) : M R :=
  let* tf := (λ s, (calculate_tf word doc_id s, s)) in
  let* idf := calculate_idf word in
  ret (tf * idf)%R.

Definition get_document_vector (doc_id : string) : M (gmap string R) := λ s,
  match forward_index s !! doc_id with
  | None => (Ok ∅, s)
  | Some entry =>
      for_each (keys entry)
        (λ word vector,
           let* w := calculate_tf_idf word doc_id in
           ret (<[word := w]> vector))
        ∅ s
  end.

Definition get_query_vector (query : string) : M (gmap string R) :=
  let processed_query := preprocess_text query in
  if decide (processed_query = "") then ret ∅
  else
    let words := split processed_query in
    let word_counts := Counter words in
    for_each (items word_counts)
      (λ '(word, count) vector,
         let tf := IZR count in
         let* idf := calculate_idf word in
         ret (<[word := (tf * idf)%R]> vector))
      ∅.

Definition calculate_cosine_similarity (vec1 vec2 : gmap string R) : result R :=
  let common_words : gset string := dom vec1 ∩ dom vec2 in
  if decide (common_words = ∅) then Ok 0%R
  else
    let dot_product :=
      sum_float ((λ word, getitem vec1 word * getitem vec2 word)%R
                   <$> elements common_words) in
    result_bind (math_sqrt (sum_float ((λ word, getitem vec1 word ^ 2)%R <$> keys vec1)))
      (λ norm1,
    result_bind (math_sqrt (sum_float ((λ word, getitem vec2 word ^ 2)%R <$> keys vec2)))
      (λ norm2,
    if Req_dec_T norm1 0 then Ok 0%R
    else if Req_dec_T norm2 0 then Ok 0%R
    else float_truediv dot_product (norm1 * norm2)%R)).

Definition search (query : string) (top_k : Z) : M (list (string * R)) := λ s,
  if decide (query = "") then (Ok [], s)
  else if decide (total_documents s = 0) then (Ok [], s)
  else
    (let* query_vector := get_query_vector query in
     if decide (query_vector = ∅) then ret []
     else
       let* similarities :=
         (λ s', for_each (keys (forward_index s'))
            (λ doc_id (similarities : list (string * R)),
               let* doc_vector := get_document_vector doc_id in
               let* similarity :=
                 lift (calculate_cosine_similarity query_vector doc_vector) in
               if Rlt_dec 0 similarity
               then ret (similarities ++ [(doc_id, similarity)])%list
               else ret similarities)
            [] s') in
       ret (slice_to top_k (sort_desc similarities))) s.

Definition get_document_keywords (doc_id : string) (top_k : Z)
  : M (list (string * R)) := λ s,
  match forward_index s !! doc_id with
  | None => (Ok [], s)
  | Some _ =>
      (let* vector := get_document_vector doc_id in
       let keywords := items vector in
       ret (slice_to top_k (sort_desc keywords))) s
  end.

End Engine.

(** ** Document storage ([Document], [DocumentManager])

    The manager keeps the records in the dictionary [documents] and
    mirrors it to a JSON file after each change; the file is not part of
    the model. *)

Record Document : Type := mkDocument {
  doc_id : string;
  title : string;
  content : string;
  file_path : option string;
  metadata : list (string * string);
  created_at : string;
  processed_content : string
}.

Record DocumentManager : Type := mkManager {
  documents : gmap string Document
}.

Definition DocumentManager_get_document (id : string) (dm : DocumentManager)
  : option Document :=
  documents dm !! id.

Definition DocumentManager_delete_document (id : string) (dm : DocumentManager)
  : bool * DocumentManager :=
  if decide (id ∈ dom (documents dm))
  then (true, mkManager (delete id (documents dm)))
  else (false, dm).

(** ** The search engine ([SearchEngine])

    A [SearchResult] also carries a display snippet, cut out of
    [document.content] around the first matched keyword by the
    constructor; it is a function of the three fields below. *)

Record SearchResult : Type := mkResult {
  document : Document;
  score : R;
  matched_keywords : list string
}.

Record SearchEngine : Type := mkEngine {
  document_manager : DocumentManager;
  index : DocumentIndex
}.

Definition find_matched_keywords (doc_content : string)
    (query_keywords : list string) : list string :=
  let doc_words : gset string := list_to_set (split doc_content) in
  filter (λ keyword, keyword ∈ doc_words) query_keywords.

Definition SearchEngine_remove_document (id : string) (e : SearchEngine)
  : bool * SearchEngine :=
  let '(success, dm) := DocumentManager_delete_document id (document_manager e) in
  if success
  then (success, mkEngine dm (remove_document id (index e)))
  else (success, mkEngine dm (index e)).

(** The loop of [SearchEngine.search] over the raw hits. *)
Fixpoint search_loop (dm : DocumentManager) (query_keywords : list string)
    (top_k : Z) (min_score : R) (search_results : list (string * R))
    (results : list SearchResult) : list SearchResult :=
  match search_results with
  | [] => results
  | (id, sc) :: rest =>
      if Rlt_dec sc min_score
      then search_loop dm query_keywords top_k min_score rest results
      else
        match DocumentManager_get_document id dm with
        | None => search_loop dm query_keywords top_k min_score rest results
        | Some doc =>
            let matched :=
              find_matched_keywords (processed_content doc) query_keywords in
            let results' := (results ++ [mkResult doc sc matched])%list in
            if decide (top_k ≤ Z.of_nat (length results')) then results'
            else search_loop dm query_keywords top_k min_score rest results'
        end
  end.

Definition SearchEngine_search (preprocess_text : string → string)
    (query : string) (top_k : Z) (min_score : R) (e : SearchEngine)
  : result (list SearchResult) * SearchEngine :=
  if decide (strip query = "") then (Ok [], e)
  else
    match search preprocess_text query (top_k * 2) (index e) with
    | (Raise ex, idx) => (Raise ex, mkEngine (document_manager e) idx)
    | (Ok search_results, idx) =>
        let processed_query := preprocess_text query in
        let query_keywords :=
          if decide (processed_query = "") then [] else split processed_query in
        (Ok (search_loop (document_manager e) query_keywords top_k min_score
               search_results []),
         mkEngine (document_manager e) idx)
    end.

(** ** Call sequences on the index *)

Inductive call : Type :=
| AddDocument (id text : string)
| RemoveDocument (id : string)
| CalculateIdf (word : string)
| CalculateTfIdf (word id : string)
| GetDocumentVector (id : string)
| GetQueryVector (query : string)
| Search (query : string) (top_k : Z)
| GetDocumentKeywords (id : string) (top_k : Z).

Definition exec (preprocess_text : string → string) (s : DocumentIndex) (c : call)
  : DocumentIndex :=
  match c with
  | AddDocument id text => add_document preprocess_text id text s
  | RemoveDocument id => remove_document id s
  | CalculateIdf word => (calculate_idf word s).2
  | CalculateTfIdf word id => (calculate_tf_idf word id s).2
  | GetDocumentVector id => (get_document_vector id s).2
  | GetQueryVector query => (get_query_vector preprocess_text query s).2
  | Search query top_k => (search preprocess_text query top_k s).2
  | GetDocumentKeywords id top_k => (get_document_keywords id top_k s).2
  end.

(** The index after a sequence of calls on a new [DocumentIndex()]. *)
Definition run (preprocess_text : string → string) (cs : list call) : DocumentIndex :=
  foldl (exec preprocess_text) empty_index cs.

(** A whitespace-only normaliser, used to run the engine on examples: it
    keeps the text as it is and maps blank text to the empty string. *)
Definition keep_text (s : string) : string :=
  if decide (strip s = "") then "" else s.

(** ** Invariants and reference definitions *)

(** The count stored under two nested keys, if any. *)
Definition lookup2 (m : gmap string (gmap string Z)) (k j : string) : option Z :=
  m !! k ≫= (λ p, p !! j).

Definition postings_nonempty (s : DocumentIndex) : Prop :=
  ∀ t p, inverted_index s !! t = Some p → p ≠ ∅.

(** The two indexes hold the same (term, document, count) triples. *)
Definition postings_agree (s : DocumentIndex) : Prop :=
  ∀ t d, lookup2 (inverted_index s) t d = lookup2 (forward_index s) d t.

Definition total_is_size (s : DocumentIndex) : Prop :=
  total_documents s = Z.of_nat (size (forward_index s)).

(** The inverse document frequency recomputed from the index alone:
    [0] for an unknown term, otherwise [ln (N / df)]. *)
Definition idf_from_scratch (s : DocumentIndex) (word : string) : R :=
  match inverted_index s !! word with
  | None => 0%R
  | Some postings =>
      ln (IZR (total_documents s) / IZR (Z.of_nat (size postings)))
  end.

Definition cache_fresh (s : DocumentIndex) : Prop :=
  ∀ w v, idf_cache s !! w = Some v → v = idf_from_scratch s w.

Record wf (s : DocumentIndex) : Prop := mkWf {
  wf_nonempty : postings_nonempty s;
  wf_agree : postings_agree s;
  wf_total : total_is_size s;
  wf_cache : cache_fresh s
}.

(** Every indexed document has a stored, positive length. *)
Definition lengths_positive (s : DocumentIndex) : Prop :=
  ∀ d m, forward_index s !! d = Some m →
         ∃ n, document_lengths s !! d = Some n ∧ 0 < n.

(** Every stored count is positive. *)
Definition counts_positive (s : DocumentIndex) : Prop :=
  ∀ d t c, lookup2 (forward_index s) d t = Some c → 0 < c.

(** [s'] differs from [s] in the IDF cache at most. *)
Definition same_index (s s' : DocumentIndex) : Prop :=
  inverted_index s' = inverted_index s ∧
  forward_index s' = forward_index s ∧
  total_documents s' = total_documents s ∧
  document_lengths s' = document_lengths s ∧
  tf_idf_weights s' = tf_idf_weights s.

Definition stable (s0 s : DocumentIndex) : Prop :=
  same_index s0 s ∧ cache_fresh s.

(** A method started in a state that agrees with [s0] outside the cache
    ends in such a state, with a result that satisfies [Q]. *)
Definition reads {A} (s0 : DocumentIndex) (m : M A) (Q : result A → Prop) : Prop :=
  ∀ s, stable s0 s → ∃ r s', m s = (r, s') ∧ stable s0 s' ∧ Q r.

(** Term frequency as a number: [0] for an absent document or term,
    otherwise the count over the stored length. *)
Definition term_frequency (s : DocumentIndex) (word id : string) : R :=
  match forward_index s !! id with
  | None => 0%R
  | Some entry =>
      match entry !! word with
      | None => 0%R
      | Some c =>
          let doc_length := default 1 (document_lengths s !! id) in
          (IZR c / IZR doc_length)%R
      end
  end.

(** The TF-IDF vector of a document and of a query, from the index alone. *)
Definition document_vector (s : DocumentIndex) (id : string) : gmap string R :=
  match forward_index s !! id with
  | None => ∅
  | Some entry =>
      map_imap (λ w _, Some (term_frequency s w id * idf_from_scratch s w)%R) entry
  end.

Definition query_vector (preprocess_text : string → string)
    (s : DocumentIndex) (query : string) : gmap string R :=
  map_imap (λ w c, Some (IZR c * idf_from_scratch s w)%R)
           (Counter (split (preprocess_text query))).

(** The L2 norm as [calculate_cosine_similarity] computes it. *)
Definition l2_norm (v : gmap string R) : R :=
  sqrt (sum_float ((λ word, getitem v word ^ 2)%R <$> keys v)).

(** The number [calculate_cosine_similarity] returns. *)
Definition similarity (v1 v2 : gmap string R) : R :=
  match calculate_cosine_similarity v1 v2 with
  | Ok r => r
  | Raise _ => 0%R
  end.

#[local] Instance Rlt_decision (x y : R) : Decision (x < y)%R := Rlt_dec x y.

(** Every document paired with its similarity to the query, positive
    scores only. *)
Definition scored_documents (preprocess_text : string → string)
    (s : DocumentIndex) (query : string) : list (string * R) :=
  filter (λ p, (0 < p.2)%R)
    ((λ id, (id, similarity (query_vector preprocess_text s query)
                            (document_vector s id)))
       <$> keys (forward_index s)).

(** Greatest score first. *)
Definition score_desc {A} (a b : A * R) : Prop := (b.2 <= a.2)%R.

(** What [SearchEngine.search] makes of one raw hit. *)
Definition resolve_hit (dm : DocumentManager) (query_keywords : list string)
    (min_score : R) (hit : string * R) : option SearchResult :=
  if Rlt_dec hit.2 min_score then None
  else match DocumentManager_get_document hit.1 dm with
       | None => None
       | Some doc =>
           Some (mkResult doc hit.2
                   (find_matched_keywords (processed_content doc) query_keywords))
       end.

Definition query_keywords_of (preprocess_text : string → string)
    (query : string) : list string :=
  if decide (preprocess_text query = "") then []
  else split (preprocess_text query).

(** ** Further methods of the index *)

(** The dictionary [DocumentIndex.get_stats] returns, by key. *)
Record IndexStats : Type := mkIndexStats {
  stats_total_documents : Z;
  stats_total_words : Z;
  stats_unique_words : Z;
  stats_average_words_per_document : R
}.

(** [get_stats]: the division is guarded by [total_documents > 0]. *)
Definition get_stats (s : DocumentIndex) : IndexStats :=
  let total_words :=
    sum_int ((λ doc_words : gmap string Z, Z.of_nat (size doc_words))
               <$> values (forward_index s)) in
  let unique_words := Z.of_nat (size (inverted_index s)) in
  mkIndexStats (total_documents s) total_words unique_words
    (if decide (0 < total_documents s)
     then (IZR total_words / IZR (total_documents s))%R
     else 0%R).

(** [idf_cache.clear()] on its own: the state a cold cache leaves. *)
Definition clear_cache (s : DocumentIndex) : DocumentIndex :=
  mkIndex (inverted_index s) (forward_index s) (total_documents s)
          (document_lengths s) (tf_idf_weights s) ∅.

(** Every forward entry holds at least one term. *)
Definition entries_nonempty (s : DocumentIndex) : Prop :=
  ∀ d m, forward_index s !! d = Some m → m ≠ ∅.

(** The stored length of every indexed document is the sum of its counts. *)
Definition lengths_exact (s : DocumentIndex) : Prop :=
  ∀ d m, forward_index s !! d = Some m →
         document_lengths s !! d = Some (sum_int (values m)).

(** No [add_document] of the sequence names a document that is indexed
    at the time of the call. *)
Fixpoint fresh_adds (preprocess_text : string → string)
    (s : DocumentIndex) (cs : list call) : Prop :=
  match cs with
  | [] => True
  | c :: cs' =>
      match c with
      | AddDocument id _ => forward_index s !! id = None
      | _ => True
      end ∧ fresh_adds preprocess_text (exec preprocess_text s c) cs'
  end.

(** [SearchEngine.suggest_keywords] *)
Definition SearchEngine_suggest_keywords (preprocess_text : string → string)
    (query : string) (max_suggestions : Z) (e : SearchEngine) : list string :=
  if decide (strip query = "") then []
  else
    let processed_query := preprocess_text query in
    if decide (processed_query = "") then []
    else
      let query_words := split processed_query in
      slice_to max_suggestions
        (filter (λ word, word ∈ dom (inverted_index (index e))) query_words).

(** The (outer key, inner key) pairs of a nested dictionary. *)
Definition nested_pairs (m : gmap string (gmap string Z)) : list (string * string) :=
  map_to_list m ≫= (λ kp, (λ j, (kp.1, j)) <$> keys kp.2).

(** The documents with a stored length are indexed ones. *)
Definition lengths_indexed (s : DocumentIndex) : Prop :=
  ∀ d, is_Some (document_lengths s !! d) → is_Some (forward_index s !! d).

(** ** Further methods of the document store and of the engine

    [hash] is Python's built-in string hash, fixed for the life of the
    process, and [now] is the time stamp [datetime.now().isoformat()]
    gives when a [Document] is built; both are parameters. *)

(** [DocumentManager.get_all_documents] *)
Definition DocumentManager_get_all_documents (dm : DocumentManager)
  : list Document :=
  values (documents dm).

(** [doc.processed_content = processed_content] on a stored record. *)
Definition with_processed_content (processed : string) (doc : Document)
  : Document :=
  mkDocument (doc_id doc) (title doc) (content doc) (file_path doc)
             (metadata doc) (created_at doc) processed.

(** [DocumentManager.update_document_content] *)
Definition DocumentManager_update_document_content (id processed : string)
    (dm : DocumentManager) : DocumentManager :=
  match documents dm !! id with
  | Some doc => mkManager (<[id := with_processed_content processed doc]> (documents dm))
  | None => dm
  end.

(** [f"doc_{len(self.documents) + 1}_{hash(content) % 10000}"] *)
Definition new_doc_id (hash : string → Z) (dm : DocumentManager)
    (new_content : string) : string :=
  "doc_" +:+ pretty (Z.of_nat (size (documents dm)) + 1)
         +:+ "_" +:+ pretty (hash new_content `mod` 10000).

(** [DocumentManager.add_document]: the first stored document with the
    same content wins (which one that is depends on the order of the
    dictionary only when several records share the content); otherwise
    a new record is stored under the new identifier. *)
Definition DocumentManager_add_document (hash : string → Z) (now : string)
    (new_title new_content : string) (new_file_path : option string)
    (new_metadata : option (list (string * string))) (dm : DocumentManager)
  : string * DocumentManager :=
  let id := new_doc_id hash dm new_content in
  match list_find (λ existing_doc, content existing_doc = new_content)
                  (values (documents dm)) with
  | Some (_, existing_doc) => (doc_id existing_doc, dm)
  | None =>
      let doc := mkDocument id new_title new_content new_file_path
                            (default [] new_metadata) now "" in
      (id, mkManager (<[id := doc]> (documents dm)))
  end.

(** [SearchEngine.add_document] *)
Definition SearchEngine_add_document (preprocess_text : string → string)
    (hash : string → Z) (now : string)
    (new_title new_content : string) (new_file_path : option string)
    (new_metadata : option (list (string * string))) (e : SearchEngine)
  : string * SearchEngine :=
  let '(id, dm) :=
    DocumentManager_add_document hash now new_title new_content new_file_path
                                 new_metadata (document_manager e) in
  let idx := add_document preprocess_text id new_content (index e) in
  let processed := preprocess_text new_content in
  (id, mkEngine (DocumentManager_update_document_content id processed dm) idx).

(** One iteration of the loop of [SearchEngine._reindex_documents]. *)
Definition reindex_step (preprocess_text : string → string)
    (e : SearchEngine) (doc : Document) : SearchEngine :=
  let idx := add_document preprocess_text (doc_id doc) (content doc) (index e) in
  let processed := preprocess_text (content doc) in
  mkEngine (DocumentManager_update_document_content (doc_id doc) processed
              (document_manager e))
           idx.

(** [SearchEngine._reindex_documents]: the loop runs over the list
    [get_all_documents] returned before it started. *)
Definition SearchEngine_reindex_documents (preprocess_text : string → string)
    (e : SearchEngine) : SearchEngine :=
  foldl (reindex_step preprocess_text) e
        (DocumentManager_get_all_documents (document_manager e)).

(** [SearchEngine.rebuild_index] *)
Definition SearchEngine_rebuild_index (preprocess_text : string → string)
    (e : SearchEngine) : SearchEngine :=
  SearchEngine_reindex_documents preprocess_text
    (mkEngine (document_manager e) empty_index).

(** [SearchEngine(data_dir)], once the manager has read its file. *)
Definition SearchEngine_init (preprocess_text : string → string)
    (dm : DocumentManager) : SearchEngine :=
  SearchEngine_reindex_documents preprocess_text (mkEngine dm empty_index).

(** [SearchEngine.get_document_keywords] *)
Definition SearchEngine_get_document_keywords (id : string) (top_k : Z)
    (e : SearchEngine) : result (list (string * R)) * SearchEngine :=
  let '(r, idx) := get_document_keywords id top_k (index e) in
  (r, mkEngine (document_manager e) idx).

(** Call sequences on the engine. *)
Inductive engine_call : Type :=
| EngineAdd (now new_title new_content : string) (new_file_path : option string)
            (new_metadata : option (list (string * string)))
| EngineRemove (id : string)
| EngineSearch (query : string) (top_k : Z) (min_score : R)
| EngineKeywords (id : string) (top_k : Z)
| EngineRebuild.

Definition engine_exec (preprocess_text : string → string) (hash : string → Z)
    (e : SearchEngine) (c : engine_call) : SearchEngine :=
  match c with
  | EngineAdd now new_title new_content new_file_path new_metadata =>
      (SearchEngine_add_document preprocess_text hash now new_title new_content
         new_file_path new_metadata e).2
  | EngineRemove id => (SearchEngine_remove_document id e).2
  | EngineSearch query top_k min_score =>
      (SearchEngine_search preprocess_text query top_k min_score e).2
  | EngineKeywords id top_k => (SearchEngine_get_document_keywords id top_k e).2
  | EngineRebuild => SearchEngine_rebuild_index preprocess_text e
  end.

(** The engine after a sequence of calls on [SearchEngine(data_dir)]. *)
Definition engine_run (preprocess_text : string → string) (hash : string → Z)
    (dm : DocumentManager) (cs : list engine_call) : SearchEngine :=
  foldl (engine_exec preprocess_text hash) (SearchEngine_init preprocess_text dm) cs.

(** Every record is stored under its own identifier. *)
Definition keys_match (dm : DocumentManager) : Prop :=
  ∀ k doc, documents dm !! k = Some doc → doc_id doc = k.

(** No two stored records have the same content. *)
Definition unique_content (dm : DocumentManager) : Prop :=
  ∀ k1 k2 doc1 doc2,
    documents dm !! k1 = Some doc1 → documents dm !! k2 = Some doc2 →
    content doc1 = content doc2 → k1 = k2.

(** The forward entry [add_document] makes for a document that is not
    indexed yet. *)
Definition fresh_entry (preprocess_text : string → string) (doc : Document)
  : option (gmap string Z) :=
  if decide (split (preprocess_text (content doc)) = []) then None
  else Some (Counter (split (preprocess_text (content doc)))).

(** What every state of the engine satisfies: records sit under their
    own identifiers, the index is a reachable one, and every indexed
    document has a record. *)
Definition engine_ok (preprocess_text : string → string) (e : SearchEngine) : Prop :=
  keys_match (document_manager e) ∧
  (∃ ics, index e = run preprocess_text ics) ∧
  (∀ d, is_Some (forward_index (index e) !! d) →
        is_Some (documents (document_manager e) !! d)).

(** Greatest score first, on search results. *)
Definition result_desc (a b : SearchResult) : Prop := (score b <= score a)%R.

(** A record once the engine has stored its normalised text. *)
Definition refreshed (preprocess_text : string → string) (doc : Document)
  : Document :=
  with_processed_content (preprocess_text (content doc)) doc.

(** ** The snippet of a search result ([SearchResult._generate_snippet])

    A character of a [string] stands for one code point, so that
    [String.length] is [len].  [str.lower] follows the Unicode case
    tables: it is a parameter, and nothing is assumed about it. *)

(** A slice bound once Python has clipped it to [0 .. len]. *)
Definition slice_index (len i : Z) : Z :=
  if decide (i < 0) then Z.max (i + len) 0 else Z.min i len.

(** [s[start:stop]] on a [str]. *)
Definition str_slice (s : string) (start stop : Z) : string :=
  let len := Z.of_nat (String.length s) in
  let lo := slice_index len start in
  let hi := slice_index len stop in
  substring (Z.to_nat lo) (Z.to_nat (hi - lo)) s.

(** [s.find(sub)]: the lowest position of [sub] in [s], or [-1]. *)
Definition str_find (s sub : string) : Z :=
  match String.index 0 sub s with
  | Some pos => Z.of_nat pos
  | None => -1
  end.

Section Snippet.

Variable lower : string → string.

(** The text cut out around position [pos]. *)
Definition snippet_around (doc_content : string) (max_length pos : Z) : string :=
  let start := Z.max 0 (pos - max_length `div` 2) in
  let stop := Z.min (Z.of_nat (String.length doc_content)) (start + max_length) in
  let snippet := str_slice doc_content start stop in
  let snippet := if decide (0 < start) then "..." +:+ snippet else snippet in
  if decide (stop < Z.of_nat (String.length doc_content))
  then snippet +:+ "..." else snippet.

(** The loop over the matched keywords, with the fall-back after it. *)
Fixpoint snippet_loop (doc_content content_lower : string) (max_length : Z)
    (keywords : list string) : string :=
  match keywords with
  | [] => str_slice doc_content 0 max_length +:+ "..."
  | keyword :: rest =>
      let pos := str_find content_lower (lower keyword) in
      if decide (pos ≠ -1) then snippet_around doc_content max_length pos
      else snippet_loop doc_content content_lower max_length rest
  end.

Definition SearchResult_generate_snippet (max_length : Z) (r : SearchResult)
  : string :=
  let doc_content := content (document r) in
  if decide (Z.of_nat (String.length doc_content) ≤ max_length) then doc_content
  else snippet_loop doc_content (lower doc_content) max_length (matched_keywords r).

End Snippet.

(** A string that is empty or the ellipsis. *)
Definition ellipsis_or_empty (s : string) : Prop := s = "" ∨ s = "...".

(** ** [calculate_cosine_similarity] on binary64 numbers

    Python's [float] is an IEEE 754 binary64 number, here
    [PrimFloat.float].  What the language leaves open is made explicit:
    - a dictionary is the list of its items in insertion order, the
      order in which [for word in vec1] runs;
    - [common_words] is the list that iterating the set
      [set(vec1.keys()) & set(vec2.keys())] yields in the call at hand:
      the order of a set of strings follows their hashes and the way the
      set was built, and need not be the same in two calls;
    - [sum] adds from left to right, starting from 0, as CPython does up
      to version 3.11 (later versions carry a correction term);
    - [v ** 2] is the C library's [pow] with Python's overflow check; the
      library does not promise the correctly rounded square, so it is
      the parameter [pow2], of which the theorems assume no more than
      that [OverflowError] is all it raises. *)

Inductive float_exn : Type :=
| FloatZeroDivisionError
| FloatValueError
| FloatOverflowError.

Inductive float_result : Type :=
| FOk (x : PrimFloat.float)
| FRaise (e : float_exn).

Definition float_vector : Type := list (string * PrimFloat.float).

Section Binary64.

Import PrimFloat.

Variable pow2 : PrimFloat.float → float_result.

(** [vec[word]] for a key of [vec] (the method only reads keys it has
    taken from the vector). *)
Fixpoint float_getitem (vec : float_vector) (word : string) : PrimFloat.float :=
  match vec with
  | [] => 0%float
  | (k, v) :: rest => if decide (k = word) then v else float_getitem rest word
  end.

Definition float_sum (xs : list PrimFloat.float) : PrimFloat.float :=
  foldl PrimFloat.add 0%float xs.

(** [sum(vec1[word] * vec2[word] for word in common_words)] *)
Definition float_dot_product (common_words : list string)
    (vec1 vec2 : float_vector) : PrimFloat.float :=
  float_sum ((λ word, float_getitem vec1 word * float_getitem vec2 word)%float
               <$> common_words).

(** [math.sqrt(x)]: a domain error on a negative argument, [nan] on [nan]. *)
Definition float_sqrt (x : PrimFloat.float) : float_result :=
  if (x <? 0)%float then FRaise FloatValueError else FOk (PrimFloat.sqrt x).

(** [x / y] on two [float]s. *)
Definition float_div (x y : PrimFloat.float) : float_result :=
  if (y =? 0)%float then FRaise FloatZeroDivisionError else FOk (x / y)%float.

(** [sum(vec[word] ** 2 for word in vec)], from the accumulator [acc]. *)
Fixpoint float_sum_squares (acc : PrimFloat.float) (vec : float_vector)
  : float_result :=
  match vec with
  | [] => FOk acc
  | (_, v) :: rest =>
      match pow2 v with
      | FOk square => float_sum_squares (acc + square)%float rest
      | FRaise e => FRaise e
      end
  end.

Definition float_norm (vec : float_vector) : float_result :=
  match float_sum_squares 0%float vec with
  | FOk total => float_sqrt total
  | FRaise e => FRaise e
  end.

Definition calculate_cosine_similarity_binary64 (common_words : list string)
    (vec1 vec2 : float_vector) : float_result :=
  if decide (common_words = []) then FOk 0%float
  else
    let dot_product := float_dot_product common_words vec1 vec2 in
    match float_norm vec1 with
    | FRaise e => FRaise e
    | FOk norm1 =>
        match float_norm vec2 with
        | FRaise e => FRaise e
        | FOk norm2 =>
            if (norm1 =? 0)%float || (norm2 =? 0)%float then FOk 0%float
            else float_div dot_product (norm1 * norm2)%float
        end
    end.

(** [common_words] lists, without repeats, the keys the two vectors
    share: what iterating their intersection can yield. *)
Definition lists_shared_terms (common_words : list string)
    (vec1 vec2 : float_vector) : Prop :=
  NoDup common_words ∧
  ∀ word, word ∈ common_words ↔ word ∈ vec1.*1 ∧ word ∈ vec2.*1.

(** The correctly rounded square, with Python's overflow check: what
    [v ** 2] returns whenever the square is a binary64 number, as for
    the weights below, whose squares are powers of two. *)
Definition float_square (v : PrimFloat.float) : float_result :=
  let square := (v * v)%float in
  if PrimFloat.is_finite v && PrimFloat.is_infinity square
  then FRaise FloatOverflowError
  else FOk square.

(** [{'cat': 9007199254740992.0, 'bird': 1.0, 'star': 1.0}] and
    [{'cat': 1.0, 'star': 1.0, 'bird': 1.0}]; the first weight is 2^53. *)
Definition wide_weights : float_vector :=
  [("cat", 0x1p53%float); ("bird", 1%float); ("star", 1%float)].
Definition unit_weights : float_vector :=
  [("cat", 1%float); ("star", 1%float); ("bird", 1%float)].

End Binary64.

(** ** Nested dictionaries *)

Lemma lookup2_store (m : gmap string (gmap string Z)) k j c k' j' :
  lookup2 (<[k := <[j := c]> (default ∅ (m !! k))]> m) k' j'
  = if decide (k = k' ∧ j = j') then Some c else lookup2 m k' j'.
Proof.
  unfold lookup2. destruct (decide (k = k')) as [->|Hk].
  - rewrite lookup_insert_eq. simpl.
    destruct (decide (j = j')) as [->|Hj].
    + rewrite lookup_insert_eq. by rewrite decide_True.
    + rewrite lookup_insert_ne by done. rewrite decide_False by tauto.
      destruct (m !! k') as [p|]; simpl; [done | apply lookup_empty].
  - rewrite lookup_insert_ne by done. by rewrite decide_False by tauto.
Qed.

Lemma lookup2_delete (m : gmap string (gmap string Z)) k k' j :
  lookup2 (delete k m) k' j = if decide (k = k') then None else lookup2 m k' j.
Proof.
  unfold lookup2. case_decide as Hk.
  - subst. by rewrite lookup_delete_eq.
  - by rewrite lookup_delete_ne.
Qed.

Lemma lookup2_Some (m : gmap string (gmap string Z)) k j c :
  lookup2 m k j = Some c ↔ ∃ p, m !! k = Some p ∧ p !! j = Some c.
Proof.
  unfold lookup2. destruct (m !! k) as [p|]; simpl.
  - split; [eauto | by intros (? & [= <-] & ?)].
  - split; [done | by intros (? & ? & ?)].
Qed.

(** ** [add_document] *)

Lemma index_word_inverted id s w c :
  inverted_index (index_word id s (w, c))
  = <[w := <[id := c]> (default ∅ (inverted_index s !! w))]> (inverted_index s).
Proof. done. Qed.

Lemma index_word_forward id s w c :
  forward_index (index_word id s (w, c))
  = <[id := <[w := c]> (default ∅ (forward_index s !! id))]> (forward_index s).
Proof. done. Qed.

Lemma index_word_nonempty id s wc :
  postings_nonempty s → postings_nonempty (index_word id s wc).
Proof.
  destruct wc as [w c]. intros Hs t p. rewrite index_word_inverted.
  destruct (decide (w = t)) as [->|Hne].
  - rewrite lookup_insert_eq. intros [= <-]. apply insert_non_empty.
  - rewrite lookup_insert_ne by done. apply Hs.
Qed.

Lemma index_word_agree id s wc :
  postings_agree s → postings_agree (index_word id s wc).
Proof.
  destruct wc as [w c]. intros Hs t d.
  rewrite index_word_inverted, index_word_forward, !lookup2_store, Hs.
  destruct (decide (w = t ∧ id = d)), (decide (id = d ∧ w = t)); tauto || done.
Qed.

Lemma index_word_rest id s wc :
  total_documents (index_word id s wc) = total_documents s ∧
  document_lengths (index_word id s wc) = document_lengths s ∧
  tf_idf_weights (index_word id s wc) = tf_idf_weights s ∧
  idf_cache (index_word id s wc) = idf_cache s.
Proof. by destruct wc. Qed.

Lemma index_words_inv id (P : DocumentIndex → Prop) l s :
  (∀ s wc, P s → P (index_word id s wc)) →
  P s → P (foldl (index_word id) s l).
Proof.
  intros Hstep. revert s. induction l as [|wc l IH]; intros s Hs; simpl; auto.
Qed.

Lemma index_words_rest id l s :
  total_documents (foldl (index_word id) s l) = total_documents s ∧
  document_lengths (foldl (index_word id) s l) = document_lengths s ∧
  tf_idf_weights (foldl (index_word id) s l) = tf_idf_weights s ∧
  idf_cache (foldl (index_word id) s l) = idf_cache s.
Proof.
  revert s. induction l as [|wc l IH]; intros s; simpl; [done|].
  destruct (IH (index_word id s wc)) as (-> & -> & -> & ->).
  apply index_word_rest.
Qed.

Lemma cache_fresh_empty s : idf_cache s = ∅ → cache_fresh s.
Proof. intros He w v. by rewrite He, lookup_empty. Qed.

Lemma add_document_wf pre id text s : wf s → wf (add_document pre id text s).
Proof.
  intros Hs. unfold add_document. case_decide; [done|].
  split.
  - unfold postings_nonempty. simpl.
    apply (index_words_inv id postings_nonempty);
      [apply index_word_nonempty | apply Hs].
  - unfold postings_agree. simpl.
    apply (index_words_inv id postings_agree);
      [apply index_word_agree | apply Hs].
  - done.
  - by apply cache_fresh_empty.
Qed.

(** ** [remove_document] *)

Lemma unindex_word_lookup2 id inv w t d :
  lookup2 (unindex_word id inv w) t d
  = if decide (d = id ∧ t = w) then None else lookup2 inv t d.
Proof.
  unfold unindex_word.
  destruct (inv !! w) as [p|] eqn:Hw; simpl.
  - destruct (decide (id ∈ dom p)) as [Hin|Hin].
    + assert (∀ q, lookup2 q t d = (if decide (d = id ∧ t = w) then None
                                     else lookup2 inv t d) ↔
                   q !! t ≫= (λ p, p !! d) = (if decide (t = w)
                     then delete id p !! d else inv !! t ≫= (λ p, p !! d))) as Hq.
      { intros q. unfold lookup2. destruct (decide (t = w)) as [->|Ht].
        - rewrite Hw. simpl. destruct (decide (d = id)) as [->|Hd].
          + rewrite decide_True by done. by rewrite lookup_delete_eq.
          + rewrite decide_False by tauto. by rewrite lookup_delete_ne.
        - by rewrite decide_False by tauto. }
      apply Hq. destruct (decide (delete id p = ∅)) as [He|He].
      * destruct (decide (t = w)) as [->|Ht].
        -- rewrite lookup_delete_eq. by rewrite He, lookup_empty.
        -- by rewrite lookup_delete_ne.
      * destruct (decide (t = w)) as [->|Ht].
        -- by rewrite lookup_insert_eq.
        -- by rewrite lookup_insert_ne.
    + rewrite insert_id by done. case_decide as Hc; [|done].
      destruct Hc as [-> ->]. unfold lookup2. rewrite Hw. simpl.
      by apply not_elem_of_dom.
  - rewrite decide_False by (rewrite dom_empty_L; set_solver).
    unfold lookup2. destruct (decide (t = w)) as [->|Ht].
    + rewrite lookup_insert_eq, Hw. simpl. rewrite lookup_empty. by case_decide.
    + rewrite lookup_insert_ne by done. by rewrite decide_False by tauto.
Qed.

Lemma unindex_words_lookup2 id ws inv t d :
  lookup2 (foldl (unindex_word id) inv ws) t d
  = if decide (d = id ∧ t ∈ ws) then None else lookup2 inv t d.
Proof.
  revert inv. induction ws as [|w ws IH]; intros inv; simpl.
  - rewrite decide_False; [done|]. intros [_ Hin]. by apply elem_of_nil in Hin.
  - rewrite IH, unindex_word_lookup2.
    destruct (decide (d = id ∧ t ∈ ws)) as [[Hd Hin]|Hn1].
    { rewrite decide_True; [done|]. split; [done|]. apply elem_of_cons. auto. }
    destruct (decide (d = id ∧ t = w)) as [[Hd Ht]|Hn2].
    { rewrite decide_True; [done|]. split; [done|]. apply elem_of_cons. auto. }
    rewrite decide_False; [done|]. rewrite elem_of_cons. tauto.
Qed.

Lemma unindex_word_other id inv w t :
  t ≠ w → unindex_word id inv w !! t = inv !! t.
Proof.
  intros Ht. unfold unindex_word. repeat case_decide.
  - by rewrite lookup_delete_ne.
  - by rewrite lookup_insert_ne.
  - by rewrite lookup_insert_ne.
Qed.

Lemma unindex_word_nonempty id inv w :
  is_Some (inv !! w) →
  (∀ t p, inv !! t = Some p → p ≠ ∅) →
  ∀ t p, unindex_word id inv w !! t = Some p → p ≠ ∅.
Proof.
  intros [q Hq] Hinv t p. destruct (decide (t = w)) as [->|Ht].
  - unfold unindex_word. rewrite Hq. simpl. repeat case_decide.
    + by rewrite lookup_delete_eq.
    + rewrite lookup_insert_eq. by intros [= <-].
    + rewrite lookup_insert_eq. intros [= <-]. by eapply Hinv.
  - rewrite unindex_word_other by done. apply Hinv.
Qed.

Lemma unindex_words_nonempty id ws inv :
  NoDup ws →
  (∀ w, w ∈ ws → is_Some (inv !! w)) →
  (∀ t p, inv !! t = Some p → p ≠ ∅) →
  ∀ t p, foldl (unindex_word id) inv ws !! t = Some p → p ≠ ∅.
Proof.
  intros Hnd. revert inv. induction Hnd as [|w ws Hw Hnd IH]; intros inv Hall Hinv.
  - done.
  - simpl. apply IH.
    + intros w' Hw'. rewrite unindex_word_other by set_solver.
      apply Hall. set_solver.
    + apply unindex_word_nonempty; [apply Hall; set_solver | done].
Qed.

Lemma elem_of_keys {V} (m : gmap string V) k : k ∈ keys m ↔ is_Some (m !! k).
Proof.
  unfold keys. rewrite list_elem_of_fmap. split.
  - intros ([k' v] & -> & Hin). apply elem_of_map_to_list in Hin. eauto.
  - intros [v Hv]. exists (k, v). split; [done|]. by apply elem_of_map_to_list.
Qed.

Lemma NoDup_keys {V} (m : gmap string V) : NoDup (keys m).
Proof. apply NoDup_fst_map_to_list. Qed.

Lemma remove_document_wf id s : wf s → wf (remove_document id s).
Proof.
  intros Hs. unfold remove_document.
  destruct (forward_index s !! id) as [entry|] eqn:Hid; [|done].
  split; [| |reflexivity|by apply cache_fresh_empty].
  - unfold postings_nonempty. simpl.
    apply unindex_words_nonempty; [apply NoDup_keys | | apply Hs].
    intros w [c Hc]%elem_of_keys.
    assert (lookup2 (inverted_index s) w id = Some c) as Hl.
    { rewrite (wf_agree _ Hs). unfold lookup2. by rewrite Hid. }
    apply lookup2_Some in Hl as (p & -> & _). eauto.
  - intros t d. simpl.
    rewrite unindex_words_lookup2, lookup2_delete, <- (wf_agree _ Hs).
    destruct (decide (d = id)) as [->|Hd].
    + rewrite (decide_True (P := id = id)) by done.
      destruct (decide (id = id ∧ t ∈ keys entry)) as [_|Hc]; [done|].
      rewrite (wf_agree _ Hs). unfold lookup2. rewrite Hid. simpl.
      rewrite elem_of_keys in Hc.
      destruct (entry !! t) eqn:He; [|done]. exfalso. apply Hc. eauto.
    + rewrite decide_False by tauto. by rewrite decide_False by done.
Qed.

(** ** Methods that only write the IDF cache *)

Lemma same_index_refl s : same_index s s.
Proof. by repeat split. Qed.

Lemma idf_from_scratch_same s0 s w :
  same_index s0 s → idf_from_scratch s w = idf_from_scratch s0 w.
Proof. intros (Hi & _ & Ht & _). unfold idf_from_scratch. by rewrite Hi, Ht. Qed.

Lemma stable_wf s0 s : wf s0 → stable s0 s → wf s.
Proof.
  intros [Hn Ha Ht _] [(Hi & Hf & Htot & _) Hc]. split; [| | |done].
  - intros t p. rewrite Hi. apply Hn.
  - intros t d. rewrite Hi, Hf. apply Ha.
  - unfold total_is_size. by rewrite Htot, Hf.
Qed.

Lemma reads_ret {A} s0 (a : A) (Q : result A → Prop) :
  Q (Ok a) → reads s0 (ret a) Q.
Proof. intros HQ s Hs. by exists (Ok a), s. Qed.

Lemma reads_pure {A} s0 (f : DocumentIndex → result A) (Q : result A → Prop) :
  (∀ s, stable s0 s → Q (f s)) → reads s0 (λ s, (f s, s)) Q.
Proof. intros HQ s Hs. exists (f s), s. auto. Qed.

Lemma reads_weaken {A} s0 (m : M A) (Q Q' : result A → Prop) :
  (∀ r, Q r → Q' r) → reads s0 m Q → reads s0 m Q'.
Proof.
  intros HQ Hm s Hs. destruct (Hm s Hs) as (r & s' & ? & ? & ?).
  exists r, s'. auto.
Qed.

Lemma reads_bind {A B} s0 (m : M A) (k : A → M B) Q1 (Q2 : result B → Prop) :
  reads s0 m Q1 →
  (∀ a, Q1 (Ok a) → reads s0 (k a) Q2) →
  (∀ e, Q1 (Raise e) → Q2 (Raise e)) →
  reads s0 (bind m k) Q2.
Proof.
  intros Hm Hk He s Hs. unfold bind.
  destruct (Hm s Hs) as ([a|e] & s1 & -> & Hs1 & HQ1).
  - by apply Hk.
  - exists (Raise e), s1. auto.
Qed.

Lemma reads_for_each_any {A B} s0 (body : A → B → M B) xs acc :
  (∀ x acc, reads s0 (body x acc) (λ _, True)) →
  reads s0 (for_each xs body acc) (λ _, True).
Proof.
  intros Hbody. revert acc. induction xs as [|x xs IH]; intros acc; simpl.
  - by apply reads_ret.
  - eapply reads_bind; [apply Hbody | intros; apply IH | done].
Qed.

Lemma reads_for_each_value {A B} s0 (body : A → B → M B) (g : B → A → B) xs acc :
  (∀ x acc, reads s0 (body x acc) (λ r, r = Ok (g acc x))) →
  reads s0 (for_each xs body acc) (λ r, r = Ok (foldl g acc xs)).
Proof.
  intros Hbody. revert acc. induction xs as [|x xs IH]; intros acc; simpl.
  - by apply reads_ret.
  - eapply reads_bind; [apply Hbody | | done].
    intros a [= ->]. apply IH.
Qed.

Lemma wf_corpus_positive s w p :
  wf s → inverted_index s !! w = Some p →
  (0 < size p)%nat ∧ 0 < total_documents s.
Proof.
  intros Hs Hw.
  assert (p ≠ ∅) as Hp by (by eapply wf_nonempty).
  split.
  - apply map_size_non_empty_iff in Hp. lia.
  - apply map_choose in Hp as (d & c & Hd).
    assert (lookup2 (forward_index s) d w = Some c) as Hl.
    { rewrite <- (wf_agree _ Hs). apply lookup2_Some. eauto. }
    apply lookup2_Some in Hl as (m & Hm & _).
    rewrite (wf_total _ Hs).
    assert (size (forward_index s) ≠ 0%nat); [|lia].
    apply map_size_non_empty_iff. intros He. by rewrite He, lookup_empty in Hm.
Qed.

Lemma calculate_idf_value s0 w :
  wf s0 → reads s0 (calculate_idf w) (λ r, r = Ok (idf_from_scratch s0 w)).
Proof.
  intros Hwf s Hs. pose proof (stable_wf _ _ Hwf Hs) as Hwfs.
  destruct Hs as [Hsame Hc].
  rewrite <- (idf_from_scratch_same _ _ w Hsame).
  unfold calculate_idf. destruct (idf_cache s !! w) as [v|] eqn:Hcw.
  { exists (Ok v), s. split; [done|]. split; [by split|]. f_equal. by apply Hc. }
  unfold idf_from_scratch.
  destruct (inverted_index s !! w) as [p|] eqn:Hw.
  2: { exists (Ok 0%R), s. split; [done|]. by split. }
  destruct (wf_corpus_positive _ _ _ Hwfs Hw) as [Hp Ht].
  rewrite decide_False by lia.
  unfold int_truediv. rewrite decide_False by lia. simpl.
  unfold math_log.
  assert (0 < IZR (total_documents s) / IZR (Z.of_nat (size p)))%R as Hpos.
  { apply Rdiv_lt_0_compat; apply IZR_lt; lia. }
  destruct (Rlt_dec _ _) as [_|Hn]; [|done].
  eexists _, _. split; [done|]. split; [|done]. split.
  - destruct Hsame as (? & ? & ? & ? & ?). by repeat split.
  - intros w' v. simpl. unfold idf_from_scratch. simpl.
    destruct (decide (w = w')) as [<-|Hne].
    + rewrite lookup_insert_eq, Hw. by intros [= <-].
    + rewrite lookup_insert_ne by done. apply Hc.
Qed.

Lemma calculate_tf_same s0 s w d :
  same_index s0 s → calculate_tf w d s = calculate_tf w d s0.
Proof. intros (_ & Hf & _ & Hl & _). unfold calculate_tf. by rewrite Hf, Hl. Qed.

Lemma calculate_tf_value s w d :
  lengths_positive s → calculate_tf w d s = Ok (term_frequency s w d).
Proof.
  intros Hl. unfold calculate_tf, term_frequency.
  destruct (forward_index s !! d) as [entry|] eqn:Hd; [|done].
  destruct (entry !! w) as [c|]; [|done].
  destruct (Hl _ _ Hd) as (n & -> & Hn). simpl.
  unfold int_truediv. by rewrite decide_False by lia.
Qed.

Section Reads.

Variable preprocess_text : string → string.
Variable s0 : DocumentIndex.
Hypothesis s0_wf : wf s0.

Lemma calculate_idf_any w : reads s0 (calculate_idf w) (λ _, True).
Proof. eapply reads_weaken; [|by apply calculate_idf_value]. done. Qed.

Lemma calculate_tf_idf_any w d : reads s0 (calculate_tf_idf w d) (λ _, True).
Proof.
  unfold calculate_tf_idf.
  eapply reads_bind; [by apply (reads_pure _ _ (λ _, True)) | | done].
  intros tf _. eapply reads_bind; [apply calculate_idf_any | | done].
  intros idf _. by apply reads_ret.
Qed.

Lemma get_document_vector_any d : reads s0 (get_document_vector d) (λ _, True).
Proof.
  intros s Hs. unfold get_document_vector.
  destruct (forward_index s !! d) as [entry|].
  - apply reads_for_each_any; [|done]. intros w vector.
    eapply reads_bind; [apply calculate_tf_idf_any | | done].
    intros x _. by apply reads_ret.
  - by exists (Ok ∅), s.
Qed.

Lemma get_query_vector_any q :
  reads s0 (get_query_vector preprocess_text q) (λ _, True).
Proof.
  unfold get_query_vector. case_decide; [by apply reads_ret|].
  apply reads_for_each_any. intros [w c] vector.
  eapply reads_bind; [apply calculate_idf_any | | done].
  intros x _. by apply reads_ret.
Qed.

Lemma search_any q k : reads s0 (search preprocess_text q k) (λ _, True).
Proof.
  intros s Hs. unfold search.
  case_decide as Hq; [by exists (Ok []), s|].
  case_decide as Ht; [by exists (Ok []), s|].
  clear Hq Ht. revert s Hs.
  eapply reads_bind; [apply get_query_vector_any | | done].
  intros qv _. case_decide; [by apply reads_ret|].
  eapply reads_bind; [| intros; by apply reads_ret | done].
  instantiate (1 := λ _, True).
  intros s Hs. apply reads_for_each_any; [|done].
  intros d sims. eapply reads_bind; [apply get_document_vector_any | | done].
  intros dv _. eapply reads_bind;
    [by apply (reads_pure _ (λ _, _) (λ _, True)) | | done].
  intros sim _. destruct (Rlt_dec 0 sim); by apply reads_ret.
Qed.

Lemma get_document_keywords_any d k :
  reads s0 (get_document_keywords d k) (λ _, True).
Proof.
  intros s Hs. unfold get_document_keywords.
  destruct (forward_index s !! d); [|by exists (Ok []), s].
  revert s Hs. eapply reads_bind; [apply get_document_vector_any | | done].
  intros v _. by apply reads_ret.
Qed.

End Reads.

Lemma reads_wf {A} s (m : M A) Q : wf s → reads s m Q → wf (m s).2.
Proof.
  intros Hs Hm.
  destruct (Hm s) as (r & s' & -> & Hs' & _).
  - split; [apply same_index_refl | apply Hs].
  - by eapply stable_wf.
Qed.

Lemma exec_wf pre s c : wf s → wf (exec pre s c).
Proof.
  intros Hs. destruct c; simpl.
  - by apply add_document_wf.
  - by apply remove_document_wf.
  - eapply reads_wf; [done | by apply calculate_idf_any].
  - eapply reads_wf; [done | by apply calculate_tf_idf_any].
  - eapply reads_wf; [done | by apply get_document_vector_any].
  - eapply reads_wf; [done | by apply get_query_vector_any].
  - eapply reads_wf; [done | by apply search_any].
  - eapply reads_wf; [done | by apply get_document_keywords_any].
Qed.

Lemma empty_index_wf : wf empty_index.
Proof.
  split.
  - intros t p. simpl. by rewrite lookup_empty.
  - intros t d. done.
  - done.
  - by apply cache_fresh_empty.
Qed.

Lemma foldl_exec_wf pre cs s : wf s → wf (foldl (exec pre) s cs).
Proof.
  revert s. induction cs as [|c cs IH]; intros s Hs; simpl; [done|].
  apply IH. by apply exec_wf.
Qed.

Lemma run_wf pre cs : wf (run pre cs).
Proof. apply foldl_exec_wf, empty_index_wf. Qed.

(** ** Consistency of the two indexes *)

(** C1. After any sequence of calls on a new index (the two mutators
    [add_document] and [remove_document], interleaved with any of the
    read methods), every term of [inverted_index] has a non-empty
    postings dictionary, and the keys of [forward_index[d]] are exactly
    the terms whose postings contain [d]. *)
Theorem index_consistency (preprocess_text : string → string) (cs : list call) :
  let s := run preprocess_text cs in
  (∀ t p, inverted_index s !! t = Some p → p ≠ ∅) ∧
  (∀ d entry, forward_index s !! d = Some entry →
     ∀ t, t ∈ dom entry ↔ ∃ p, inverted_index s !! t = Some p ∧ d ∈ dom p).
Proof.
  intros s. pose proof (run_wf preprocess_text cs) as Hwf. fold s in Hwf.
  split; [apply Hwf|].
  intros d entry Hd t. rewrite elem_of_dom. unfold is_Some.
  assert (∀ c, entry !! t = Some c ↔ lookup2 (inverted_index s) t d = Some c) as Hc.
  { intros c. rewrite (wf_agree _ Hwf). unfold lookup2. by rewrite Hd. }
  split.
  - intros [c Hl]. apply Hc, lookup2_Some in Hl as (p & Hp & Hpd).
    exists p. split; [done|]. apply elem_of_dom. eauto.
  - intros (p & Hp & [c Hpd]%elem_of_dom). exists c.
    apply Hc, lookup2_Some. eauto.
Qed.

(** ** The IDF cache *)

(** C4. In every state the index can reach, [calculate_idf] returns the
    value recomputed from the index: [0] for a term that is not in
    [inverted_index], otherwise [ln (total_documents / df)] with [df] the
    size of the postings of the term.  The state after an [add_document]
    or a [remove_document] is such a state, whatever was cached before. *)
Theorem idf_cache_never_stale (preprocess_text : string → string)
    (cs : list call) (word : string) :
  let s := run preprocess_text cs in
  (calculate_idf word s).1 = Ok (idf_from_scratch s word) ∧
  (inverted_index s !! word = None → idf_from_scratch s word = 0%R) ∧
  (∀ postings, inverted_index s !! word = Some postings →
     idf_from_scratch s word
     = ln (IZR (total_documents s) / IZR (Z.of_nat (size postings)))).
Proof.
  intros s. pose proof (run_wf preprocess_text cs) as Hwf. fold s in Hwf.
  split; [|split].
  - destruct (calculate_idf_value s word Hwf s) as (r & s' & -> & _ & ->); [|done].
    split; [apply same_index_refl | apply Hwf].
  - intros Hw. unfold idf_from_scratch. by rewrite Hw.
  - intros p Hw. unfold idf_from_scratch. by rewrite Hw.
Qed.

(** ** Adding the same document again *)

#[local] Arguments index_word : simpl never.

Lemma index_word_fixed id s w c :
  lookup2 (inverted_index s) w id = Some c →
  lookup2 (forward_index s) id w = Some c →
  index_word id s (w, c) = s.
Proof.
  intros (p & Hp & Hpc)%lookup2_Some (m & Hm & Hmc)%lookup2_Some.
  destruct s as [inv fwd n lens ws cache]. simpl in *.
  unfold index_word. simpl. rewrite Hp, Hm. simpl.
  by rewrite (insert_id p), (insert_id m), (insert_id inv), (insert_id fwd).
Qed.

Lemma index_words_fixed id l s :
  (∀ w c, (w, c) ∈ l →
     lookup2 (inverted_index s) w id = Some c ∧
     lookup2 (forward_index s) id w = Some c) →
  foldl (index_word id) s l = s.
Proof.
  induction l as [|[w c] l IH]; intros Hl; simpl; [done|].
  destruct (Hl w c) as [Hi Hf]; [apply elem_of_cons; auto|].
  rewrite index_word_fixed by done. apply IH. intros w' c' Hin.
  apply Hl, elem_of_cons. auto.
Qed.

Lemma index_words_keep id l s w :
  w ∉ l.*1 →
  (∀ d, lookup2 (inverted_index (foldl (index_word id) s l)) w d
        = lookup2 (inverted_index s) w d) ∧
  lookup2 (forward_index (foldl (index_word id) s l)) id w
  = lookup2 (forward_index s) id w.
Proof.
  revert s. induction l as [|[w' c'] l IH]; intros s Hw; simpl; [done|].
  rewrite fmap_cons, not_elem_of_cons in Hw. destruct Hw as [Hne Hw]. simpl in Hne.
  destruct (IH (index_word id s (w', c')) Hw) as [Hi Hf]. split.
  - intros d. rewrite Hi, index_word_inverted, lookup2_store.
    by rewrite decide_False by (intros [? ?]; congruence).
  - rewrite Hf, index_word_forward, lookup2_store.
    by rewrite decide_False by (intros [? ?]; congruence).
Qed.

Lemma index_words_stored id l s w c :
  NoDup l.*1 → (w, c) ∈ l →
  lookup2 (inverted_index (foldl (index_word id) s l)) w id = Some c ∧
  lookup2 (forward_index (foldl (index_word id) s l)) id w = Some c.
Proof.
  revert s. induction l as [|[w' c'] l IH]; intros s Hnd Hin; [by inversion Hin|].
  rewrite fmap_cons in Hnd. apply NoDup_cons in Hnd as [Hw' Hnd]. simpl in *.
  apply elem_of_cons in Hin as [[= -> ->]|Hin].
  - destruct (index_words_keep id l (index_word id s (w', c')) w' Hw') as [-> ->].
    rewrite index_word_inverted, index_word_forward, !lookup2_store.
    by rewrite !decide_True.
  - by apply IH.
Qed.

(** C9. Calling [add_document] a second time with the same identifier
    and the same text leaves every field of the index as the first call
    left it. *)
Theorem add_document_idempotent (preprocess_text : string → string)
    (id text : string) (s : DocumentIndex) :
  add_document preprocess_text id text (add_document preprocess_text id text s)
  = add_document preprocess_text id text s.
Proof.
  unfold add_document.
  destruct (decide (preprocess_text text = "")) as [He|He].
  { done. }
  set (l := items (Counter (split (preprocess_text text)))).
  set (n := sum_int (values (Counter (split (preprocess_text text))))).
  set (s1 := foldl (index_word id) s l).
  match goal with |- context [foldl (index_word id) ?a l] =>
    match a with s => fail 1 | _ => set (s2 := a) end end.
  assert (foldl (index_word id) s2 l = s2) as ->.
  { apply index_words_fixed. intros w c Hin. subst s2. simpl.
    apply index_words_stored; [apply NoDup_fst_map_to_list | done]. }
  subst s2. simpl. by rewrite insert_insert_eq.
Qed.

(** C2, on a concrete run: after [d1] is indexed with "cat dog" and then
    again with "bird", its forward entry holds all three terms and "cat"
    still lists [d1], whereas an index that only ever saw "bird" for [d1]
    holds that single term; the stored length is the one of "bird"
    alone. *)
Theorem readd_keeps_old_terms :
  let s := run keep_text [AddDocument "d1" "cat dog"; AddDocument "d1" "bird"] in
  let fresh := run keep_text [AddDocument "d1" "bird"] in
  forward_index s !! "d1"
    = Some (list_to_map [("cat", 1); ("dog", 1); ("bird", 1)]) ∧
  lookup2 (inverted_index s) "cat" "d1" = Some 1 ∧
  document_lengths s !! "d1" = Some 1 ∧
  forward_index fresh !! "d1" = Some (list_to_map [("bird", 1)]) ∧
  lookup2 (inverted_index fresh) "cat" "d1" = None.
Proof. intros s fresh. repeat split; vm_compute; reflexivity. Qed.

(** ** Term frequency *)

Lemma calculate_tf_absent s w d :
  lookup2 (forward_index s) d w = None → calculate_tf w d s = Ok 0%R.
Proof.
  unfold lookup2, calculate_tf. destruct (forward_index s !! d); simpl; [|done].
  by intros ->.
Qed.

Lemma calculate_tf_present s w d c :
  lookup2 (forward_index s) d w = Some c →
  default 1 (document_lengths s !! d) ≠ 0 →
  calculate_tf w d s = Ok (IZR c / IZR (default 1%Z (document_lengths s !! d)))%R.
Proof.
  intros (m & Hm & Hc)%lookup2_Some Hn. unfold calculate_tf.
  rewrite Hm, Hc. unfold int_truediv. by rewrite decide_False.
Qed.

(** C3, on a concrete run: [d1] is indexed with "cat cat cat dog" and
    then again with "bird"; "cat" is still present in [d1] with count 3,
    the stored length is 1, and [calculate_tf] returns 3/1, above 1. *)
Theorem term_frequency_above_one :
  let s := run keep_text
             [AddDocument "d1" "cat cat cat dog"; AddDocument "d1" "bird"] in
  lookup2 (forward_index s) "d1" "cat" = Some 3 ∧
  document_lengths s !! "d1" = Some 1 ∧
  calculate_tf "cat" "d1" s = Ok (3 / 1)%R ∧
  (1 < 3 / 1)%R.
Proof.
  intros s.
  assert (lookup2 (forward_index s) "d1" "cat" = Some 3) as H3
    by (vm_compute; reflexivity).
  assert (document_lengths s !! "d1" = Some 1) as H1 by (vm_compute; reflexivity).
  clearbody s.
  split; [done|]. split; [done|]. split; [|lra].
  rewrite (calculate_tf_present s "cat" "d1" 3 H3); by rewrite H1.
Qed.

(** ** Removing a document through the search engine *)

(** C8. [SearchEngine.remove_document] returns what the storage deletion
    returned; the index is touched (by [remove_document] of the index)
    only when that is [True]; for an identifier the store does not hold
    the result is [False] and the whole engine, index included, is as it
    was. *)
Theorem engine_remove_document (id : string) (e : SearchEngine) :
  let deleted := DocumentManager_delete_document id (document_manager e) in
  let out := SearchEngine_remove_document id e in
  out.1 = deleted.1 ∧
  document_manager out.2 = deleted.2 ∧
  index out.2 = (if deleted.1 then remove_document id (index e) else index e) ∧
  (documents (document_manager e) !! id = None → out = (false, e)) ∧
  (is_Some (documents (document_manager e) !! id) →
     out.1 = true ∧
     documents (document_manager out.2) = delete id (documents (document_manager e))).
Proof.
  unfold SearchEngine_remove_document, DocumentManager_delete_document.
  destruct e as [[docs] idx]. simpl.
  destruct (decide (id ∈ dom docs)) as [Hin|Hin]; simpl.
  - split; [done|]. split; [done|]. split; [done|]. split; [|done].
    intros Hn. apply elem_of_dom in Hin. rewrite Hn in Hin. by destruct Hin.
  - split; [done|]. split; [done|]. split; [done|]. split; [done|].
    intros Hs. by apply elem_of_dom in Hs.
Qed.

(** ** Unknown documents *)

(** C10. For an identifier that is not a key of [forward_index],
    [get_document_vector] returns the empty dictionary,
    [get_document_keywords] returns the empty list, and both leave the
    index as it was. *)
Theorem unknown_document_reads (id : string) (top_k : Z) (s : DocumentIndex) :
  forward_index s !! id = None →
  get_document_vector id s = (Ok ∅, s) ∧
  get_document_keywords id top_k s = (Ok [], s).
Proof.
  intros Hid. unfold get_document_vector, get_document_keywords.
  by rewrite Hid.
Qed.

Lemma unknown_document_reads_witness :
  get_document_vector "d9"
    (run keep_text [AddDocument "d1" "cat dog cat"; AddDocument "d2" "dog bird"])
  = (Ok ∅, run keep_text [AddDocument "d1" "cat dog cat"; AddDocument "d2" "dog bird"]) ∧
  get_document_keywords "d9" 10
    (run keep_text [AddDocument "d1" "cat dog cat"; AddDocument "d2" "dog bird"])
  = (Ok [], run keep_text [AddDocument "d1" "cat dog cat"; AddDocument "d2" "dog bird"]).
Proof. apply unknown_document_reads. vm_compute. reflexivity. Defined.

(** ** Cosine similarity *)

Lemma foldl_Rplus (a : R) l : foldl Rplus a l = (a + sum_float l)%R.
Proof.
  unfold sum_float. revert a. induction l as [|x l IH]; intros a; simpl.
  - lra.
  - rewrite (IH (a + x)%R), (IH (0 + x)%R). lra.
Qed.

Lemma sum_float_cons x l : sum_float (x :: l) = (x + sum_float l)%R.
Proof. unfold sum_float at 1. simpl. rewrite foldl_Rplus. lra. Qed.

Lemma sum_float_nonneg l : Forall (λ x, (0 <= x)%R) l → (0 <= sum_float l)%R.
Proof.
  induction 1 as [|x l Hx _ IH].
  - unfold sum_float. simpl. lra.
  - rewrite sum_float_cons. lra.
Qed.

Lemma sum_squares_nonneg (v : gmap string R) l :
  (0 <= sum_float ((λ word, getitem v word ^ 2)%R <$> l))%R.
Proof.
  apply sum_float_nonneg, Forall_fmap, Forall_forall. intros w _. simpl.
  apply pow2_ge_0.
Qed.

Lemma math_sqrt_norm (v : gmap string R) :
  math_sqrt (sum_float ((λ word, getitem v word ^ 2)%R <$> keys v)) = Ok (l2_norm v).
Proof.
  unfold math_sqrt. destruct (Rlt_dec _ 0) as [Hneg|_]; [|done].
  pose proof (sum_squares_nonneg v (keys v)). lra.
Qed.

(** The branches of [calculate_cosine_similarity], with the square roots
    taken. *)
Lemma cosine_unfold v1 v2 :
  calculate_cosine_similarity v1 v2
  = if decide (dom v1 ∩ dom v2 = (∅ : gset string)) then Ok 0%R
    else if Req_dec_T (l2_norm v1) 0 then Ok 0%R
    else if Req_dec_T (l2_norm v2) 0 then Ok 0%R
    else Ok (sum_float ((λ word, getitem v1 word * getitem v2 word)%R
                          <$> elements (dom v1 ∩ dom v2))
             / (l2_norm v1 * l2_norm v2))%R.
Proof.
  unfold calculate_cosine_similarity. case_decide; [done|].
  rewrite !math_sqrt_norm. simpl.
  destruct (Req_dec_T (l2_norm v1) 0) as [|H1]; [done|].
  destruct (Req_dec_T (l2_norm v2) 0) as [|H2]; [done|].
  unfold float_truediv. destruct (Req_dec_T _ 0) as [Hz|_]; [|done].
  apply Rmult_integral in Hz. tauto.
Qed.

(** Over the real numbers, where a sum does not depend on the order of
    its terms, [calculate_cosine_similarity] gives the same result with
    its arguments exchanged, reaches no division by zero, and returns 0
    when the vectors share no term and when the L2 norm of either vector
    is 0. *)
Theorem cosine_similarity_symmetric (v1 v2 : gmap string R) :
  calculate_cosine_similarity v1 v2 = calculate_cosine_similarity v2 v1 ∧
  (∃ r, calculate_cosine_similarity v1 v2 = Ok r) ∧
  (dom v1 ∩ dom v2 = (∅ : gset string) →
     calculate_cosine_similarity v1 v2 = Ok 0%R) ∧
  (l2_norm v1 = 0%R ∨ l2_norm v2 = 0%R →
     calculate_cosine_similarity v1 v2 = Ok 0%R).
Proof.
  split; [|split; [|split]].
  - rewrite !cosine_unfold.
    rewrite (comm_L (∩) (dom v2) (dom v1)).
    case_decide; [done|].
    destruct (Req_dec_T (l2_norm v1) 0), (Req_dec_T (l2_norm v2) 0); try done.
    do 2 f_equal; [|apply Rmult_comm].
    f_equal. apply list_fmap_ext. intros i w _. apply Rmult_comm.
  - rewrite cosine_unfold. repeat destruct (_ : {_} + {_}); eauto.
  - intros He. rewrite cosine_unfold. by rewrite decide_True.
  - intros Hn. rewrite cosine_unfold. case_decide; [done|].
    destruct (Req_dec_T (l2_norm v1) 0), (Req_dec_T (l2_norm v2) 0); try done.
    tauto.
Qed.

Lemma similarity_eq v1 v2 : calculate_cosine_similarity v1 v2 = Ok (similarity v1 v2).
Proof.
  unfold similarity. rewrite cosine_unfold.
  repeat destruct (_ : {_} + {_}); done.
Qed.

(** ** Exchanging the arguments on binary64 numbers *)

Section Binary64Facts.

Import PrimFloat.

Lemma float_mul_comm (x y : PrimFloat.float) : (x * y = y * x)%float.
Proof.
  apply FloatAxioms.Prim2SF_inj. rewrite !FloatAxioms.mul_spec.
  unfold FloatAxioms.SF64mul, SpecFloat.SFmul.
  destruct (FloatOps.Prim2SF x) as [sx|sx| |sx mx ex],
           (FloatOps.Prim2SF y) as [sy|sy| |sy my ey];
    try reflexivity; rewrite ?(xorb_comm sy sx); try reflexivity.
  by rewrite (Pos.mul_comm my mx), (Z.add_comm ey ex).
Qed.

Lemma float_dot_product_comm common_words vec1 vec2 :
  float_dot_product common_words vec1 vec2
  = float_dot_product common_words vec2 vec1.
Proof.
  unfold float_dot_product. f_equal. apply list_fmap_ext.
  intros i word _. apply float_mul_comm.
Qed.

Lemma lists_shared_terms_nil cw12 cw21 vec1 vec2 :
  lists_shared_terms cw12 vec1 vec2 → lists_shared_terms cw21 vec2 vec1 →
  cw12 = [] → cw21 = [].
Proof.
  intros [_ H12] [_ H21] ->. destruct cw21 as [|word rest]; [done|].
  exfalso. assert (word ∈ @nil string) as Hin; [|by apply elem_of_nil in Hin].
  apply H12. rewrite (comm and). apply H21, elem_of_cons. auto.
Qed.

Lemma cosine_binary64_value pow2 common_words vec1 vec2 norm1 norm2 :
  common_words ≠ [] →
  float_norm pow2 vec1 = FOk norm1 → float_norm pow2 vec2 = FOk norm2 →
  calculate_cosine_similarity_binary64 pow2 common_words vec1 vec2
  = if (norm1 =? 0)%float || (norm2 =? 0)%float then FOk 0%float
    else float_div (float_dot_product common_words vec1 vec2)
                   (norm1 * norm2)%float.
Proof.
  intros Hcw H1 H2. unfold calculate_cosine_similarity_binary64.
  by rewrite decide_False, H1, H2.
Qed.

Lemma float_norm_error pow2 vec e :
  (∀ v e', pow2 v = FRaise e' → e' = FloatOverflowError) →
  float_norm pow2 vec = FRaise e → e ≠ FloatZeroDivisionError.
Proof.
  intros Hpow. unfold float_norm.
  assert (∀ acc, float_sum_squares pow2 acc vec = FRaise e →
                 e = FloatOverflowError) as Hsum.
  { induction vec as [|[k v] rest IH]; intros acc; simpl; [done|].
    destruct (pow2 v) as [square|e'] eqn:Hv; [apply IH|].
    intros [= <-]. by eapply Hpow. }
  destruct (float_sum_squares pow2 0 vec) as [total|e'] eqn:Htotal.
  - unfold float_sqrt. destruct (total <? 0)%float; [|done]. by intros [= <-].
  - intros [= ->]. by rewrite (Hsum _ Htotal).
Qed.


Lemma example_lists_shared_12 :
  lists_shared_terms ["star"; "cat"; "bird"] wide_weights unit_weights.
Proof.
  split.
  - apply (bool_decide_unpack _). vm_compute. reflexivity.
  - intros word. unfold wide_weights, unit_weights. cbn [fmap list_fmap fst].
    rewrite !elem_of_cons, !elem_of_nil. tauto.
Qed.

Lemma example_lists_shared_21 :
  lists_shared_terms ["bird"; "star"; "cat"] unit_weights wide_weights.
Proof.
  split.
  - apply (bool_decide_unpack _). vm_compute. reflexivity.
  - intros word. unfold wide_weights, unit_weights. cbn [fmap list_fmap fst].
    rewrite !elem_of_cons, !elem_of_nil. tauto.
Qed.


Lemma float_neq (x y : PrimFloat.float) :
  FloatOps.Prim2SF x ≠ FloatOps.Prim2SF y → FOk x ≠ FOk y.
Proof. intros Hne [= ->]. by apply Hne. Qed.


End Binary64Facts.

(** ** Sorting by score *)

Lemma insert_desc_perm {A} (x : A * R) l : insert_desc x l ≡ₚ x :: l.
Proof.
  induction l as [|y l IH]; simpl; [done|].
  destruct (Rlt_dec x.2 y.2); [|done].
  rewrite IH. apply Permutation_swap.
Qed.

Lemma sort_desc_perm {A} (l : list (A * R)) : sort_desc l ≡ₚ l.
Proof.
  induction l as [|x l IH]; simpl; [done|].
  by rewrite insert_desc_perm, IH.
Qed.

Lemma insert_desc_hd {A} (a x : A * R) l :
  score_desc a x → HdRel score_desc a l → HdRel score_desc a (insert_desc x l).
Proof.
  intros Hax Hal. destruct l as [|y l]; simpl.
  - by constructor.
  - destruct (Rlt_dec x.2 y.2); constructor; [|done].
    by apply HdRel_inv in Hal.
Qed.

Lemma insert_desc_sorted {A} (x : A * R) l :
  Sorted score_desc l → Sorted score_desc (insert_desc x l).
Proof.
  induction 1 as [|y l Hl IH Hy]; simpl.
  - by repeat constructor.
  - destruct (Rlt_dec x.2 y.2) as [Hlt|Hge].
    + constructor; [done|]. apply insert_desc_hd; [|done].
      unfold score_desc. lra.
    + constructor; [by constructor|]. constructor. unfold score_desc. lra.
Qed.

Lemma sort_desc_sorted {A} (l : list (A * R)) : Sorted score_desc (sort_desc l).
Proof.
  induction l as [|x l IH]; simpl; [constructor|].
  by apply insert_desc_sorted.
Qed.

(** ** Vectors built in a loop *)

Lemma foldl_insert_other {V} (h : string → Z → V) (l : list (string * Z))
    (acc : gmap string V) k :
  k ∉ l.*1 →
  foldl (λ v wc, <[wc.1 := h wc.1 wc.2]> v) acc l !! k = acc !! k.
Proof.
  revert acc. induction l as [|[w c] l IH]; intros acc Hk; simpl; [done|].
  rewrite fmap_cons, not_elem_of_cons in Hk. destruct Hk as [Hne Hk].
  rewrite IH by done. by rewrite lookup_insert_ne.
Qed.

Lemma foldl_insert_stored {V} (h : string → Z → V) (l : list (string * Z))
    (acc : gmap string V) k c :
  NoDup l.*1 → (k, c) ∈ l →
  foldl (λ v wc, <[wc.1 := h wc.1 wc.2]> v) acc l !! k = Some (h k c).
Proof.
  revert acc. induction l as [|[w c'] l IH]; intros acc Hnd Hin; [by inversion Hin|].
  rewrite fmap_cons in Hnd. apply NoDup_cons in Hnd as [Hw Hnd].
  apply elem_of_cons in Hin as [[= -> ->]|Hin]; simpl.
  - rewrite foldl_insert_other by done. by rewrite lookup_insert_eq.
  - by apply IH.
Qed.

Lemma foldl_insert_items {V} (h : string → Z → V) (m : gmap string Z) :
  foldl (λ v wc, <[wc.1 := h wc.1 wc.2]> v) ∅ (items m)
  = map_imap (λ w c, Some (h w c)) m.
Proof.
  apply map_eq. intros k. rewrite map_lookup_imap. unfold items.
  destruct (m !! k) as [c|] eqn:Hk; simpl.
  - apply foldl_insert_stored; [apply NoDup_fst_map_to_list|].
    by apply elem_of_map_to_list.
  - rewrite foldl_insert_other; [done|].
    intros Hin. apply (elem_of_keys m k) in Hin as [? ?]. congruence.
Qed.

Lemma Counter_split_empty : Counter (split "") = ∅.
Proof. done. Qed.

Lemma similarity_empty_l v : similarity ∅ v = 0%R.
Proof.
  unfold similarity. rewrite cosine_unfold, decide_True; [done|].
  rewrite dom_empty_L. apply (left_absorb_L ∅ (∩)).
Qed.

Lemma scored_documents_no_query pre s q :
  query_vector pre s q = ∅ → scored_documents pre s q = [].
Proof.
  intros Hq. unfold scored_documents. rewrite Hq.
  induction (keys (forward_index s)) as [|d l IH]; [done|].
  rewrite fmap_cons, filter_cons_False; [done|].
  simpl. rewrite similarity_empty_l. lra.
Qed.

Lemma scored_documents_no_corpus pre s q :
  forward_index s = ∅ → scored_documents pre s q = [].
Proof. intros Hf. unfold scored_documents, keys. by rewrite Hf, map_to_list_empty. Qed.

Lemma slice_to_nil {A} k : slice_to k (@nil A) = [].
Proof. unfold slice_to. case_decide; apply take_nil. Qed.

Lemma slice_sort_nil k : slice_to k (sort_desc (@nil (string * R))) = [].
Proof. apply slice_to_nil. Qed.

Lemma foldl_keep_positive (sim : string → R) l acc :
  foldl (λ (sims : list (string * R)) d,
           if Rlt_dec 0 (sim d) then sims ++ [(d, sim d)] else sims)%list acc l
  = (acc ++ filter (λ p, (0 < p.2)%R) ((λ d, (d, sim d)) <$> l))%list.
Proof.
  revert acc. induction l as [|d l IH]; intros acc; simpl.
  - by rewrite filter_nil, app_nil_r.
  - rewrite IH, filter_cons. simpl. unfold decide, Rlt_decision.
    destruct (Rlt_dec 0 (sim d)); [|done]. by rewrite <- app_assoc.
Qed.

Section SearchValue.

Variable preprocess_text : string → string.
Hypothesis preprocess_blank : ∀ q, strip q = "" → preprocess_text q = "".

Variable s0 : DocumentIndex.
Hypothesis s0_wf : wf s0.
Hypothesis s0_lengths : lengths_positive s0.

Lemma calculate_tf_idf_value w d :
  reads s0 (calculate_tf_idf w d)
        (λ r, r = Ok (term_frequency s0 w d * idf_from_scratch s0 w)%R).
Proof.
  unfold calculate_tf_idf.
  eapply reads_bind;
    [apply (reads_pure _ _ (λ r, r = Ok (term_frequency s0 w d))) | | done].
  { intros s [Hs _]. rewrite (calculate_tf_same s0) by done.
    by apply calculate_tf_value. }
  intros tf [= ->]. eapply reads_bind; [by apply calculate_idf_value | | done].
  intros idf [= ->]. by apply reads_ret.
Qed.

Lemma get_document_vector_value d :
  reads s0 (get_document_vector d) (λ r, r = Ok (document_vector s0 d)).
Proof.
  intros s Hs. unfold get_document_vector, document_vector.
  pose proof Hs as [(_ & -> & _) _].
  destruct (forward_index s0 !! d) as [entry|]; [|by exists (Ok ∅), s].
  revert s Hs. eapply reads_weaken;
    [|apply (reads_for_each_value _ _
        (λ acc w, <[w := (term_frequency s0 w d * idf_from_scratch s0 w)%R]> acc))].
  - intros r ->. f_equal. unfold keys. rewrite foldl_fmap.
    apply (foldl_insert_items
             (λ w _, (term_frequency s0 w d * idf_from_scratch s0 w)%R)).
  - intros w acc. eapply reads_bind; [apply calculate_tf_idf_value | | done].
    intros x [= ->]. by apply reads_ret.
Qed.

Lemma get_query_vector_value q :
  reads s0 (get_query_vector preprocess_text q)
        (λ r, r = Ok (query_vector preprocess_text s0 q)).
Proof.
  unfold get_query_vector, query_vector. case_decide as He.
  { apply reads_ret. rewrite He. by rewrite Counter_split_empty, map_imap_empty. }
  eapply reads_weaken;
    [|apply (reads_for_each_value _ _
        (λ acc wc, <[wc.1 := (IZR wc.2 * idf_from_scratch s0 wc.1)%R]> acc))].
  - intros r ->. f_equal.
    apply (foldl_insert_items (λ w c, (IZR c * idf_from_scratch s0 w)%R)).
  - intros [w c] acc. eapply reads_bind; [by apply calculate_idf_value | | done].
    intros x [= ->]. by apply reads_ret.
Qed.

Lemma search_value q k :
  reads s0 (search preprocess_text q k)
        (λ r, r = Ok (slice_to k (sort_desc (scored_documents preprocess_text s0 q)))).
Proof.
  intros s Hs. unfold search.
  destruct (decide (q = "")) as [->|Hq].
  { exists (Ok []), s. split; [done|]. split; [done|].
    rewrite scored_documents_no_query; [by rewrite slice_sort_nil|].
    unfold query_vector. rewrite preprocess_blank by done.
    by rewrite Counter_split_empty, map_imap_empty. }
  destruct (decide (total_documents s = 0)) as [Ht|Ht].
  { exists (Ok []), s. split; [done|]. split; [done|].
    rewrite scored_documents_no_corpus; [by rewrite slice_sort_nil|].
    destruct Hs as [(_ & _ & Htot & _) _]. rewrite Htot, (wf_total _ s0_wf) in Ht.
    apply map_size_empty_iff. lia. }
  clear Ht. revert s Hs.
  eapply reads_bind; [apply get_query_vector_value | | done].
  intros qv [= ->]. case_decide as Hqv.
  { apply reads_ret. rewrite scored_documents_no_query by done.
    by rewrite slice_sort_nil. }
  eapply reads_bind with
    (Q1 := λ r, r = Ok (scored_documents preprocess_text s0 q)); [| | done].
  2: { intros sims [= ->]. by apply reads_ret. }
  intros s Hs. pose proof Hs as [(_ & -> & _) _]. revert s Hs.
  eapply reads_weaken;
    [|apply (reads_for_each_value _ _
        (λ (sims : list (string * R)) d,
           if Rlt_dec 0 (similarity (query_vector preprocess_text s0 q)
                                    (document_vector s0 d))
           then sims ++ [(d, similarity (query_vector preprocess_text s0 q)
                                        (document_vector s0 d))]
           else sims)%list)].
  - intros r ->. f_equal.
    apply (foldl_keep_positive
             (λ d, similarity (query_vector preprocess_text s0 q)
                              (document_vector s0 d))).
  - intros d sims.
    eapply reads_bind; [apply get_document_vector_value | | done].
    intros dv [= ->].
    eapply reads_bind;
      [apply (reads_pure _ (λ _, _)
                (λ r, r = Ok (similarity (query_vector preprocess_text s0 q)
                                         (document_vector s0 d)))) | | done].
    { intros. apply similarity_eq. }
    intros sim [= ->]. destruct (Rlt_dec 0 _); by apply reads_ret.
Qed.

End SearchValue.

(** ** Stored document lengths *)

Lemma foldl_Zadd (a : Z) l : foldl Z.add a l = a + sum_int l.
Proof.
  unfold sum_int. revert a. induction l as [|x l IH]; intros a; simpl; [lia|].
  rewrite (IH (a + x)), (IH (0 + x)). lia.
Qed.

Lemma sum_int_cons x l : sum_int (x :: l) = x + sum_int l.
Proof. unfold sum_int at 1. simpl. rewrite foldl_Zadd. lia. Qed.

Lemma sum_int_perm l1 l2 : l1 ≡ₚ l2 → sum_int l1 = sum_int l2.
Proof.
  induction 1 as [|x l1 l2 _ IH|x y l|l1 l2 l3 _ IH1 _ IH2].
  - done.
  - rewrite !sum_int_cons. lia.
  - rewrite !sum_int_cons. lia.
  - congruence.
Qed.

Lemma sum_values_insert_fresh (m : gmap string Z) w c :
  m !! w = None → sum_int (values (<[w := c]> m)) = c + sum_int (values m).
Proof.
  intros Hw. unfold values.
  rewrite (sum_int_perm _ (c :: (map_to_list m).*2)).
  - apply sum_int_cons.
  - by rewrite (map_to_list_insert m w c Hw).
Qed.

Lemma sum_values_insert (m : gmap string Z) w c :
  sum_int (values (<[w := c]> m)) = c + sum_int (values m) - default 0 (m !! w).
Proof.
  destruct (m !! w) as [c0|] eqn:Hw; simpl.
  - rewrite <- insert_delete_eq.
    rewrite sum_values_insert_fresh by apply lookup_delete_eq.
    unfold values at 2.
    rewrite <- (sum_int_perm _ _ (fmap_Permutation snd _ _ (map_to_list_delete m w c0 Hw))).
    rewrite fmap_cons, sum_int_cons. simpl. unfold values. lia.
  - rewrite sum_values_insert_fresh by done. lia.
Qed.

Lemma Counter_sum words :
  sum_int (values (Counter words)) = Z.of_nat (length words).
Proof.
  unfold Counter.
  assert (∀ m : gmap string Z,
            sum_int (values (foldl (λ m w, <[w := default 0 (m !! w) + 1]> m) m words))
            = sum_int (values m) + Z.of_nat (length words)) as Hgen.
  { induction words as [|w ws IH]; intros m; simpl; [lia|].
    rewrite IH, sum_values_insert. lia. }
  rewrite Hgen. unfold values. rewrite map_to_list_empty. simpl.
  unfold sum_int. simpl. lia.
Qed.

Lemma index_words_forward_other id l s d :
  d ≠ id → forward_index (foldl (index_word id) s l) !! d = forward_index s !! d.
Proof.
  intros Hd. revert s. induction l as [|[w c] l IH]; intros s; cbn [foldl]; [done|].
  rewrite IH, index_word_forward. by rewrite lookup_insert_ne.
Qed.

Lemma lengths_positive_same s s' :
  same_index s s' → lengths_positive s → lengths_positive s'.
Proof. intros (_ & Hf & _ & Hl & _) Hs d m. rewrite Hf, Hl. apply Hs. Qed.

Lemma reads_same {A} s (m : M A) Q : wf s → reads s m Q → same_index s (m s).2.
Proof.
  intros Hs Hm. destruct (Hm s) as (r & s' & -> & [Hs' _] & _); [|done].
  split; [apply same_index_refl | apply Hs].
Qed.

Lemma remove_document_lengths id s :
  lengths_positive s → lengths_positive (remove_document id s).
Proof.
  intros Hs. unfold remove_document.
  destruct (forward_index s !! id) as [entry|] eqn:Hid; [|done].
  intros d m. simpl. destruct (decide (d = id)) as [->|Hd].
  - by rewrite lookup_delete_eq.
  - rewrite !lookup_delete_ne by done. apply Hs.
Qed.

Section Lengths.

Variable preprocess_text : string → string.
Hypothesis preprocess_tokens :
  ∀ text, preprocess_text text ≠ "" → split (preprocess_text text) ≠ [].

Lemma add_document_lengths id text s :
  lengths_positive s → lengths_positive (add_document preprocess_text id text s).
Proof.
  intros Hs. unfold add_document. case_decide as He; [done|].
  intros d m. simpl.
  destruct (index_words_rest id (items (Counter (split (preprocess_text text)))) s)
    as (_ & -> & _).
  destruct (decide (d = id)) as [->|Hd].
  - intros _. rewrite lookup_insert_eq. eexists. split; [done|].
    rewrite Counter_sum. apply preprocess_tokens in He.
    destruct (split (preprocess_text text)); [done | simpl; lia].
  - rewrite index_words_forward_other, lookup_insert_ne by done. apply Hs.
Qed.

Lemma exec_lengths s c :
  wf s → lengths_positive s → lengths_positive (exec preprocess_text s c).
Proof.
  intros Hwf Hs. destruct c; simpl.
  - by apply add_document_lengths.
  - by apply remove_document_lengths.
  - eapply lengths_positive_same; [|done].
    eapply reads_same; [done | by apply calculate_idf_any].
  - eapply lengths_positive_same; [|done].
    eapply reads_same; [done | by apply calculate_tf_idf_any].
  - eapply lengths_positive_same; [|done].
    eapply reads_same; [done | by apply get_document_vector_any].
  - eapply lengths_positive_same; [|done].
    eapply reads_same; [done | by apply get_query_vector_any].
  - eapply lengths_positive_same; [|done].
    eapply reads_same; [done | by apply search_any].
  - eapply lengths_positive_same; [|done].
    eapply reads_same; [done | by apply get_document_keywords_any].
Qed.

Lemma run_lengths cs : lengths_positive (run preprocess_text cs).
Proof.
  unfold run.
  assert (∀ s, wf s → lengths_positive s →
               lengths_positive (foldl (exec preprocess_text) s cs)) as Hgen.
  { induction cs as [|c cs IH]; intros s Hwf Hs; simpl; [done|].
    apply IH; [by apply exec_wf | by apply exec_lengths]. }
  apply Hgen; [apply empty_index_wf|].
  intros d m. simpl. by rewrite lookup_empty.
Qed.

End Lengths.

(** ** The whitespace-only normaliser *)

Lemma split_go_nil cur s : split_go cur s = [] → cur = "" ∧ lstrip s = "".
Proof.
  revert cur. induction s as [|c s IH]; intros cur; simpl.
  - by case_decide.
  - destruct (isspace c).
    + case_decide; [|done]. intros Hs. split; [done|]. by apply IH in Hs as [_ ?].
    + intros [Hc _]%IH. by destruct cur.
Qed.

Lemma keep_text_blank q : strip q = "" → keep_text q = "".
Proof. intros Hq. unfold keep_text. by rewrite decide_True. Qed.

Lemma keep_text_tokens text : keep_text text ≠ "" → split (keep_text text) ≠ [].
Proof.
  unfold keep_text. case_decide as Hs; [done|].
  intros _ [_ Hl]%split_go_nil. apply Hs. unfold strip. by rewrite Hl.
Qed.

(** ** Ranked search on the index *)

Lemma search_returns pre cs q k :
  (∀ q, strip q = "" → pre q = "") →
  (∀ text, pre text ≠ "" → split (pre text) ≠ []) →
  ∃ s', search pre q k (run pre cs)
        = (Ok (slice_to k (sort_desc (scored_documents pre (run pre cs) q))), s')
        ∧ same_index (run pre cs) s'.
Proof.
  intros Hblank Htokens.
  destruct (search_value pre Hblank (run pre cs) (run_wf pre cs)
              (run_lengths pre Htokens cs) q k (run pre cs))
    as (r & s' & Hrun & [Hsame _] & ->).
  - split; [apply same_index_refl | apply run_wf].
  - eauto.
Qed.

Lemma scored_documents_degenerate pre cs q :
  (∀ q, strip q = "" → pre q = "") →
  strip q = "" ∨ forward_index (run pre cs) = ∅ ∨ total_documents (run pre cs) = 0 →
  scored_documents pre (run pre cs) q = [].
Proof.
  intros Hblank [Hq|[Hf|Ht]].
  - apply scored_documents_no_query. unfold query_vector.
    by rewrite Hblank, Counter_split_empty, map_imap_empty.
  - by apply scored_documents_no_corpus.
  - apply scored_documents_no_corpus, map_size_empty_iff.
    rewrite (wf_total _ (run_wf pre cs)) in Ht. lia.
Qed.

(** C5. On every reachable index, with a normaliser that maps blank text
    to the empty string and otherwise returns text with at least one
    token, and with [top_k >= 0]: [search] returns the first [top_k]
    entries of a list that is sorted by score, greatest first, and holds
    exactly the indexed documents whose similarity to the query vector is
    greater than 0, each with that similarity; it returns the empty list
    for an empty or blank query and for an empty corpus. *)
Theorem index_search_ranked (preprocess_text : string → string)
    (cs : list call) (query : string) (top_k : Z) :
  (∀ q, strip q = "" → preprocess_text q = "") →
  (∀ text, preprocess_text text ≠ "" → split (preprocess_text text) ≠ []) →
  0 ≤ top_k →
  let s := run preprocess_text cs in
  (∃ ranked,
     (search preprocess_text query top_k s).1 = Ok (take (Z.to_nat top_k) ranked) ∧
     ranked ≡ₚ scored_documents preprocess_text s query ∧
     Sorted score_desc ranked) ∧
  (strip query = "" ∨ forward_index s = ∅ ∨ total_documents s = 0 →
     (search preprocess_text query top_k s).1 = Ok []).
Proof.
  intros Hblank Htokens Hk s.
  destruct (search_returns preprocess_text cs query top_k Hblank Htokens)
    as (s' & Hrun & _).
  fold s in Hrun. rewrite Hrun. simpl. split.
  - exists (sort_desc (scored_documents preprocess_text s query)).
    split; [|split].
    + unfold slice_to. by rewrite decide_True.
    + apply sort_desc_perm.
    + apply sort_desc_sorted.
  - intros Hd. subst s. rewrite scored_documents_degenerate by done.
    by rewrite slice_sort_nil.
Qed.

Lemma index_search_ranked_witness :
  let s := run keep_text
             [AddDocument "d1" "cat dog cat"; AddDocument "d2" "dog bird"] in
  (∃ ranked,
     (search keep_text "cat" 10 s).1 = Ok (take (Z.to_nat 10) ranked) ∧
     ranked ≡ₚ scored_documents keep_text s "cat" ∧
     Sorted score_desc ranked) ∧
  (strip "cat" = "" ∨ forward_index s = ∅ ∨ total_documents s = 0 →
     (search keep_text "cat" 10 s).1 = Ok []).
Proof.
  apply (index_search_ranked keep_text
           [AddDocument "d1" "cat dog cat"; AddDocument "d2" "dog bird"] "cat" 10).
  - apply keep_text_blank.
  - apply keep_text_tokens.
  - lia.
Defined.

(** ** Search through the engine *)

Lemma Sorted_take {A} (R : A → A → Prop) n l : Sorted R l → Sorted R (take n l).
Proof.
  intros Hl. revert n. induction Hl as [|x l Hl IH Hx]; intros [|n]; simpl;
    try constructor.
  - apply IH.
  - destruct Hx as [|y l' Hxy]; [destruct n; constructor|].
    destruct n; simpl; by constructor.
Qed.

Lemma omap_resolve_cons dm kw ms id sc hits :
  omap (resolve_hit dm kw ms) ((id, sc) :: hits)
  = match (if Rlt_dec sc ms then None
           else match DocumentManager_get_document id dm with
                | None => None
                | Some doc =>
                    Some (mkResult doc sc
                            (find_matched_keywords (processed_content doc) kw))
                end) with
    | Some r => r :: omap (resolve_hit dm kw ms) hits
    | None => omap (resolve_hit dm kw ms) hits
    end.
Proof. done. Qed.

Lemma search_loop_take dm kw k ms hits results :
  Z.of_nat (length results) < k →
  search_loop dm kw k ms hits results
  = take (Z.to_nat k) (results ++ omap (resolve_hit dm kw ms) hits).
Proof.
  revert results. induction hits as [|[id sc] hits IH]; intros results Hlen.
  - simpl. rewrite app_nil_r, take_ge; [done | lia].
  - rewrite omap_resolve_cons. cbn [search_loop].
    destruct (Rlt_dec sc ms); [by apply IH|].
    destruct (DocumentManager_get_document id dm) as [doc|]; [|by apply IH].
    set (r := mkResult doc sc _). set (rest := omap _ hits).
    replace (results ++ r :: rest)%list with ((results ++ [r]) ++ rest)%list
      by (by rewrite <- app_assoc).
    case_decide as Hfull.
    + rewrite length_app in Hfull. simpl in Hfull.
      rewrite take_app_le by (rewrite length_app; simpl; lia).
      rewrite take_ge; [done | rewrite length_app; simpl; lia].
    + apply IH. lia.
Qed.

(** C6. On every engine whose index is reachable, with the normaliser
    and [top_k] as in C5: a blank query gives the empty list and leaves
    the engine as it was; otherwise the engine asks the index for
    [top_k * 2] hits, which come sorted by score, turns each hit into a
    result unless its score is below [min_score] or the store has no
    record for it, keeps the hits' order, and returns the first [top_k]
    results; the list returned never has more than [top_k] entries. *)
Theorem engine_search_bounded (preprocess_text : string → string)
    (cs : list call) (dm : DocumentManager)
    (query : string) (top_k : Z) (min_score : R) :
  (∀ q, strip q = "" → preprocess_text q = "") →
  (∀ text, preprocess_text text ≠ "" → split (preprocess_text text) ≠ []) →
  0 ≤ top_k →
  let e := mkEngine dm (run preprocess_text cs) in
  let out := SearchEngine_search preprocess_text query top_k min_score e in
  (strip query = "" → out = (Ok [], e)) ∧
  (strip query ≠ "" →
     ∃ hits idx,
       search preprocess_text query (top_k * 2) (index e) = (Ok hits, idx) ∧
       Sorted score_desc hits ∧
       out = (Ok (take (Z.to_nat top_k)
                    (omap (resolve_hit dm (query_keywords_of preprocess_text query)
                                       min_score) hits)),
              mkEngine dm idx)) ∧
  (∃ results, out.1 = Ok results ∧ Z.of_nat (length results) ≤ top_k).
Proof.
  intros Hblank Htokens Hk e out.
  assert (strip query ≠ "" →
     ∃ hits idx,
       search preprocess_text query (top_k * 2) (index e) = (Ok hits, idx) ∧
       Sorted score_desc hits ∧
       out = (Ok (take (Z.to_nat top_k)
                    (omap (resolve_hit dm (query_keywords_of preprocess_text query)
                                       min_score) hits)),
              mkEngine dm idx)) as Hmain.
  { intros Hq.
    destruct (search_returns preprocess_text cs query (top_k * 2) Hblank Htokens)
      as (idx & Hrun & _).
    eexists _, idx. split; [exact Hrun|]. split.
    { unfold slice_to. rewrite decide_True by lia.
      apply Sorted_take, sort_desc_sorted. }
    subst out. unfold SearchEngine_search. rewrite decide_False by done.
    subst e. cbn [index document_manager]. rewrite Hrun. f_equal. f_equal.
    fold (query_keywords_of preprocess_text query).
    destruct (decide (top_k = 0)) as [->|Hpos].
    - unfold slice_to. by rewrite decide_True.
    - rewrite search_loop_take by (simpl; lia). done. }
  split; [|split; [done|]].
  - intros Hq. subst out. unfold SearchEngine_search. by rewrite decide_True.
  - destruct (decide (strip query = "")) as [Hq|Hq].
    + exists []. subst out. unfold SearchEngine_search. rewrite decide_True by done.
      simpl. split; [done | lia].
    + destruct (Hmain Hq) as (hits & idx & _ & _ & ->). eexists. split; [done|].
      rewrite length_take. lia.
Qed.

Lemma engine_search_bounded_witness :
  let cs := [AddDocument "d1" "cat dog cat"; AddDocument "d2" "dog bird"] in
  let dm := mkManager ∅ in
  let e := mkEngine dm (run keep_text cs) in
  let out := SearchEngine_search keep_text "cat" 3 (1 / 100)%R e in
  (strip "cat" = "" → out = (Ok [], e)) ∧
  (strip "cat" ≠ "" →
     ∃ hits idx,
       search keep_text "cat" (3 * 2) (index e) = (Ok hits, idx) ∧
       Sorted score_desc hits ∧
       out = (Ok (take (Z.to_nat 3)
                    (omap (resolve_hit dm (query_keywords_of keep_text "cat")
                                       (1 / 100)%R) hits)),
              mkEngine dm idx)) ∧
  (∃ results, out.1 = Ok results ∧ Z.of_nat (length results) ≤ 3).
Proof.
  apply (engine_search_bounded keep_text
           [AddDocument "d1" "cat dog cat"; AddDocument "d2" "dog bird"]
           (mkManager ∅) "cat" 3 (1 / 100)%R).
  - apply keep_text_blank.
  - apply keep_text_tokens.
  - lia.
Defined.

(** ** Further properties of reachable indexes *)

Lemma Counter_positive words :
  map_Forall (λ _ c, 0 < c) (Counter words).
Proof.
  unfold Counter.
  assert (∀ m : gmap string Z, map_Forall (λ _ c, 0 < c) m →
            map_Forall (λ _ c, 0 < c)
              (foldl (λ m w, <[w := default 0 (m !! w) + 1]> m) m words)) as Hgen.
  { induction words as [|w ws IH]; intros m Hm; simpl; [done|].
    apply IH, map_Forall_insert_2; [|done].
    destruct (m !! w) as [c|] eqn:Hw; simpl; [|lia].
    specialize (Hm w c Hw). simpl in Hm. lia. }
  apply Hgen, map_Forall_empty.
Qed.

Lemma index_words_counts id l s :
  Forall (λ wc : string * Z, 0 < wc.2) l →
  counts_positive s → counts_positive (foldl (index_word id) s l).
Proof.
  intros Hl. revert s. induction Hl as [|[w c] l Hc _ IH]; intros s Hs; [done|].
  cbn [foldl]. apply IH. intros d t c'.
  rewrite index_word_forward, lookup2_store. case_decide as Hd.
  - intros [= <-]. done.
  - apply Hs.
Qed.

Lemma add_document_counts pre id text s :
  counts_positive s → counts_positive (add_document pre id text s).
Proof.
  intros Hs. unfold add_document. case_decide; [done|].
  intros d t c. simpl. apply index_words_counts; [|done].
  apply Forall_forall. intros [w n] Hin%elem_of_map_to_list.
  by apply (Counter_positive (split (pre text)) w n).
Qed.

Lemma remove_document_counts id s :
  counts_positive s → counts_positive (remove_document id s).
Proof.
  intros Hs. unfold remove_document. destruct (forward_index s !! id); [|done].
  intros d t c. simpl. rewrite lookup2_delete. case_decide; [done|]. apply Hs.
Qed.

Lemma counts_positive_same s s' :
  same_index s s' → counts_positive s → counts_positive s'.
Proof. intros (_ & Hf & _) Hs d t c. rewrite Hf. apply Hs. Qed.

Lemma exec_counts pre s c :
  wf s → counts_positive s → counts_positive (exec pre s c).
Proof.
  intros Hwf Hs. destruct c; simpl.
  - by apply add_document_counts.
  - by apply remove_document_counts.
  - eapply counts_positive_same; [|done].
    eapply reads_same; [done | by apply calculate_idf_any].
  - eapply counts_positive_same; [|done].
    eapply reads_same; [done | by apply calculate_tf_idf_any].
  - eapply counts_positive_same; [|done].
    eapply reads_same; [done | by apply get_document_vector_any].
  - eapply counts_positive_same; [|done].
    eapply reads_same; [done | by apply get_query_vector_any].
  - eapply counts_positive_same; [|done].
    eapply reads_same; [done | by apply search_any].
  - eapply counts_positive_same; [|done].
    eapply reads_same; [done | by apply get_document_keywords_any].
Qed.

Lemma run_counts pre cs : counts_positive (run pre cs).
Proof.
  unfold run.
  assert (∀ s, wf s → counts_positive s →
               counts_positive (foldl (exec pre) s cs)) as Hgen.
  { induction cs as [|c cs IH]; intros s Hwf Hs; simpl; [done|].
    apply IH; [by apply exec_wf | by apply exec_counts]. }
  apply Hgen; [apply empty_index_wf | done].
Qed.

(** X1. On a reachable index (normaliser as in C5), [calculate_tf]
    returns 0 for a term that the document does not hold, and for a term
    it holds with count [c] it returns [c / n] with [n] the stored length
    of the document; [c] and [n] are positive, so the value is. *)
Theorem term_frequency_positive (preprocess_text : string → string)
    (cs : list call) (word id : string) :
  (∀ text, preprocess_text text ≠ "" → split (preprocess_text text) ≠ []) →
  let s := run preprocess_text cs in
  (lookup2 (forward_index s) id word = None → calculate_tf word id s = Ok 0%R) ∧
  (∀ c, lookup2 (forward_index s) id word = Some c →
     ∃ n, document_lengths s !! id = Some n ∧ 0 < c ∧ 0 < n ∧
          calculate_tf word id s = Ok (IZR c / IZR n)%R ∧
          (0 < IZR c / IZR n)%R).
Proof.
  intros Htokens s. split; [apply calculate_tf_absent|].
  intros c Hc.
  pose proof (run_counts preprocess_text cs id word c Hc) as Hpos.
  pose proof Hc as (m & Hm & _)%lookup2_Some.
  destruct (run_lengths preprocess_text Htokens cs id m Hm) as (n & Hn & Hnpos).
  exists n. fold s in Hn. split; [done|]. split; [done|]. split; [done|]. split.
  - rewrite (calculate_tf_present s word id c Hc); rewrite Hn; simpl; [done | lia].
  - apply Rdiv_lt_0_compat; apply IZR_lt; lia.
Qed.

Lemma term_frequency_positive_witness :
  let s := run keep_text
             [AddDocument "d1" "cat dog cat"; AddDocument "d2" "dog bird"] in
  (lookup2 (forward_index s) "d1" "cat" = None →
     calculate_tf "cat" "d1" s = Ok 0%R) ∧
  (∀ c, lookup2 (forward_index s) "d1" "cat" = Some c →
     ∃ n, document_lengths s !! "d1" = Some n ∧ 0 < c ∧ 0 < n ∧
          calculate_tf "cat" "d1" s = Ok (IZR c / IZR n)%R ∧
          (0 < IZR c / IZR n)%R).
Proof.
  apply (term_frequency_positive keep_text
           [AddDocument "d1" "cat dog cat"; AddDocument "d2" "dog bird"]
           "cat" "d1").
  apply keep_text_tokens.
Defined.

(** X2. [total_documents] is the number of keys of [forward_index] on
    every reachable index. *)
Theorem total_documents_is_corpus_size (preprocess_text : string → string)
    (cs : list call) :
  total_documents (run preprocess_text cs)
  = Z.of_nat (size (forward_index (run preprocess_text cs))).
Proof. apply (wf_total _ (run_wf preprocess_text cs)). Qed.

(** ** The two-document scenario *)

Lemma dom_map_imap_total {V} (h : string → Z → V) (m : gmap string Z) :
  dom (map_imap (λ k x, Some (h k x)) m) = dom m.
Proof.
  apply set_eq. intros k. rewrite !elem_of_dom, map_lookup_imap.
  destruct (m !! k); simpl; split; intros [? ?]; eauto; done.
Qed.

Lemma sum_float_positive l x :
  Forall (λ y, (0 <= y)%R) l → x ∈ l → (0 < x)%R → (0 < sum_float l)%R.
Proof.
  induction 1 as [|y l Hy Hl IH]; intros Hin Hx; [by apply elem_of_nil in Hin|].
  rewrite sum_float_cons. pose proof (sum_float_nonneg l Hl).
  apply elem_of_cons in Hin as [<-|Hin]; [lra|].
  specialize (IH Hin Hx). lra.
Qed.

Lemma l2_norm_positive (v : gmap string R) w :
  is_Some (v !! w) → getitem v w ≠ 0%R → (0 < l2_norm v)%R.
Proof.
  intros Hw Hne. unfold l2_norm. apply sqrt_lt_R0.
  apply (sum_float_positive _ (getitem v w ^ 2)%R).
  - apply Forall_fmap, Forall_forall. intros k _. simpl. apply pow2_ge_0.
  - apply list_elem_of_fmap. exists w. split; [done|]. by apply elem_of_keys.
  - assert (0 <= getitem v w ^ 2)%R by apply pow2_ge_0.
    assert (getitem v w ^ 2 ≠ 0)%R; [|lra].
    by apply pow_nonzero.
Qed.

(** Worked example.  The scenario of two documents, [d1] = "cat dog cat" and [d2] =
    "dog bird": the postings of "cat" and "dog"; IDF 0 for "dog" and
    [ln 2] for "cat"; a search for "cat" returns [d1] alone, with a
    positive score; after [d1] is removed "cat" has left the index and
    "dog" lists [d2] only. *)
Theorem scenario_two_documents :
  let s := run keep_text
             [AddDocument "d1" "cat dog cat"; AddDocument "d2" "dog bird"] in
  let s' := remove_document "d1" s in
  inverted_index s !! "cat" = Some {["d1" := 2]} ∧
  inverted_index s !! "dog" = Some (list_to_map [("d1", 1); ("d2", 1)]) ∧
  (calculate_idf "dog" s).1 = Ok 0%R ∧
  (calculate_idf "cat" s).1 = Ok (ln 2) ∧
  (∃ r, (search keep_text "cat" 10 s).1 = Ok [("d1", r)] ∧ (0 < r)%R) ∧
  inverted_index s' !! "cat" = None ∧
  inverted_index s' !! "dog" = Some {["d2" := 1]}.
Proof.
  intros s s'.
  assert (inverted_index s !! "cat" = Some {["d1" := 2]}) as Hcat
    by (vm_compute; reflexivity).
  assert (inverted_index s !! "dog" = Some (list_to_map [("d1", 1); ("d2", 1)]))
    as Hdog by (vm_compute; reflexivity).
  assert (total_documents s = 2) as Htot by (vm_compute; reflexivity).
  assert (forward_index s !! "d1" = Some (list_to_map [("cat", 2); ("dog", 1)]))
    as Hf1 by (vm_compute; reflexivity).
  assert (forward_index s !! "d2" = Some (list_to_map [("bird", 1); ("dog", 1)]))
    as Hf2 by (vm_compute; reflexivity).
  assert (document_lengths s !! "d1" = Some 3) as Hl1 by (vm_compute; reflexivity).
  assert (keys (forward_index s) = ["d1"; "d2"]) as Hkeys
    by (vm_compute; reflexivity).
  assert (inverted_index s' !! "cat" = None) as Hcat'
    by (vm_compute; reflexivity).
  assert (inverted_index s' !! "dog" = Some {["d2" := 1]}) as Hdog'
    by (vm_compute; reflexivity).
  assert (wf s) as Hwf by apply run_wf.
  assert (∃ s1, search keep_text "cat" 10 s
                = (Ok (slice_to 10 (sort_desc (scored_documents keep_text s "cat"))),
                   s1)) as [s1 Hrun].
  { destruct (search_returns keep_text
                [AddDocument "d1" "cat dog cat"; AddDocument "d2" "dog bird"]
                "cat" 10 keep_text_blank keep_text_tokens) as (s1 & Hrun & _).
    by exists s1. }
  clearbody s s'.
  assert (idf_from_scratch s "cat" = ln 2) as Hidf_cat.
  { unfold idf_from_scratch. rewrite Hcat, Htot, map_size_singleton.
    change (Z.of_nat 1) with 1. f_equal. lra. }
  assert (idf_from_scratch s "dog" = 0%R) as Hidf_dog.
  { unfold idf_from_scratch. rewrite Hdog, Htot.
    replace (size (list_to_map [("d1", 1); ("d2", 1)] : gmap string Z)) with 2%nat
      by (vm_compute; reflexivity).
    change (Z.of_nat 2) with 2. replace (2 / 2)%R with 1%R by lra. apply ln_1. }
  assert (0 < ln 2)%R as Hln2.
  { rewrite <- ln_1. apply ln_increasing; lra. }
  assert (∀ w, (calculate_idf w s).1 = Ok (idf_from_scratch s w)) as Hidf.
  { intros w.
    destruct (calculate_idf_value s w Hwf s) as (r & s2 & -> & _ & ->); [|done].
    split; [apply same_index_refl | apply Hwf]. }
  split; [done|]. split; [done|].
  split; [by rewrite Hidf, Hidf_dog|]. split; [by rewrite Hidf, Hidf_cat|].
  split; [|by split].
  rewrite Hrun. cbn [fst]. clear Hrun s1.
  assert (Counter (split (keep_text "cat")) = {["cat" := 1]}) as Hq
    by (vm_compute; reflexivity).
  set (qv := query_vector keep_text s "cat").
  assert (dom qv = {["cat"]}) as Hdq.
  { subst qv. unfold query_vector.
    rewrite (dom_map_imap_total (λ w c, (IZR c * idf_from_scratch s w)%R)), Hq.
    apply dom_singleton_L. }
  assert (getitem qv "cat" = (1 * ln 2)%R) as Hqcat.
  { subst qv. unfold getitem, query_vector.
    rewrite map_lookup_imap, Hq, lookup_singleton_eq. simpl. by rewrite Hidf_cat. }
  assert (dom (document_vector s "d1")
          = dom (list_to_map [("cat", 2); ("dog", 1)] : gmap string Z)) as Hd1.
  { unfold document_vector. rewrite Hf1.
    apply (dom_map_imap_total
             (λ w _, (term_frequency s w "d1" * idf_from_scratch s w)%R)). }
  assert (dom (document_vector s "d2")
          = dom (list_to_map [("bird", 1); ("dog", 1)] : gmap string Z)) as Hd2.
  { unfold document_vector. rewrite Hf2.
    apply (dom_map_imap_total
             (λ w _, (term_frequency s w "d2" * idf_from_scratch s w)%R)). }
  assert (document_vector s "d1" !! "cat" = Some (2 / 3 * ln 2)%R) as Hv1.
  { unfold document_vector. rewrite Hf1, map_lookup_imap.
    replace ((list_to_map [("cat", 2); ("dog", 1)] : gmap string Z) !! "cat")
      with (Some 2) by (vm_compute; reflexivity).
    simpl. unfold term_frequency. rewrite Hf1.
    replace ((list_to_map [("cat", 2); ("dog", 1)] : gmap string Z) !! "cat")
      with (Some 2) by (vm_compute; reflexivity).
    by rewrite Hl1, Hidf_cat. }
  assert (similarity qv (document_vector s "d2") = 0%R) as Hs2.
  { unfold similarity. rewrite cosine_unfold, decide_True; [done|].
    rewrite Hdq, Hd2. vm_compute. reflexivity. }
  assert (0 < similarity qv (document_vector s "d1"))%R as Hs1.
  { unfold similarity. rewrite cosine_unfold.
    assert (elements (dom qv ∩ dom (document_vector s "d1")) = ["cat"]) as He.
    { rewrite Hdq, Hd1. vm_compute. reflexivity. }
    rewrite decide_False.
    2: { intros Hemp. rewrite Hemp, elements_empty in He. discriminate He. }
    assert (0 < l2_norm qv)%R as Hn1.
    { apply (l2_norm_positive qv "cat").
      - apply elem_of_dom. rewrite Hdq. by apply elem_of_singleton.
      - rewrite Hqcat. lra. }
    assert (0 < l2_norm (document_vector s "d1"))%R as Hn2.
    { apply (l2_norm_positive _ "cat"); [by rewrite Hv1|].
      unfold getitem. rewrite Hv1. simpl. lra. }
    destruct (Req_dec_T (l2_norm qv) 0); [lra|].
    destruct (Req_dec_T (l2_norm (document_vector s "d1")) 0); [lra|].
    rewrite He. simpl. rewrite sum_float_cons. unfold sum_float. simpl.
    rewrite Hqcat. unfold getitem at 1. rewrite Hv1. simpl.
    apply Rdiv_lt_0_compat; [nra | by apply Rmult_lt_0_compat]. }
  exists (similarity qv (document_vector s "d1")). split; [|done].
  unfold scored_documents. fold qv.
  rewrite Hkeys, !fmap_cons, fmap_nil.
  rewrite filter_cons_True by done.
  rewrite filter_cons_False by (simpl; rewrite Hs2; lra).
  rewrite filter_nil. simpl. unfold slice_to. by rewrite decide_True.
Qed.

(** Worked example.  The [min_score] scenario on the loop of [SearchEngine.search]: a
    single hit with score 0.02 for a stored document is dropped with
    [min_score = 0.05] and kept, as the only result, with
    [min_score = 0.01]. *)
Theorem min_score_scenario (dm : DocumentManager) (doc : Document)
    (query_keywords : list string) :
  DocumentManager_get_document "d1" dm = Some doc →
  search_loop dm query_keywords 10 (5 / 100)%R [("d1", (2 / 100)%R)] [] = [] ∧
  search_loop dm query_keywords 10 (1 / 100)%R [("d1", (2 / 100)%R)] []
  = [mkResult doc (2 / 100)%R
       (find_matched_keywords (processed_content doc) query_keywords)].
Proof.
  intros Hdoc. simpl. rewrite Hdoc.
  destruct (Rlt_dec (2 / 100) (5 / 100)) as [_|Hn]; [|lra].
  destruct (Rlt_dec (2 / 100) (1 / 100)) as [Hlt|_]; [lra|].
  done.
Qed.

Lemma min_score_scenario_witness :
  search_loop (mkManager {["d1" := mkDocument "d1" "Pets" "cat dog cat" None [] "" "cat dog cat"]})
    ["cat"] 10 (5 / 100)%R [("d1", (2 / 100)%R)] [] = [] ∧
  search_loop (mkManager {["d1" := mkDocument "d1" "Pets" "cat dog cat" None [] "" "cat dog cat"]})
    ["cat"] 10 (1 / 100)%R [("d1", (2 / 100)%R)] []
  = [mkResult (mkDocument "d1" "Pets" "cat dog cat" None [] "" "cat dog cat")
       (2 / 100)%R
       (find_matched_keywords
          (processed_content
             (mkDocument "d1" "Pets" "cat dog cat" None [] "" "cat dog cat"))
          ["cat"])].
Proof.
  apply (min_score_scenario
           (mkManager {["d1" := mkDocument "d1" "Pets" "cat dog cat" None [] ""
                                  "cat dog cat"]})).
  apply lookup_singleton_eq.
Defined.

(** ** Invariants of the index parts *)

Lemma run_invariant pre (P : DocumentIndex → Prop) cs :
  P empty_index →
  (∀ s s', same_index s s' → P s → P s') →
  (∀ s id text, wf s → P s → P (add_document pre id text s)) →
  (∀ s id, wf s → P s → P (remove_document id s)) →
  P (run pre cs).
Proof.
  intros Hempty Hsame Hadd Hrem. unfold run.
  assert (∀ s c, wf s → P s → P (exec pre s c)) as Hexec.
  { intros s c Hwf Hs. destruct c; simpl; [by apply Hadd | by apply Hrem | ..];
      (eapply Hsame; [|exact Hs]); (eapply reads_same; [done|]).
    - by apply calculate_idf_any.
    - by apply calculate_tf_idf_any.
    - by apply get_document_vector_any.
    - by apply get_query_vector_any.
    - by apply search_any.
    - by apply get_document_keywords_any. }
  assert (∀ s, wf s → P s → P (foldl (exec pre) s cs)) as Hgen.
  { induction cs as [|c cs IH]; intros s Hwf Hs; simpl; [done|].
    apply IH; [by apply exec_wf | by apply Hexec]. }
  apply Hgen; [apply empty_index_wf | done].
Qed.

(** ** What a search returns *)

Lemma slice_to_sublist {A} k (l : list A) : slice_to k l `sublist_of` l.
Proof. unfold slice_to. case_decide; apply sublist_take. Qed.

Lemma slice_to_sorted {A} (R : A → A → Prop) k l :
  Sorted R l → Sorted R (slice_to k l).
Proof. intros Hl. unfold slice_to. case_decide; by apply Sorted_take. Qed.

Lemma scored_documents_ids pre s q :
  (scored_documents pre s q).*1 `sublist_of` keys (forward_index s).
Proof.
  unfold scored_documents.
  set (f := λ id, (id, similarity (query_vector pre s q) (document_vector s id))).
  transitivity ((f <$> keys (forward_index s)).*1).
  - apply fmap_sublist, sublist_filter.
  - assert (∀ l : list string, (f <$> l).*1 = l) as ->; [|done].
    induction l as [|x l IH]; [done|]. rewrite !fmap_cons, IH. done.
Qed.

Lemma scored_documents_elem pre s q d sc :
  (d, sc) ∈ scored_documents pre s q →
  is_Some (forward_index s !! d) ∧
  sc = similarity (query_vector pre s q) (document_vector s d) ∧
  (0 < sc)%R.
Proof.
  unfold scored_documents.
  intros [Hpos (d' & [= -> ->] & Hin)%list_elem_of_fmap]%list_elem_of_filter.
  split; [by apply elem_of_keys|]. done.
Qed.

Section SearchFacts.

Variable preprocess_text : string → string.
Hypothesis preprocess_blank : ∀ q, strip q = "" → preprocess_text q = "".
Hypothesis preprocess_tokens :
  ∀ text, preprocess_text text ≠ "" → split (preprocess_text text) ≠ [].

Lemma search_on_stable cs q k s' :
  stable (run preprocess_text cs) s' →
  ∃ s'', search preprocess_text q k s'
         = (Ok (slice_to k (sort_desc
                  (scored_documents preprocess_text (run preprocess_text cs) q))),
            s'')
         ∧ stable (run preprocess_text cs) s''.
Proof.
  intros Hs'.
  destruct (search_value preprocess_text preprocess_blank
              (run preprocess_text cs) (run_wf preprocess_text cs)
              (run_lengths preprocess_text preprocess_tokens cs) q k s' Hs')
    as (r & s'' & Hrun & Hst & ->).
  eauto.
Qed.

Lemma run_stable cs : stable (run preprocess_text cs) (run preprocess_text cs).
Proof. split; [apply same_index_refl | apply run_wf]. Qed.

End SearchFacts.

(** X5. On every reachable index (normaliser as in C5) and for every
    [top_k], negative ones included, [search] returns without raising and
    leaves the index as it was outside the IDF cache; no document occurs
    twice in the result; every entry names an indexed document and
    carries its similarity to the query vector, which is greater than
    0; the entries are sorted by score, greatest first. *)
Theorem search_hits_sound (preprocess_text : string → string)
    (cs : list call) (query : string) (top_k : Z) :
  (∀ q, strip q = "" → preprocess_text q = "") →
  (∀ text, preprocess_text text ≠ "" → split (preprocess_text text) ≠ []) →
  let s := run preprocess_text cs in
  ∃ hits s',
    search preprocess_text query top_k s = (Ok hits, s') ∧
    same_index s s' ∧
    NoDup hits.*1 ∧
    Sorted score_desc hits ∧
    ∀ d sc, (d, sc) ∈ hits →
      is_Some (forward_index s !! d) ∧
      sc = similarity (query_vector preprocess_text s query) (document_vector s d) ∧
      (0 < sc)%R.
Proof.
  intros Hblank Htokens s.
  destruct (search_on_stable preprocess_text Hblank Htokens cs query top_k s
              (run_stable preprocess_text cs)) as (s' & Hrun & [Hsame _]).
  fold s in Hrun, Hsame.
  eexists _, s'. split; [exact Hrun|]. split; [done|].
  set (scored := scored_documents preprocess_text s query).
  assert (slice_to top_k (sort_desc scored) `sublist_of` sort_desc scored) as Hsub
    by apply slice_to_sublist.
  split; [|split].
  - eapply sublist_NoDup; [|by apply fmap_sublist].
    rewrite (sort_desc_perm scored).
    eapply sublist_NoDup; [|apply scored_documents_ids]. apply NoDup_keys.
  - apply slice_to_sorted, sort_desc_sorted.
  - intros d sc Hin.
    assert ((d, sc) ∈ scored) as Hsc.
    { rewrite <- (sort_desc_perm scored). by eapply elem_of_sublist. }
    apply scored_documents_elem in Hsc as (Hd & -> & Hpos). done.
Qed.

Lemma search_hits_sound_witness :
  let s := run keep_text
             [AddDocument "d1" "cat dog cat"; AddDocument "d2" "dog bird"] in
  ∃ hits s',
    search keep_text "cat" (-1) s = (Ok hits, s') ∧
    same_index s s' ∧
    NoDup hits.*1 ∧
    Sorted score_desc hits ∧
    ∀ d sc, (d, sc) ∈ hits →
      is_Some (forward_index s !! d) ∧
      sc = similarity (query_vector keep_text s "cat") (document_vector s d) ∧
      (0 < sc)%R.
Proof.
  apply (search_hits_sound keep_text
           [AddDocument "d1" "cat dog cat"; AddDocument "d2" "dog bird"]
           "cat" (-1)).
  - apply keep_text_blank.
  - apply keep_text_tokens.
Defined.

(** X6. The IDF cache does not change what a search returns: on every
    reachable index (normaliser as in C5) the same query gives the same
    hits when the cache is emptied first and when the search is repeated
    on the cache the first search has filled. *)
Theorem search_ignores_cache (preprocess_text : string → string)
    (cs : list call) (query : string) (top_k : Z) :
  (∀ q, strip q = "" → preprocess_text q = "") →
  (∀ text, preprocess_text text ≠ "" → split (preprocess_text text) ≠ []) →
  let s := run preprocess_text cs in
  (search preprocess_text query top_k (clear_cache s)).1
  = (search preprocess_text query top_k s).1 ∧
  (search preprocess_text query top_k (search preprocess_text query top_k s).2).1
  = (search preprocess_text query top_k s).1.
Proof.
  intros Hblank Htokens s.
  destruct (search_on_stable preprocess_text Hblank Htokens cs query top_k s
              (run_stable preprocess_text cs)) as (s1 & Hrun & Hst).
  fold s in Hrun. rewrite Hrun. simpl.
  destruct (search_on_stable preprocess_text Hblank Htokens cs query top_k s1 Hst)
    as (s2 & -> & _).
  destruct (search_on_stable preprocess_text Hblank Htokens cs query top_k
              (clear_cache s)) as (s3 & -> & _); [|done].
  split; [by repeat split | by apply cache_fresh_empty].
Qed.

Lemma search_ignores_cache_witness :
  let s := run keep_text
             [AddDocument "d1" "cat dog cat"; Search "dog" 5;
              AddDocument "d2" "dog bird"; CalculateIdf "cat"] in
  (search keep_text "cat" 10 (clear_cache s)).1 = (search keep_text "cat" 10 s).1 ∧
  (search keep_text "cat" 10 (search keep_text "cat" 10 s).2).1
  = (search keep_text "cat" 10 s).1.
Proof.
  apply (search_ignores_cache keep_text
           [AddDocument "d1" "cat dog cat"; Search "dog" 5;
            AddDocument "d2" "dog bird"; CalculateIdf "cat"] "cat" 10).
  - apply keep_text_blank.
  - apply keep_text_tokens.
Defined.

(** ** Counting tokens *)

Lemma filter_eq_absent (ws : list string) w :
  w ∉ ws → filter (λ x, x = w) ws = [].
Proof.
  induction ws as [|x ws IH]; intros Hw; [done|].
  apply not_elem_of_cons in Hw as [Hne Hw].
  rewrite filter_cons_False by done. by apply IH.
Qed.

Lemma Counter_go_lookup (ws : list string) (m : gmap string Z) w :
  foldl (λ m w, <[w := default 0 (m !! w) + 1]> m) m ws !! w
  = if decide (w ∈ ws)
    then Some (default 0 (m !! w) + Z.of_nat (length (filter (λ x, x = w) ws)))
    else m !! w.
Proof.
  revert m. induction ws as [|x ws IH]; intros m; cbn [foldl].
  - destruct (decide (w ∈ [])) as [Hin|_]; [|done]. by apply elem_of_nil in Hin.
  - rewrite IH, filter_cons.
    destruct (decide (x = w)) as [->|Hx].
    + rewrite lookup_insert_eq. cbn [default from_option length].
      unfold Datatypes.id.
      destruct (decide (w ∈ w :: ws)) as [_|Hn];
        [|exfalso; apply Hn, elem_of_cons; auto].
      destruct (decide (w ∈ ws)) as [Hin|Hin]; apply (f_equal Some); [lia|].
      rewrite filter_eq_absent by done. simpl. lia.
    + rewrite lookup_insert_ne by done.
      destruct (decide (w ∈ ws)) as [Hin|Hin];
        destruct (decide (w ∈ x :: ws)) as [Hin'|Hin']; try done.
      * exfalso. apply Hin', elem_of_cons. auto.
      * exfalso. apply elem_of_cons in Hin' as [->|?]; done.
Qed.

Lemma Counter_lookup (ws : list string) w :
  Counter ws !! w
  = if decide (w ∈ ws)
    then Some (Z.of_nat (length (filter (λ x, x = w) ws)))
    else None.
Proof. unfold Counter. rewrite Counter_go_lookup, lookup_empty. done. Qed.

(** ** The vectors the index builds *)

Lemma document_vector_lookup s id w :
  document_vector s id !! w
  = (λ c, (IZR c / IZR (default 1%Z (document_lengths s !! id))
           * idf_from_scratch s w)%R) <$> lookup2 (forward_index s) id w.
Proof.
  unfold document_vector, lookup2.
  destruct (forward_index s !! id) as [entry|] eqn:Hid; simpl; [|done].
  rewrite map_lookup_imap. unfold term_frequency. rewrite Hid.
  by destruct (entry !! w).
Qed.

(** X9. On every reachable index (normaliser returning the empty
    string or text with a token) [get_document_vector] returns without
    raising, changes nothing outside the IDF cache, and the vector has
    exactly the terms of the document's forward entry as keys, each
    with weight [count / stored_length * idf]; a weight of 0 keeps its
    key, and an unknown document gives the empty vector. *)
Theorem document_vector_weights (preprocess_text : string → string)
    (cs : list call) (id : string) :
  (∀ text, preprocess_text text ≠ "" → split (preprocess_text text) ≠ []) →
  let s := run preprocess_text cs in
  ∃ v s',
    get_document_vector id s = (Ok v, s') ∧
    same_index s s' ∧
    dom v = dom (default ∅ (forward_index s !! id)) ∧
    ∀ w, v !! w
         = (λ c, (IZR c / IZR (default 1%Z (document_lengths s !! id))
                  * idf_from_scratch s w)%R) <$> lookup2 (forward_index s) id w.
Proof.
  intros Htokens s.
  destruct (get_document_vector_value s (run_wf preprocess_text cs)
              (run_lengths preprocess_text Htokens cs) id s)
    as (r & s' & Hrun & [Hsame _] & ->).
  { split; [apply same_index_refl | apply run_wf]. }
  exists (document_vector s id), s'. split; [done|]. split; [done|].
  split; [|apply document_vector_lookup].
  apply set_eq. intros w. rewrite !elem_of_dom, document_vector_lookup.
  unfold lookup2. destruct (forward_index s !! id) as [entry|]; simpl.
  - by rewrite fmap_is_Some.
  - rewrite lookup_empty. done.
Qed.

Lemma document_vector_weights_witness :
  let s := run keep_text
             [AddDocument "d1" "cat dog cat"; AddDocument "d2" "dog bird"] in
  ∃ v s',
    get_document_vector "d1" s = (Ok v, s') ∧
    same_index s s' ∧
    dom v = dom (default ∅ (forward_index s !! "d1")) ∧
    ∀ w, v !! w
         = (λ c, (IZR c / IZR (default 1%Z (document_lengths s !! "d1"))
                  * idf_from_scratch s w)%R) <$> lookup2 (forward_index s) "d1" w.
Proof.
  apply (document_vector_weights keep_text
           [AddDocument "d1" "cat dog cat"; AddDocument "d2" "dog bird"] "d1").
  apply keep_text_tokens.
Defined.

(** X10. On every reachable index [get_query_vector] returns without
    raising and changes nothing outside the IDF cache; the keys of the
    vector are the distinct tokens of the normalised query, and the
    weight of a token is its number of occurrences in the query (not
    divided by the query length) times its IDF, hence 0 for a token the
    index does not know. *)
Theorem query_vector_weights (preprocess_text : string → string)
    (cs : list call) (query : string) :
  let s := run preprocess_text cs in
  let tokens := split (preprocess_text query) in
  ∃ v s',
    get_query_vector preprocess_text query s = (Ok v, s') ∧
    same_index s s' ∧
    ∀ w, v !! w
         = if decide (w ∈ tokens)
           then Some (IZR (Z.of_nat (length (filter (λ x, x = w) tokens)))
                      * idf_from_scratch s w)%R
           else None.
Proof.
  intros s tokens.
  destruct (get_query_vector_value preprocess_text s (run_wf preprocess_text cs)
              query s) as (r & s' & Hrun & [Hsame _] & ->).
  { split; [apply same_index_refl | apply run_wf]. }
  eexists _, s'. split; [done|]. split; [done|].
  intros w. unfold query_vector. rewrite map_lookup_imap, Counter_lookup.
  fold tokens. by case_decide.
Qed.

(** X11. On every reachable index (normaliser returning the empty
    string or text with a token) and for [top_k >= 0],
    [get_document_keywords] returns the first [top_k] entries of a list
    that holds exactly the (term, weight) pairs of the document's vector
    and is sorted by weight, greatest first. *)
Theorem document_keywords_ranked (preprocess_text : string → string)
    (cs : list call) (id : string) (top_k : Z) :
  (∀ text, preprocess_text text ≠ "" → split (preprocess_text text) ≠ []) →
  0 ≤ top_k →
  let s := run preprocess_text cs in
  ∃ ranked,
    (get_document_keywords id top_k s).1 = Ok (take (Z.to_nat top_k) ranked) ∧
    ranked ≡ₚ map_to_list (document_vector s id) ∧
    Sorted score_desc ranked.
Proof.
  intros Htokens Hk s.
  exists (sort_desc (map_to_list (document_vector s id))).
  split; [|split; [apply sort_desc_perm | apply sort_desc_sorted]].
  unfold get_document_keywords.
  destruct (forward_index s !! id) as [entry|] eqn:Hid.
  - destruct (get_document_vector_value s (run_wf preprocess_text cs)
                (run_lengths preprocess_text Htokens cs) id s)
      as (r & s' & Hrun & _ & ->).
    { split; [apply same_index_refl | apply run_wf]. }
    unfold bind. rewrite Hrun. simpl. unfold slice_to, items.
    by rewrite decide_True.
  - unfold document_vector. rewrite Hid, map_to_list_empty. simpl.
    by rewrite take_nil.
Qed.

Lemma document_keywords_ranked_witness :
  let s := run keep_text
             [AddDocument "d1" "cat dog cat"; AddDocument "d2" "dog bird"] in
  ∃ ranked,
    (get_document_keywords "d1" 5 s).1 = Ok (take (Z.to_nat 5) ranked) ∧
    ranked ≡ₚ map_to_list (document_vector s "d1") ∧
    Sorted score_desc ranked.
Proof.
  apply (document_keywords_ranked keep_text
           [AddDocument "d1" "cat dog cat"; AddDocument "d2" "dog bird"] "d1" 5).
  - apply keep_text_tokens.
  - lia.
Defined.

(** ** Index statistics *)

Lemma elem_of_nested_pairs m k j :
  (k, j) ∈ nested_pairs m ↔ is_Some (lookup2 m k j).
Proof.
  unfold nested_pairs. rewrite list_elem_of_bind. split.
  - intros ([k' p] & (j' & [= -> ->] & Hj)%list_elem_of_fmap & Hkp).
    apply elem_of_map_to_list in Hkp. apply elem_of_keys in Hj as [c Hc].
    exists c. apply lookup2_Some. eauto.
  - intros [c (p & Hp & Hc)%lookup2_Some]. exists (k, p). split.
    + apply list_elem_of_fmap. exists j. split; [done|]. apply elem_of_keys. eauto.
    + by apply elem_of_map_to_list.
Qed.

Lemma NoDup_nested_pairs m : NoDup (nested_pairs m).
Proof.
  unfold nested_pairs. apply NoDup_bind.
  - intros [k1 p1] [k2 p2] [k j] H1 H2
      (j1 & [= -> ->] & _)%list_elem_of_fmap (j2 & [= -> _] & _)%list_elem_of_fmap.
    apply elem_of_map_to_list in H1, H2. simpl in *. congruence.
  - intros [k p] _. apply NoDup_fmap_2; [|apply NoDup_keys].
    intros j1 j2 [= ->]. done.
  - apply NoDup_map_to_list.
Qed.

Lemma length_nested_pairs m :
  Z.of_nat (length (nested_pairs m))
  = sum_int ((λ p : gmap string Z, Z.of_nat (size p)) <$> values m).
Proof.
  unfold nested_pairs, values.
  induction (map_to_list m) as [|[k p] l IH]; [done|].
  rewrite bind_cons, length_app, !fmap_cons, sum_int_cons, Nat2Z.inj_add, IH.
  simpl. unfold keys. by rewrite !length_fmap, length_map_to_list.
Qed.

Lemma postings_counted_twice s :
  postings_agree s →
  sum_int ((λ p : gmap string Z, Z.of_nat (size p)) <$> values (forward_index s))
  = sum_int ((λ p : gmap string Z, Z.of_nat (size p)) <$> values (inverted_index s)).
Proof.
  intros Hs. rewrite <- !length_nested_pairs. f_equal.
  rewrite <- (length_fmap (λ dt : string * string, (dt.2, dt.1))
                (nested_pairs (forward_index s))).
  apply Permutation_length, NoDup_Permutation.
  - apply NoDup_fmap_2; [|apply NoDup_nested_pairs].
    intros [a b] [c d] [= -> ->]. done.
  - apply NoDup_nested_pairs.
  - intros [t d]. rewrite list_elem_of_fmap, elem_of_nested_pairs, Hs. split.
    + intros ([d' t'] & [= -> ->] & Hin). by apply elem_of_nested_pairs.
    + intros Hin. exists (d, t). split; [done|]. by apply elem_of_nested_pairs.
Qed.

Lemma sum_int_ge_length l :
  Forall (λ x, 1 ≤ x) l → Z.of_nat (length l) ≤ sum_int l.
Proof.
  induction 1 as [|x l Hx _ IH]; [done|].
  rewrite sum_int_cons. simpl length. lia.
Qed.

Lemma sum_sizes_ge_size (m : gmap string (gmap string Z)) :
  (∀ k p, m !! k = Some p → p ≠ ∅) →
  Z.of_nat (size m)
  ≤ sum_int ((λ p : gmap string Z, Z.of_nat (size p)) <$> values m).
Proof.
  intros Hm. rewrite <- length_map_to_list.
  replace (length (map_to_list m))
    with (length ((λ p : gmap string Z, Z.of_nat (size p)) <$> values m))
    by (unfold values; by rewrite !length_fmap).
  apply sum_int_ge_length, Forall_fmap, Forall_forall.
  intros p ([k p'] & -> & Hin)%list_elem_of_fmap. simpl.
  apply elem_of_map_to_list in Hin. apply Hm in Hin.
  apply map_size_non_empty_iff in Hin. lia.
Qed.

Lemma run_entries_nonempty pre cs : entries_nonempty (run pre cs).
Proof.
  apply run_invariant.
  - intros d m. simpl. by rewrite lookup_empty.
  - intros s s' (_ & Hf & _) Hs d m. rewrite Hf. apply Hs.
  - intros s id text _ Hs. unfold add_document. case_decide; [done|].
    unfold entries_nonempty. simpl.
    apply (index_words_inv id entries_nonempty); [|done].
    intros s1 [w c] Hs1 d m. rewrite index_word_forward.
    destruct (decide (id = d)) as [->|Hne].
    + rewrite lookup_insert_eq. intros [= <-]. apply insert_non_empty.
    + rewrite lookup_insert_ne by done. apply Hs1.
  - intros s id _ Hs. unfold remove_document.
    destruct (forward_index s !! id); [|done].
    intros d m. simpl. destruct (decide (id = d)) as [->|Hne].
    + by rewrite lookup_delete_eq.
    + rewrite lookup_delete_ne by done. apply Hs.
Qed.

(** X12. On every reachable index, [get_stats] reports the number of
    indexed documents; its [total_words] (the sum of the sizes of the
    forward entries) is also the sum of the sizes of all postings
    dictionaries; neither the number of distinct terms nor the number of
    documents exceeds it; the average is 0 on an empty corpus (no
    division takes place) and at least 1 otherwise. *)
Theorem get_stats_consistent (preprocess_text : string → string) (cs : list call) :
  let s := run preprocess_text cs in
  let st := get_stats s in
  stats_total_documents st = Z.of_nat (size (forward_index s)) ∧
  stats_total_words st
  = sum_int ((λ p : gmap string Z, Z.of_nat (size p)) <$> values (inverted_index s)) ∧
  stats_unique_words st ≤ stats_total_words st ∧
  stats_total_documents st ≤ stats_total_words st ∧
  (forward_index s = ∅ → stats_average_words_per_document st = 0%R) ∧
  (forward_index s ≠ ∅ → (1 <= stats_average_words_per_document st)%R).
Proof.
  intros s st.
  pose proof (run_wf preprocess_text cs) as Hwf. fold s in Hwf.
  pose proof (run_entries_nonempty preprocess_text cs) as Hne. fold s in Hne.
  pose proof (postings_counted_twice s (wf_agree _ Hwf)) as Htwice.
  pose proof (sum_sizes_ge_size (inverted_index s) (wf_nonempty _ Hwf)) as Hinv.
  pose proof (sum_sizes_ge_size (forward_index s) Hne) as Hfwd.
  pose proof (wf_total _ Hwf) as Htot. unfold total_is_size in Htot.
  subst st. unfold get_stats. simpl.
  set (tw := sum_int _) in *.
  split; [done|]. split; [done|]. split; [lia|]. split; [lia|]. split.
  - intros He. rewrite decide_False; [done|]. rewrite Htot, He, map_size_empty. lia.
  - intros He. apply map_size_non_empty_iff in He.
    rewrite decide_True by lia.
    assert (0 < IZR (total_documents s))%R by (apply IZR_lt; lia).
    assert (IZR (total_documents s) <= IZR tw)%R by (apply IZR_le; lia).
    apply (Rmult_le_reg_r (IZR (total_documents s))); [done|].
    unfold Rdiv. rewrite Rmult_assoc, Rinv_l by lra. lra.
Qed.

(** ** Keyword suggestions *)

(** X15. [suggest_keywords] on an engine whose index is reachable:
    the suggestions are tokens of the normalised query, in query order;
    each of them occurs in at least one indexed document; there are at
    most [max_suggestions] of them when that bound is not negative; a
    blank query gives none. *)
Theorem suggest_keywords_sound (preprocess_text : string → string)
    (cs : list call) (dm : DocumentManager) (query : string) (max_suggestions : Z) :
  let e := mkEngine dm (run preprocess_text cs) in
  let suggestions :=
    SearchEngine_suggest_keywords preprocess_text query max_suggestions e in
  suggestions `sublist_of` split (preprocess_text query) ∧
  (∀ w, w ∈ suggestions →
     ∃ d c, lookup2 (forward_index (index e)) d w = Some c) ∧
  (0 ≤ max_suggestions → Z.of_nat (length suggestions) ≤ max_suggestions) ∧
  (strip query = "" → suggestions = []).
Proof.
  intros e suggestions.
  pose proof (run_wf preprocess_text cs) as Hwf.
  assert (suggestions `sublist_of`
            filter (λ word, word ∈ dom (inverted_index (index e)))
                   (split (preprocess_text query))) as Hsub.
  { subst suggestions. unfold SearchEngine_suggest_keywords.
    repeat case_decide; try apply sublist_nil_l. apply slice_to_sublist. }
  split; [|split; [|split]].
  - etransitivity; [exact Hsub | apply sublist_filter].
  - intros w Hw. eapply elem_of_sublist in Hw; [|exact Hsub].
    apply list_elem_of_filter in Hw as [[p Hp]%elem_of_dom _]. simpl in Hp.
    destruct (wf_corpus_positive _ _ _ Hwf Hp) as [Hsize _].
    assert (p ≠ ∅) as Hne by (apply map_size_non_empty_iff; lia).
    apply map_choose in Hne as (d & c & Hd).
    exists d, c. simpl. rewrite <- (wf_agree _ Hwf). apply lookup2_Some. eauto.
  - intros Hk. subst suggestions. unfold SearchEngine_suggest_keywords.
    repeat case_decide; simpl; try lia.
    unfold slice_to. rewrite decide_True by done. rewrite length_take. lia.
  - intros Hq. subst suggestions. unfold SearchEngine_suggest_keywords.
    by rewrite decide_True.
Qed.

(** ** Documents that are added once *)

Lemma Counter_empty_iff ws : Counter ws = ∅ ↔ ws = [].
Proof.
  split; [|by intros ->].
  destruct ws as [|w ws]; [done|]. intros He.
  pose proof (Counter_lookup (w :: ws) w) as Hl.
  rewrite He, lookup_empty, decide_True in Hl by (apply elem_of_cons; auto).
  done.
Qed.

Lemma add_document_forward_other pre id text s d :
  d ≠ id →
  forward_index (add_document pre id text s) !! d = forward_index s !! d ∧
  document_lengths (add_document pre id text s) !! d = document_lengths s !! d.
Proof.
  intros Hd. unfold add_document. case_decide; [done|]. simpl.
  destruct (index_words_rest id (items (Counter (split (pre text)))) s)
    as (_ & -> & _).
  by rewrite index_words_forward_other, lookup_insert_ne.
Qed.

Lemma index_words_fresh_entry id (cnt : gmap string Z) s :
  forward_index s !! id = None →
  forward_index (foldl (index_word id) s (items cnt)) !! id
  = if decide (cnt = ∅) then None else Some cnt.
Proof.
  intros Hid.
  assert (∀ w, lookup2 (forward_index (foldl (index_word id) s (items cnt))) id w
               = cnt !! w) as Hall.
  { intros w. destruct (cnt !! w) as [c|] eqn:Hw.
    - apply index_words_stored; [apply NoDup_fst_map_to_list|].
      by apply elem_of_map_to_list.
    - destruct (index_words_keep id (items cnt) s w) as [_ ->].
      + intros Hin. apply (elem_of_keys cnt w) in Hin as [? ?]. congruence.
      + unfold lookup2. by rewrite Hid. }
  case_decide as He.
  - subst cnt. unfold items. by rewrite map_to_list_empty.
  - apply map_choose in He as (w & c & Hw).
    pose proof (Hall w) as Hlw. rewrite Hw in Hlw.
    apply lookup2_Some in Hlw as (m & Hm & _). rewrite Hm. f_equal.
    apply map_eq. intros w'. specialize (Hall w'). unfold lookup2 in Hall.
    by rewrite Hm in Hall.
Qed.

Lemma add_document_fresh_entry pre id text s :
  forward_index s !! id = None →
  forward_index (add_document pre id text s) !! id
  = if decide (split (pre text) = []) then None
    else Some (Counter (split (pre text))).
Proof.
  intros Hid. unfold add_document. case_decide as He.
  - rewrite He. by rewrite decide_True.
  - simpl. rewrite index_words_fresh_entry by done.
    destruct (decide (split (pre text) = [])) as [Hs|Hs].
    + rewrite decide_True; [done|]. by apply Counter_empty_iff.
    + rewrite decide_False; [done|]. by rewrite Counter_empty_iff.
Qed.

Lemma add_document_lengths_exact pre id text s :
  forward_index s !! id = None →
  lengths_exact s → lengths_exact (add_document pre id text s).
Proof.
  intros Hid Hs d m. destruct (decide (d = id)) as [->|Hd].
  - rewrite add_document_fresh_entry by done. case_decide; [done|].
    intros [= <-]. unfold add_document. case_decide as He.
    { exfalso. rewrite He in *. done. }
    simpl. by rewrite lookup_insert_eq.
  - destruct (add_document_forward_other pre id text s d Hd) as [-> ->]. apply Hs.
Qed.

Lemma remove_document_lengths_exact id s :
  lengths_exact s → lengths_exact (remove_document id s).
Proof.
  intros Hs. unfold remove_document. destruct (forward_index s !! id); [|done].
  intros d m. simpl. destruct (decide (d = id)) as [->|Hd].
  - by rewrite lookup_delete_eq.
  - rewrite !lookup_delete_ne by done. apply Hs.
Qed.

Lemma fresh_adds_lengths_exact pre cs s :
  wf s → lengths_exact s → fresh_adds pre s cs →
  lengths_exact (foldl (exec pre) s cs).
Proof.
  revert s. induction cs as [|c cs IH]; intros s Hwf Hs Hfresh; [done|].
  destruct Hfresh as [Hc Hfresh]. cbn [foldl].
  apply IH; [by apply exec_wf | | done].
  assert (∀ s', same_index s s' → lengths_exact s') as Hsame.
  { intros s' (_ & Hf & _ & Hl & _) d m. rewrite Hf, Hl. apply Hs. }
  destruct c; simpl.
  - by apply add_document_lengths_exact.
  - by apply remove_document_lengths_exact.
  - apply Hsame. eapply reads_same; [done | by apply calculate_idf_any].
  - apply Hsame. eapply reads_same; [done | by apply calculate_tf_idf_any].
  - apply Hsame. eapply reads_same; [done | by apply get_document_vector_any].
  - apply Hsame. eapply reads_same; [done | by apply get_query_vector_any].
  - apply Hsame. eapply reads_same; [done | by apply search_any].
  - apply Hsame. eapply reads_same; [done | by apply get_document_keywords_any].
Qed.

Lemma sum_int_nonneg l : Forall (λ x, 0 ≤ x) l → 0 ≤ sum_int l.
Proof.
  induction 1 as [|x l Hx _ IH]; [done|]. rewrite sum_int_cons. lia.
Qed.

Lemma lookup_le_sum_values (m : gmap string Z) w c :
  map_Forall (λ _ x, 0 < x) m → m !! w = Some c → c ≤ sum_int (values m).
Proof.
  intros Hm Hw. unfold values.
  rewrite <- (sum_int_perm _ _
                (fmap_Permutation snd _ _ (map_to_list_delete m w c Hw))).
  rewrite fmap_cons, sum_int_cons. simpl.
  assert (0 ≤ sum_int (map_to_list (delete w m)).*2); [|lia].
  apply sum_int_nonneg, Forall_fmap, Forall_forall.
  intros [k x] Hin%elem_of_map_to_list. simpl.
  apply lookup_delete_Some in Hin as [_ Hin]. specialize (Hm k x Hin). simpl in Hm.
  lia.
Qed.

(** X13. When no [add_document] of a call sequence names a document
    that is indexed at that moment (documents are added once, or removed
    before they are added again), the stored length of every indexed
    document is the sum of the counts of its terms, and [calculate_tf]
    of a term the document holds is its count divided by that sum,
    greater than 0 and at most 1. *)
Theorem term_frequency_at_most_one (preprocess_text : string → string)
    (cs : list call) (id : string) (entry : gmap string Z) :
  fresh_adds preprocess_text empty_index cs →
  forward_index (run preprocess_text cs) !! id = Some entry →
  let s := run preprocess_text cs in
  let total := sum_int (values entry) in
  document_lengths s !! id = Some total ∧
  ∀ word c, entry !! word = Some c →
    0 < c ≤ total ∧
    calculate_tf word id s = Ok (IZR c / IZR total)%R ∧
    (0 < IZR c / IZR total <= 1)%R.
Proof.
  intros Hfresh Hm s total.
  assert (lengths_exact s) as Hexact.
  { apply fresh_adds_lengths_exact; [apply empty_index_wf | | done].
    intros d m. simpl. by rewrite lookup_empty. }
  pose proof (run_counts preprocess_text cs) as Hpos. fold s in Hpos, Hm.
  pose proof (Hexact id entry Hm) as Hn. fold total in Hn.
  split; [done|]. intros word c Hw.
  assert (lookup2 (forward_index s) id word = Some c) as Hc.
  { unfold lookup2. by rewrite Hm. }
  assert (0 < c) as Hc0 by (by eapply Hpos).
  assert (c ≤ total) as Hle.
  { apply (lookup_le_sum_values entry word c); [|done].
    intros k x Hk. apply (Hpos id k x). unfold lookup2. by rewrite Hm. }
  split; [lia|]. split.
  - rewrite (calculate_tf_present s word id c Hc); rewrite Hn; simpl; [done | lia].
  - assert (0 < IZR c)%R by (apply IZR_lt; lia).
    assert (IZR c <= IZR total)%R by (by apply IZR_le).
    split; [apply Rdiv_lt_0_compat; lra|].
    apply (Rmult_le_reg_r (IZR total)); [lra|].
    unfold Rdiv. rewrite Rmult_assoc, Rinv_l by lra. lra.
Qed.

Lemma term_frequency_at_most_one_witness :
  let s := run keep_text
             [AddDocument "d1" "cat dog cat"; AddDocument "d2" "dog bird";
              RemoveDocument "d1"; AddDocument "d1" "bird"] in
  let total := sum_int (values (Counter ["dog"; "bird"])) in
  document_lengths s !! "d2" = Some total ∧
  ∀ word c, Counter ["dog"; "bird"] !! word = Some c →
    0 < c ≤ total ∧
    calculate_tf word "d2" s = Ok (IZR c / IZR total)%R ∧
    (0 < IZR c / IZR total <= 1)%R.
Proof.
  apply (term_frequency_at_most_one keep_text
           [AddDocument "d1" "cat dog cat"; AddDocument "d2" "dog bird";
            RemoveDocument "d1"; AddDocument "d1" "bird"] "d2"
           (Counter ["dog"; "bird"])).
  - cbn [fresh_adds]. repeat split; vm_compute; reflexivity.
  - vm_compute. reflexivity.
Defined.

(** ** Removing what was added *)

Lemma index_words_inverted_other id l s t :
  t ∉ l.*1 →
  inverted_index (foldl (index_word id) s l) !! t = inverted_index s !! t.
Proof.
  revert s. induction l as [|[w c] l IH]; intros s Ht; cbn [foldl]; [done|].
  rewrite fmap_cons, not_elem_of_cons in Ht. destruct Ht as [Hne Ht].
  rewrite IH, index_word_inverted by done. by rewrite lookup_insert_ne.
Qed.

Lemma index_words_inverted_stored id l s t c :
  NoDup l.*1 → (t, c) ∈ l →
  inverted_index (foldl (index_word id) s l) !! t
  = Some (<[id := c]> (default ∅ (inverted_index s !! t))).
Proof.
  revert s. induction l as [|[w c'] l IH]; intros s Hnd Hin; [by inversion Hin|].
  rewrite fmap_cons in Hnd. apply NoDup_cons in Hnd as [Hw Hnd]. cbn [foldl].
  apply elem_of_cons in Hin as [[= -> ->]|Hin].
  - rewrite index_words_inverted_other, index_word_inverted by done.
    by rewrite lookup_insert_eq.
  - rewrite (IH _ Hnd Hin), index_word_inverted.
    rewrite lookup_insert_ne; [done|].
    intros ->. apply Hw. apply list_elem_of_fmap. by exists (t, c).
Qed.

Lemma unindex_word_same_key id inv1 inv2 t :
  inv1 !! t = inv2 !! t →
  unindex_word id inv1 t !! t = unindex_word id inv2 t !! t.
Proof.
  intros Heq. unfold unindex_word. rewrite Heq.
  repeat case_decide; by rewrite ?lookup_delete_eq, ?lookup_insert_eq.
Qed.

Lemma unindex_words_lookup id ws inv t :
  NoDup ws →
  foldl (unindex_word id) inv ws !! t
  = if decide (t ∈ ws) then unindex_word id inv t !! t else inv !! t.
Proof.
  intros Hnd. revert inv. induction Hnd as [|w ws Hw Hnd IH]; intros inv.
  - rewrite decide_False; [done|]. apply not_elem_of_nil.
  - cbn [foldl]. rewrite IH. destruct (decide (t = w)) as [->|Hne].
    + rewrite decide_False by done.
      rewrite decide_True; [done|]. apply elem_of_cons. auto.
    + destruct (decide (t ∈ ws)) as [Hin|Hin].
      * rewrite decide_True by (apply elem_of_cons; auto).
        apply unindex_word_same_key. by apply unindex_word_other.
      * rewrite decide_False by (rewrite elem_of_cons; tauto).
        by apply unindex_word_other.
Qed.

Lemma run_lengths_indexed pre cs :
  (∀ text, pre text ≠ "" → split (pre text) ≠ []) →
  lengths_indexed (run pre cs).
Proof.
  intros Htokens. apply run_invariant.
  - intros d. simpl. rewrite lookup_empty. by intros [? ?].
  - intros s s' (_ & Hf & _ & Hl & _) Hs d. rewrite Hf, Hl. apply Hs.
  - intros s id text _ Hs d. destruct (decide (d = id)) as [->|Hd].
    + unfold add_document. case_decide as He; [apply Hs|].
      simpl. intros _. apply Htokens in He.
      destruct (split (pre text)) as [|w ws] eqn:Hsplit; [done|].
      pose proof (Counter_lookup (w :: ws) w) as Hl.
      rewrite decide_True in Hl by (apply elem_of_cons; auto).
      apply elem_of_map_to_list in Hl.
      destruct (index_words_stored id (items (Counter (w :: ws))) s w _
                  (NoDup_fst_map_to_list _) Hl) as [_ Hf].
      apply lookup2_Some in Hf as (m & -> & _). eauto.
    + destruct (add_document_forward_other pre id text s d Hd) as [-> ->]. apply Hs.
  - intros s id _ Hs d. unfold remove_document.
    destruct (forward_index s !! id); [|apply Hs]. simpl.
    destruct (decide (d = id)) as [->|Hd].
    + rewrite lookup_delete_eq. by intros [? ?].
    + rewrite !lookup_delete_ne by done. apply Hs.
Qed.

(** X3. On a reachable index, [remove_document] leaves no forward entry
    and no posting of the document under any term, and keeps the forward
    entry and the postings of every other document.  The stored length
    of the document is deleted when the document was indexed.  For a
    document that is not indexed the call changes nothing, so that a
    stored length without forward entry stays; [add_document] leaves
    such a length only for a normalised text made of white space alone,
    and with a normaliser that returns the empty string or text with a
    token no stored length is left in any case. *)
Theorem remove_document_complete (preprocess_text : string → string)
    (cs : list call) (id : string) :
  let s := run preprocess_text cs in
  let s' := remove_document id s in
  forward_index s' !! id = None ∧
  (∀ t, lookup2 (inverted_index s') t id = None) ∧
  (is_Some (forward_index s !! id) → document_lengths s' !! id = None) ∧
  (forward_index s !! id = None → s' = s) ∧
  ((∀ text, preprocess_text text ≠ "" → split (preprocess_text text) ≠ []) →
   document_lengths s' !! id = None) ∧
  (∀ t d, d ≠ id →
     lookup2 (inverted_index s') t d = lookup2 (inverted_index s) t d ∧
     forward_index s' !! d = forward_index s !! d).
Proof.
  intros s s'.
  pose proof (run_wf preprocess_text cs) as Hwf. fold s in Hwf.
  pose proof (remove_document_wf id s Hwf) as Hwf'. fold s' in Hwf'.
  assert (forward_index s' !! id = None) as Hgone.
  { subst s'. unfold remove_document.
    destruct (forward_index s !! id) eqn:Hid; [|done]. simpl.
    apply lookup_delete_eq. }
  assert (is_Some (forward_index s !! id) → document_lengths s' !! id = None)
    as Hlen.
  { intros [entry Hid]. subst s'. unfold remove_document. rewrite Hid. simpl.
    apply lookup_delete_eq. }
  assert (forward_index s !! id = None → s' = s) as Hnoop.
  { intros Hid. subst s'. unfold remove_document. by rewrite Hid. }
  split; [done|]. split; [|split; [done|split; [done|split]]].
  - intros t. rewrite (wf_agree _ Hwf'). unfold lookup2. by rewrite Hgone.
  - intros Htokens. destruct (forward_index s !! id) as [entry|] eqn:Hid.
    + apply Hlen. eauto.
    + rewrite Hnoop by done.
      pose proof (run_lengths_indexed preprocess_text cs Htokens id) as Hind.
      fold s in Hind. destruct (document_lengths s !! id) eqn:Hl; [|done].
      destruct Hind as [entry Hentry]; [eauto|]. congruence.
  - intros t d Hd. subst s'. unfold remove_document.
    destruct (forward_index s !! id) eqn:Hid; [|done]. simpl.
    rewrite unindex_words_lookup2, decide_False by tauto.
    by rewrite lookup_delete_ne.
Qed.

(** X14. On every reachable index (normaliser returning the empty
    string or text with a token), adding a document that is not indexed
    and removing it again gives back the inverted index, the forward
    index, the stored lengths and the document count as they were. *)
Theorem remove_undoes_add (preprocess_text : string → string)
    (cs : list call) (id text : string) :
  (∀ text, preprocess_text text ≠ "" → split (preprocess_text text) ≠ []) →
  forward_index (run preprocess_text cs) !! id = None →
  let s := run preprocess_text cs in
  let s' := remove_document id (add_document preprocess_text id text s) in
  inverted_index s' = inverted_index s ∧
  forward_index s' = forward_index s ∧
  document_lengths s' = document_lengths s ∧
  total_documents s' = total_documents s.
Proof.
  intros Htokens Hid s s'.
  pose proof (run_wf preprocess_text cs) as Hwf. fold s in Hwf, Hid.
  assert (document_lengths s !! id = None) as Hlen.
  { destruct (document_lengths s !! id) eqn:Hl; [|done].
    destruct (run_lengths_indexed preprocess_text cs Htokens id) as [m Hm].
    - fold s. rewrite Hl. eauto.
    - fold s in Hm. congruence. }
  pose proof (add_document_fresh_entry preprocess_text id text s Hid) as Hentry.
  subst s'. unfold remove_document. rewrite Hentry.
  destruct (decide (split (preprocess_text text) = [])) as [Hnil|Hnil].
  { (* nothing was indexed: both calls leave the index as it is *)
    unfold add_document. case_decide as He; [done|].
    exfalso. by apply Htokens in He. }
  set (cnt := Counter (split (preprocess_text text))).
  unfold add_document. rewrite decide_False by (intros He; by rewrite He in Hnil).
  simpl. fold cnt.
  destruct (index_words_rest id (items cnt) s) as (_ & -> & _).
  assert (delete id (forward_index (foldl (index_word id) s (items cnt)))
          = forward_index s) as Hfwd.
  { apply map_eq. intros d. destruct (decide (d = id)) as [->|Hd].
    - by rewrite lookup_delete_eq.
    - by rewrite lookup_delete_ne, index_words_forward_other. }
  rewrite Hfwd. split; [|split; [done|split]].
  - apply map_eq. intros t.
    rewrite unindex_words_lookup by apply NoDup_keys.
    destruct (decide (t ∈ keys cnt)) as [Hin|Hin].
    + apply elem_of_keys in Hin as [c Hc].
      assert (inverted_index (foldl (index_word id) s (items cnt)) !! t
              = Some (<[id := c]> (default ∅ (inverted_index s !! t)))) as Hstored.
      { apply index_words_inverted_stored; [apply NoDup_fst_map_to_list|].
        by apply elem_of_map_to_list. }
      assert (default ∅ (inverted_index s !! t) !! id = None) as Hfresh.
      { destruct (inverted_index s !! t) as [p|] eqn:Hp; simpl; [|done].
        destruct (p !! id) as [c'|] eqn:Hpc; [|done].
        assert (lookup2 (forward_index s) id t = Some c') as Hl.
        { rewrite <- (wf_agree _ Hwf). apply lookup2_Some. eauto. }
        unfold lookup2 in Hl. by rewrite Hid in Hl. }
      unfold unindex_word. rewrite Hstored. simpl.
      rewrite decide_True by (rewrite dom_insert_L; set_solver).
      rewrite delete_insert_id by done.
      destruct (inverted_index s !! t) as [p|] eqn:Hp; simpl.
      * rewrite decide_False by (by eapply wf_nonempty).
        by rewrite lookup_insert_eq.
      * rewrite decide_True by done. by rewrite lookup_delete_eq.
    + apply index_words_inverted_other. intros Hin'. apply Hin.
      by apply (elem_of_keys cnt t), (elem_of_keys cnt t).
  - rewrite delete_insert_id by done. done.
  - by rewrite (wf_total _ Hwf).
Qed.

Lemma remove_undoes_add_witness :
  let s := run keep_text
             [AddDocument "d1" "cat dog cat"; AddDocument "d2" "dog bird"] in
  let s' := remove_document "d3" (add_document keep_text "d3" "bird cat" s) in
  inverted_index s' = inverted_index s ∧
  forward_index s' = forward_index s ∧
  document_lengths s' = document_lengths s ∧
  total_documents s' = total_documents s.
Proof.
  apply (remove_undoes_add keep_text
           [AddDocument "d1" "cat dog cat"; AddDocument "d2" "dog bird"]
           "d3" "bird cat").
  - apply keep_text_tokens.
  - vm_compute. reflexivity.
Defined.

(** ** The document store *)

Lemma elem_of_values {V} (m : gmap string V) x :
  x ∈ values m ↔ ∃ k, m !! k = Some x.
Proof.
  unfold values. rewrite list_elem_of_fmap. split.
  - intros ([k y] & -> & Hin). exists k. by apply elem_of_map_to_list.
  - intros [k Hk]. exists (k, x). split; [done|]. by apply elem_of_map_to_list.
Qed.

Lemma update_document_content_lookup id processed dm k :
  documents (DocumentManager_update_document_content id processed dm) !! k
  = if decide (k = id)
    then with_processed_content processed <$> documents dm !! id
    else documents dm !! k.
Proof.
  unfold DocumentManager_update_document_content.
  destruct (documents dm !! id) as [doc|] eqn:Hid; simpl.
  - case_decide as Hk.
    + subst. by rewrite lookup_insert_eq.
    + by rewrite lookup_insert_ne.
  - case_decide; by subst.
Qed.

Lemma update_document_content_is_Some id processed dm k :
  is_Some (documents (DocumentManager_update_document_content id processed dm) !! k)
  ↔ is_Some (documents dm !! k).
Proof.
  rewrite update_document_content_lookup. case_decide; [subst|done].
  by rewrite fmap_is_Some.
Qed.

Lemma update_document_content_keys_match id processed dm :
  keys_match dm →
  keys_match (DocumentManager_update_document_content id processed dm).
Proof.
  intros Hdm k doc. rewrite update_document_content_lookup. case_decide.
  - subst. intros (doc0 & Hdoc & ->)%fmap_Some. simpl. by apply Hdm.
  - apply Hdm.
Qed.

Lemma update_document_content_unique id processed dm :
  unique_content dm →
  unique_content (DocumentManager_update_document_content id processed dm).
Proof.
  intros Hdm k1 k2 doc1 doc2. rewrite !update_document_content_lookup.
  intros H1 H2 Hc.
  assert (∃ d1, documents dm !! k1 = Some d1 ∧ content d1 = content doc1)
    as (d1 & Hd1 & Hc1).
  { destruct (decide (k1 = id)) as [->|]; [|by eauto].
    apply fmap_Some in H1 as (d & Hd & ->). eauto. }
  assert (∃ d2, documents dm !! k2 = Some d2 ∧ content d2 = content doc2)
    as (d2 & Hd2 & Hc2).
  { destruct (decide (k2 = id)) as [->|]; [|by eauto].
    apply fmap_Some in H2 as (d & Hd & ->). eauto. }
  apply (Hdm k1 k2 d1 d2); congruence.
Qed.

Lemma add_document_store_existing hash now new_title new_content fp md dm i doc :
  list_find (λ existing_doc, content existing_doc = new_content)
            (values (documents dm)) = Some (i, doc) →
  DocumentManager_add_document hash now new_title new_content fp md dm
  = (doc_id doc, dm) ∧
  content doc = new_content ∧ ∃ k, documents dm !! k = Some doc.
Proof.
  intros Hfind. unfold DocumentManager_add_document. rewrite Hfind.
  apply list_find_Some in Hfind as (Hi & Hc & _).
  split; [done|]. split; [done|].
  apply elem_of_values, list_elem_of_lookup. eauto.
Qed.

Lemma add_document_store_new hash now new_title new_content fp md dm :
  list_find (λ existing_doc, content existing_doc = new_content)
            (values (documents dm)) = None →
  DocumentManager_add_document hash now new_title new_content fp md dm
  = (new_doc_id hash dm new_content,
     mkManager (<[new_doc_id hash dm new_content :=
                    mkDocument (new_doc_id hash dm new_content) new_title
                      new_content fp (default [] md) now ""]> (documents dm))) ∧
  ∀ k doc, documents dm !! k = Some doc → content doc ≠ new_content.
Proof.
  intros Hfind. unfold DocumentManager_add_document. rewrite Hfind.
  split; [done|]. intros k doc Hk.
  apply list_find_None in Hfind. rewrite Forall_forall in Hfind.
  apply Hfind, elem_of_values. eauto.
Qed.

Lemma add_document_store_keys_match hash now new_title new_content fp md dm :
  keys_match dm →
  keys_match (DocumentManager_add_document hash now new_title new_content fp md dm).2.
Proof.
  intros Hdm.
  destruct (list_find (λ existing_doc, content existing_doc = new_content)
              (values (documents dm))) as [[i doc]|] eqn:Hfind.
  - by destruct (add_document_store_existing hash now new_title new_content fp md
                   dm i doc Hfind) as (-> & _).
  - destruct (add_document_store_new hash now new_title new_content fp md dm Hfind)
      as (-> & _).
    intros k doc. simpl. destruct (decide (new_doc_id hash dm new_content = k)) as [<-|Hk].
    + rewrite lookup_insert_eq. by intros [= <-].
    + rewrite lookup_insert_ne by done. apply Hdm.
Qed.

Lemma add_document_store_unique hash now new_title new_content fp md dm :
  unique_content dm →
  unique_content (DocumentManager_add_document hash now new_title new_content fp md dm).2.
Proof.
  intros Hdm.
  destruct (list_find (λ existing_doc, content existing_doc = new_content)
              (values (documents dm))) as [[i doc]|] eqn:Hfind.
  - by destruct (add_document_store_existing hash now new_title new_content fp md
                   dm i doc Hfind) as (-> & _).
  - destruct (add_document_store_new hash now new_title new_content fp md dm Hfind)
      as (-> & Hnew).
    intros k1 k2 doc1 doc2. simpl.
    destruct (decide (new_doc_id hash dm new_content = k1)) as [<-|Hk1];
      destruct (decide (new_doc_id hash dm new_content = k2)) as [<-|Hk2];
      rewrite ?lookup_insert_eq, ?lookup_insert_ne by done; try done.
    + intros [= <-] H2 Hc. simpl in Hc. exfalso. by eapply Hnew.
    + intros H1 [= <-] Hc. simpl in Hc. exfalso. by eapply Hnew.
    + apply Hdm.
Qed.

Lemma add_document_store_result hash now new_title new_content fp md dm :
  keys_match dm →
  let out := DocumentManager_add_document hash now new_title new_content fp md dm in
  ∃ doc, documents out.2 !! out.1 = Some doc ∧ content doc = new_content ∧
         doc_id doc = out.1.
Proof.
  intros Hdm out. subst out.
  destruct (list_find (λ existing_doc, content existing_doc = new_content)
              (values (documents dm))) as [[i doc]|] eqn:Hfind.
  - destruct (add_document_store_existing hash now new_title new_content fp md
                dm i doc Hfind) as (-> & Hc & k & Hk).
    simpl. exists doc. pose proof (Hdm k doc Hk) as Hid. by rewrite Hid.
  - destruct (add_document_store_new hash now new_title new_content fp md dm Hfind)
      as (-> & _).
    simpl. rewrite lookup_insert_eq. eauto.
Qed.

Lemma delete_document_keys_match id dm :
  keys_match dm → keys_match (DocumentManager_delete_document id dm).2.
Proof.
  intros Hdm. unfold DocumentManager_delete_document. case_decide; [|done].
  intros k doc. simpl. intros [_ Hk]%lookup_delete_Some. by apply Hdm.
Qed.

Lemma delete_document_unique id dm :
  unique_content dm → unique_content (DocumentManager_delete_document id dm).2.
Proof.
  intros Hdm. unfold DocumentManager_delete_document. case_decide; [|done].
  intros k1 k2 doc1 doc2. simpl.
  intros [_ H1]%lookup_delete_Some [_ H2]%lookup_delete_Some. by apply Hdm.
Qed.

(** ** Invariants of the engine *)

Lemma run_snoc pre cs c : run pre (cs ++ [c])%list = exec pre (run pre cs) c.
Proof. unfold run. apply foldl_snoc. Qed.

Lemma add_document_forward_dom pre id text s d :
  is_Some (forward_index (add_document pre id text s) !! d) →
  d = id ∨ is_Some (forward_index s !! d).
Proof.
  destruct (decide (d = id)) as [|Hd]; [by left|].
  destruct (add_document_forward_other pre id text s d Hd) as [-> _]. by right.
Qed.

Lemma remove_document_forward_dom id s d :
  is_Some (forward_index (remove_document id s) !! d) →
  d ≠ id ∧ is_Some (forward_index s !! d).
Proof.
  unfold remove_document. destruct (forward_index s !! id) eqn:Hid.
  - simpl. intros [m [Hd Hm]%lookup_delete_Some]. split; [done | eauto].
  - intros Hd. split; [|done]. intros ->. rewrite Hid in Hd. by destruct Hd.
Qed.

Lemma engine_search_state pre q k ms e :
  (SearchEngine_search pre q k ms e).2
  = mkEngine (document_manager e)
             (if decide (strip q = "") then index e
              else (search pre q (k * 2) (index e)).2).
Proof.
  unfold SearchEngine_search. case_decide; [by destruct e|].
  by destruct (search pre q (k * 2) (index e)) as [[hits|ex] idx].
Qed.

Lemma reads_forward {A} pre cs (m : M A) Q :
  reads (run pre cs) m Q →
  forward_index (m (run pre cs)).2 = forward_index (run pre cs).
Proof.
  intros Hm. by destruct (reads_same (run pre cs) m Q (run_wf pre cs) Hm) as (_ & ? & _).
Qed.

Lemma reindex_step_ok pre e doc :
  engine_ok pre e →
  is_Some (documents (document_manager e) !! doc_id doc) →
  engine_ok pre (reindex_step pre e doc).
Proof.
  intros (Hkeys & [ics Hidx] & Hsub) Hdoc. unfold reindex_step.
  split; [|split]; simpl.
  - by apply update_document_content_keys_match.
  - exists (ics ++ [AddDocument (doc_id doc) (content doc)])%list.
    by rewrite run_snoc, Hidx.
  - intros d Hd. apply update_document_content_is_Some.
    apply add_document_forward_dom in Hd as [->|Hd]; [done | by apply Hsub].
Qed.

Lemma reindex_documents_ok pre l e :
  engine_ok pre e →
  (∀ doc, doc ∈ l → is_Some (documents (document_manager e) !! doc_id doc)) →
  engine_ok pre (foldl (reindex_step pre) e l).
Proof.
  revert e. induction l as [|doc l IH]; intros e He Hl; [done|].
  cbn [foldl]. apply IH.
  - apply reindex_step_ok; [done|]. apply Hl, elem_of_cons. auto.
  - intros doc' Hin. unfold reindex_step. simpl.
    apply update_document_content_is_Some, Hl, elem_of_cons. auto.
Qed.

Lemma init_ok pre dm : keys_match dm → engine_ok pre (SearchEngine_init pre dm).
Proof.
  intros Hdm. unfold SearchEngine_init, SearchEngine_reindex_documents.
  apply reindex_documents_ok.
  - split; [done|]. split; [by exists []|].
    intros d. simpl. rewrite lookup_empty. by intros [? ?].
  - intros doc [k Hk]%elem_of_values. simpl in *.
    rewrite (Hdm k doc Hk). eauto.
Qed.

Lemma engine_exec_ok pre hash e c :
  engine_ok pre e → engine_ok pre (engine_exec pre hash e c).
Proof.
  intros (Hkeys & [ics Hidx] & Hsub). destruct c; simpl.
  - (* add_document *)
    unfold SearchEngine_add_document.
    pose proof (add_document_store_keys_match hash now new_title new_content
                  new_file_path new_metadata _ Hkeys) as Hkeys'.
    pose proof (add_document_store_result hash now new_title new_content
                  new_file_path new_metadata _ Hkeys) as (doc & Hdoc & _ & _).
    destruct (DocumentManager_add_document hash now new_title new_content
                new_file_path new_metadata (document_manager e)) as [id dm] eqn:Hadd.
    simpl in *. split; [|split]; simpl.
    + by apply update_document_content_keys_match.
    + exists (ics ++ [AddDocument id new_content])%list. by rewrite run_snoc, Hidx.
    + intros d Hd. apply update_document_content_is_Some.
      apply add_document_forward_dom in Hd as [->|Hd]; [eauto|].
      apply Hsub in Hd.
      unfold DocumentManager_add_document in Hadd.
      destruct (list_find _ _) as [[i existing]|]; simplify_eq; [done|].
      simpl. destruct (decide (new_doc_id hash (document_manager e) new_content = d))
        as [<-|Hne]; [by rewrite lookup_insert_eq|by rewrite lookup_insert_ne].
  - (* remove_document *)
    unfold SearchEngine_remove_document, DocumentManager_delete_document.
    case_decide as Hin; simpl.
    + split; [|split]; simpl.
      * intros k doc. simpl. intros [_ Hk]%lookup_delete_Some. by apply Hkeys.
      * exists (ics ++ [RemoveDocument id])%list. by rewrite run_snoc, Hidx.
      * intros d [Hd Hfd]%remove_document_forward_dom.
        rewrite lookup_delete_ne by done. by apply Hsub.
    + split; [done|]. split; [by exists ics|done].
  - (* search *)
    rewrite engine_search_state. split; [done|]. simpl.
    case_decide; [split; [by exists ics|done]|].
    split.
    + exists (ics ++ [Search query (top_k * 2)])%list. by rewrite run_snoc, Hidx.
    + rewrite Hidx. rewrite (reads_forward _ _ _ (λ _, True)).
      * by rewrite <- Hidx.
      * apply search_any, run_wf.
  - (* get_document_keywords *)
    unfold SearchEngine_get_document_keywords.
    destruct (get_document_keywords id top_k (index e)) as [r idx] eqn:Hk.
    assert (idx = (get_document_keywords id top_k (index e)).2) as ->
      by (by rewrite Hk).
    split; [done|]. simpl. split.
    + exists (ics ++ [GetDocumentKeywords id top_k])%list. by rewrite run_snoc, Hidx.
    + rewrite Hidx. rewrite (reads_forward _ _ _ (λ _, True)).
      * by rewrite <- Hidx.
      * apply get_document_keywords_any, run_wf.
  - (* rebuild_index *)
    by apply (init_ok pre (document_manager e)).
Qed.

Lemma engine_run_ok pre hash dm cs :
  keys_match dm → engine_ok pre (engine_run pre hash dm cs).
Proof.
  intros Hdm. unfold engine_run.
  assert (∀ e, engine_ok pre e → engine_ok pre (foldl (engine_exec pre hash) e cs))
    as Hgen.
  { induction cs as [|c cs IH]; intros e He; [done|].
    cbn [foldl]. by apply IH, engine_exec_ok. }
  by apply Hgen, init_ok.
Qed.

Lemma reindex_documents_unique pre l e :
  unique_content (document_manager e) →
  unique_content (document_manager (foldl (reindex_step pre) e l)).
Proof.
  revert e. induction l as [|doc l IH]; intros e He; [done|].
  cbn [foldl]. apply IH. unfold reindex_step. simpl.
  by apply update_document_content_unique.
Qed.

Lemma engine_exec_unique pre hash e c :
  unique_content (document_manager e) →
  unique_content (document_manager (engine_exec pre hash e c)).
Proof.
  intros He. destruct c; simpl.
  - unfold SearchEngine_add_document.
    pose proof (add_document_store_unique hash now new_title new_content
                  new_file_path new_metadata _ He) as He'.
    destruct (DocumentManager_add_document _ _ _ _ _ _ _) as [id dm]. simpl in *.
    by apply update_document_content_unique.
  - unfold SearchEngine_remove_document.
    pose proof (delete_document_unique id _ He) as He'.
    destruct (DocumentManager_delete_document id (document_manager e)) as [[] dm];
      done.
  - by rewrite engine_search_state.
  - unfold SearchEngine_get_document_keywords.
    by destruct (get_document_keywords id top_k (index e)).
  - unfold SearchEngine_rebuild_index, SearchEngine_reindex_documents.
    by apply reindex_documents_unique.
Qed.

(** X16. Whatever sequence of [add_document], [remove_document],
    [search], [get_document_keywords] and [rebuild_index] calls an
    engine has served since it was built on a store whose records sit
    under their own identifiers: every record still sits under its own
    identifier, the index is one that calls on a new [DocumentIndex()]
    produce, every indexed document has a record in the store, and if
    no two records of the initial store had the same content then no
    two records have. *)
Theorem engine_invariants (preprocess_text : string → string) (hash : string → Z)
    (dm : DocumentManager) (cs : list engine_call) :
  keys_match dm →
  let e := engine_run preprocess_text hash dm cs in
  keys_match (document_manager e) ∧
  (∃ ics, index e = run preprocess_text ics) ∧
  (∀ d, is_Some (forward_index (index e) !! d) →
        is_Some (documents (document_manager e) !! d)) ∧
  (unique_content dm → unique_content (document_manager e)).
Proof.
  intros Hdm e.
  destruct (engine_run_ok preprocess_text hash dm cs Hdm) as (Hk & Hr & Hs).
  split; [done|]. split; [done|]. split; [done|].
  intros Hu. subst e. clear Hk Hr Hs. unfold engine_run.
  assert (∀ e0, unique_content (document_manager e0) →
                unique_content (document_manager
                  (foldl (engine_exec preprocess_text hash) e0 cs))) as Hgen.
  { induction cs as [|c cs IH]; intros e0 He0; [done|].
    cbn [foldl]. by apply IH, engine_exec_unique. }
  apply Hgen. unfold SearchEngine_init, SearchEngine_reindex_documents.
  by apply reindex_documents_unique.
Qed.

Lemma engine_invariants_witness :
  let e := engine_run keep_text (λ _, 7) (mkManager ∅)
             [EngineAdd "t0" "Pets" "cat dog cat" None None;
              EngineAdd "t1" "Birds" "dog bird" None None;
              EngineRemove "doc_1_7"; EngineRebuild] in
  keys_match (document_manager e) ∧
  (∃ ics, index e = run keep_text ics) ∧
  (∀ d, is_Some (forward_index (index e) !! d) →
        is_Some (documents (document_manager e) !! d)) ∧
  (unique_content (mkManager ∅) → unique_content (document_manager e)).
Proof.
  apply (engine_invariants keep_text (λ _, 7) (mkManager ∅)).
  intros k doc. simpl. by rewrite lookup_empty.
Defined.

(** ** What the engine returns for a query *)

Lemma score_desc_transitive {A} (a b c : A * R) :
  score_desc a b → score_desc b c → score_desc a c.
Proof. unfold score_desc. lra. Qed.

Lemma resolve_hit_Some dm kw ms hit r :
  resolve_hit dm kw ms hit = Some r →
  ¬ (hit.2 < ms)%R ∧
  score r = hit.2 ∧
  documents dm !! hit.1 = Some (document r) ∧
  matched_keywords r = find_matched_keywords (processed_content (document r)) kw.
Proof.
  unfold resolve_hit, DocumentManager_get_document.
  destruct (Rlt_dec hit.2 ms); [done|].
  destruct (documents dm !! hit.1) as [doc|]; [|done].
  intros [= <-]. done.
Qed.

Lemma omap_resolve_sorted dm kw ms hits :
  StronglySorted score_desc hits →
  StronglySorted result_desc (omap (resolve_hit dm kw ms) hits).
Proof.
  induction 1 as [|hit hits Hs IH Hall]; [constructor|].
  change (omap (resolve_hit dm kw ms) (hit :: hits))
    with (match resolve_hit dm kw ms hit with
          | Some r => r :: omap (resolve_hit dm kw ms) hits
          | None => omap (resolve_hit dm kw ms) hits
          end).
  destruct (resolve_hit dm kw ms hit) as [r|] eqn:Hr; [|done].
  constructor; [done|].
  apply Forall_forall. intros r' (hit' & Hin & Hr')%list_elem_of_omap.
  rewrite Forall_forall in Hall. specialize (Hall hit' Hin).
  apply resolve_hit_Some in Hr as (_ & Hsc & _).
  apply resolve_hit_Some in Hr' as (_ & Hsc' & _).
  unfold result_desc, score_desc in *. by rewrite Hsc, Hsc'.
Qed.

Lemma find_matched_keywords_sound doc_content kw :
  find_matched_keywords doc_content kw `sublist_of` kw ∧
  ∀ k, k ∈ find_matched_keywords doc_content kw → k ∈ split doc_content.
Proof.
  unfold find_matched_keywords. split; [apply sublist_filter|].
  intros k [Hk _]%list_elem_of_filter. by apply elem_of_list_to_set in Hk.
Qed.

Lemma query_keywords_sublist pre q : query_keywords_of pre q `sublist_of` split (pre q).
Proof. unfold query_keywords_of. case_decide; [apply sublist_nil_l | done]. Qed.

Section EngineSearch.

Variable preprocess_text : string → string.
Hypothesis preprocess_blank : ∀ q, strip q = "" → preprocess_text q = "".
Hypothesis preprocess_tokens :
  ∀ text, preprocess_text text ≠ "" → split (preprocess_text text) ≠ [].

Lemma engine_search_value cs dm q k ms :
  0 ≤ k → strip q ≠ "" →
  (SearchEngine_search preprocess_text q k ms
     (mkEngine dm (run preprocess_text cs))).1
  = Ok (take (Z.to_nat k)
          (omap (resolve_hit dm (query_keywords_of preprocess_text q) ms)
             (slice_to (k * 2)
                (sort_desc (scored_documents preprocess_text
                              (run preprocess_text cs) q))))).
Proof.
  intros Hk Hq.
  destruct (search_returns preprocess_text cs q (k * 2) preprocess_blank
              preprocess_tokens) as (idx & Hrun & _).
  unfold SearchEngine_search. rewrite decide_False by done.
  cbn [index document_manager]. rewrite Hrun. cbn [fst]. f_equal.
  fold (query_keywords_of preprocess_text q).
  destruct (decide (k = 0)) as [->|Hpos].
  - unfold slice_to. by rewrite decide_True.
  - by rewrite search_loop_take by (simpl; lia).
Qed.

Lemma index_hits_sound cs q k d sc :
  (d, sc) ∈ slice_to k (sort_desc (scored_documents preprocess_text
                                     (run preprocess_text cs) q)) →
  is_Some (forward_index (run preprocess_text cs) !! d) ∧
  sc = similarity (query_vector preprocess_text (run preprocess_text cs) q)
                  (document_vector (run preprocess_text cs) d) ∧
  (0 < sc)%R.
Proof.
  intros Hin. eapply elem_of_sublist in Hin; [|apply slice_to_sublist].
  rewrite sort_desc_perm in Hin.
  by apply scored_documents_elem in Hin as (Hd & -> & Hpos).
Qed.

End EngineSearch.

(** X17. [SearchEngine.search] on any store and a reachable index
    (normaliser and [top_k] as in C5) returns without raising.  The
    results are sorted by score, greatest first.  Each result has a score
    that is not below [min_score], is greater than 0, and is the
    similarity between the query vector and the vector of an
    indexed document under whose identifier the store holds the result's
    record.  Its matched keywords are tokens of the normalised query, in
    query order, and each of them is a whole token of the record's
    processed content. *)
Theorem engine_search_results (preprocess_text : string → string)
    (cs : list call) (dm : DocumentManager)
    (query : string) (top_k : Z) (min_score : R) :
  (∀ q, strip q = "" → preprocess_text q = "") →
  (∀ text, preprocess_text text ≠ "" → split (preprocess_text text) ≠ []) →
  0 ≤ top_k →
  let s := run preprocess_text cs in
  ∃ results,
    (SearchEngine_search preprocess_text query top_k min_score (mkEngine dm s)).1
    = Ok results ∧
    Sorted result_desc results ∧
    ∀ r, r ∈ results →
      ¬ (score r < min_score)%R ∧
      (0 < score r)%R ∧
      (∃ id, documents dm !! id = Some (document r) ∧
             is_Some (forward_index s !! id) ∧
             score r = similarity (query_vector preprocess_text s query)
                                  (document_vector s id)) ∧
      matched_keywords r `sublist_of` split (preprocess_text query) ∧
      (∀ kw, kw ∈ matched_keywords r →
             kw ∈ split (processed_content (document r))).
Proof.
  intros Hblank Htokens Hk s.
  destruct (decide (strip query = "")) as [Hq|Hq].
  { exists []. unfold SearchEngine_search. rewrite decide_True by done.
    split; [done|]. split; [constructor|]. intros r Hr. by apply elem_of_nil in Hr. }
  eexists. split; [by apply engine_search_value|].
  set (hits := slice_to (top_k * 2) _).
  split.
  - apply Sorted_take, StronglySorted_Sorted, omap_resolve_sorted.
    apply Sorted_StronglySorted; [exact score_desc_transitive|].
    apply slice_to_sorted, sort_desc_sorted.
  - intros r Hr. eapply elem_of_sublist in Hr; [|apply sublist_take].
    apply list_elem_of_omap in Hr as ([d sc] & Hin & Hres).
    apply resolve_hit_Some in Hres as (Hms & Hsc & Hdoc & Hkw). simpl in *.
    apply (index_hits_sound preprocess_text) in Hin as (Hd & Hsim & Hbound).
    split; [by rewrite Hsc|]. split; [by rewrite Hsc|]. split.
    { exists d. by rewrite Hsc. }
    rewrite Hkw.
    destruct (find_matched_keywords_sound (processed_content (document r))
                (query_keywords_of preprocess_text query)) as [Hsub Htok].
    split; [|done]. etransitivity; [exact Hsub | apply query_keywords_sublist].
Qed.

Lemma engine_search_results_witness :
  let s := run keep_text
             [AddDocument "d1" "cat dog cat"; AddDocument "d2" "dog bird"] in
  let dm := mkManager
              {["d1" := mkDocument "d1" "Pets" "cat dog cat" None [] "t0"
                                   "cat dog cat"]} in
  ∃ results,
    (SearchEngine_search keep_text "cat" 3 (1 / 100)%R (mkEngine dm s)).1
    = Ok results ∧
    Sorted result_desc results ∧
    ∀ r, r ∈ results →
      ¬ (score r < 1 / 100)%R ∧
      (0 < score r)%R ∧
      (∃ id, documents dm !! id = Some (document r) ∧
             is_Some (forward_index s !! id) ∧
             score r = similarity (query_vector keep_text s "cat")
                                  (document_vector s id)) ∧
      matched_keywords r `sublist_of` split (keep_text "cat") ∧
      (∀ kw, kw ∈ matched_keywords r →
             kw ∈ split (processed_content (document r))).
Proof.
  apply (engine_search_results keep_text
           [AddDocument "d1" "cat dog cat"; AddDocument "d2" "dog bird"]
           (mkManager
              {["d1" := mkDocument "d1" "Pets" "cat dog cat" None [] "t0"
                                   "cat dog cat"]})
           "cat" 3 (1 / 100)%R).
  - apply keep_text_blank.
  - apply keep_text_tokens.
  - lia.
Defined.

Lemma omap_resolve_all dm kw ms hits :
  (∀ hit, hit ∈ hits → is_Some (documents dm !! hit.1)) →
  length (omap (resolve_hit dm kw ms) hits)
  = length (filter (λ hit : string * R, ¬ (hit.2 < ms)%R) hits).
Proof.
  induction hits as [|hit hits IH]; intros Hall; [done|].
  change (omap (resolve_hit dm kw ms) (hit :: hits))
    with (match resolve_hit dm kw ms hit with
          | Some r => r :: omap (resolve_hit dm kw ms) hits
          | None => omap (resolve_hit dm kw ms) hits
          end).
  rewrite filter_cons.
  assert (∀ h, h ∈ hits → is_Some (documents dm !! h.1)) as Hrest.
  { intros h Hh. apply Hall, elem_of_cons. auto. }
  destruct (Hall hit) as [doc Hdoc]; [apply elem_of_cons; auto|].
  unfold resolve_hit at 1, DocumentManager_get_document. rewrite Hdoc.
  destruct (Rlt_dec hit.2 ms) as [Hlt|Hge].
  - rewrite decide_False by tauto. by apply IH.
  - rewrite decide_True by done. simpl. f_equal. by apply IH.
Qed.

(** X18. On an engine that has only been driven through its own
    methods (built on a store whose records sit under their own
    identifiers; normaliser and [top_k] as in C5), every hit the index
    returns has a record in the store, so no hit is skipped for a missing
    record: for a query that is not blank the number of results is the
    smaller of [top_k] and the number of hits whose score is not below
    [min_score]. *)
Theorem engine_search_resolves (preprocess_text : string → string)
    (hash : string → Z) (dm : DocumentManager) (ecs : list engine_call)
    (query : string) (top_k : Z) (min_score : R) :
  (∀ q, strip q = "" → preprocess_text q = "") →
  (∀ text, preprocess_text text ≠ "" → split (preprocess_text text) ≠ []) →
  keys_match dm →
  0 ≤ top_k →
  strip query ≠ "" →
  let e := engine_run preprocess_text hash dm ecs in
  ∃ hits results,
    (search preprocess_text query (top_k * 2) (index e)).1 = Ok hits ∧
    (SearchEngine_search preprocess_text query top_k min_score e).1 = Ok results ∧
    (∀ hit, hit ∈ hits →
       is_Some (DocumentManager_get_document hit.1 (document_manager e))) ∧
    Z.of_nat (length results)
    = Z.min top_k
        (Z.of_nat (length (filter (λ hit : string * R, ¬ (hit.2 < min_score)%R)
                                  hits))).
Proof.
  intros Hblank Htokens Hdm Hk Hq e.
  destruct (engine_run_ok preprocess_text hash dm ecs Hdm) as (_ & [ics Hidx] & Hsub).
  fold e in Hidx, Hsub.
  assert (e = mkEngine (document_manager e) (run preprocess_text ics)) as He.
  { rewrite <- Hidx. by destruct e. }
  destruct (search_returns preprocess_text ics query (top_k * 2) Hblank Htokens)
    as (idx & Hrun & _).
  set (hits := slice_to (top_k * 2) _) in Hrun.
  assert (∀ hit, hit ∈ hits → is_Some (documents (document_manager e) !! hit.1))
    as Hall.
  { intros [d sc] Hin. apply Hsub. rewrite Hidx.
    by apply (index_hits_sound preprocess_text) in Hin as (Hd & _). }
  exists hits. eexists. split; [by rewrite Hidx, Hrun|].
  split; [rewrite He; by apply engine_search_value|].
  split; [done|].
  fold hits. rewrite length_take, omap_resolve_all by done. lia.
Qed.

Lemma engine_search_resolves_witness :
  let e := engine_run keep_text (λ _, 7) (mkManager ∅)
             [EngineAdd "t0" "Pets" "cat dog cat" None None;
              EngineAdd "t1" "Birds" "dog bird" None None] in
  ∃ hits results,
    (search keep_text "cat" (3 * 2) (index e)).1 = Ok hits ∧
    (SearchEngine_search keep_text "cat" 3 (1 / 100)%R e).1 = Ok results ∧
    (∀ hit, hit ∈ hits →
       is_Some (DocumentManager_get_document hit.1 (document_manager e))) ∧
    Z.of_nat (length results)
    = Z.min 3
        (Z.of_nat (length (filter (λ hit : string * R, ¬ (hit.2 < 1 / 100)%R)
                                  hits))).
Proof.
  apply (engine_search_resolves keep_text (λ _, 7) (mkManager ∅)
           [EngineAdd "t0" "Pets" "cat dog cat" None None;
            EngineAdd "t1" "Birds" "dog bird" None None]
           "cat" 3 (1 / 100)%R).
  - apply keep_text_blank.
  - apply keep_text_tokens.
  - intros k doc. simpl. by rewrite lookup_empty.
  - lia.
  - vm_compute. discriminate.
Defined.

(** ** Rebuilding the index from the store *)

Lemma reindex_fold_index pre l e :
  index (foldl (reindex_step pre) e l)
  = foldl (λ s doc, add_document pre (doc_id doc) (content doc) s) (index e) l.
Proof. revert e. induction l as [|doc l IH]; intros e; [done|]. cbn [foldl]. by rewrite IH. Qed.

Lemma reindex_fold_store pre l e :
  document_manager (foldl (reindex_step pre) e l)
  = foldl (λ dm doc,
             DocumentManager_update_document_content (doc_id doc)
               (pre (content doc)) dm)
          (document_manager e) l.
Proof. revert e. induction l as [|doc l IH]; intros e; [done|]. cbn [foldl]. by rewrite IH. Qed.

Lemma refreshed_idemp pre doc : refreshed pre (refreshed pre doc) = refreshed pre doc.
Proof. done. Qed.

Lemma refresh_fold pre dm0 l st :
  (∀ doc, doc ∈ l → documents dm0 !! doc_id doc = Some doc) →
  (∀ k, documents st !! k = documents dm0 !! k ∨
        documents st !! k = refreshed pre <$> documents dm0 !! k) →
  let st' := foldl (λ dm doc,
                      DocumentManager_update_document_content (doc_id doc)
                        (pre (content doc)) dm) st l in
  (∀ k, documents st' !! k = documents dm0 !! k ∨
        documents st' !! k = refreshed pre <$> documents dm0 !! k) ∧
  (∀ k, documents st !! k = refreshed pre <$> documents dm0 !! k →
        documents st' !! k = refreshed pre <$> documents dm0 !! k) ∧
  (∀ doc, doc ∈ l → documents st' !! doc_id doc = Some (refreshed pre doc)).
Proof.
  revert st. induction l as [|doc l IH]; intros st Hl Hst; simpl.
  { split; [done|]. split; [done|]. intros doc Hin. by apply elem_of_nil in Hin. }
  set (st1 := DocumentManager_update_document_content (doc_id doc)
                (pre (content doc)) st).
  assert (documents dm0 !! doc_id doc = Some doc) as Hdoc
    by (apply Hl, elem_of_cons; auto).
  assert (documents st1 !! doc_id doc = Some (refreshed pre doc)) as Hnew.
  { unfold st1. rewrite update_document_content_lookup, decide_True by done.
    destruct (Hst (doc_id doc)) as [-> | ->]; rewrite Hdoc; done. }
  assert (∀ k, k ≠ doc_id doc → documents st1 !! k = documents st !! k) as Hold.
  { intros k Hk. unfold st1.
    by rewrite update_document_content_lookup, decide_False. }
  assert (∀ k, documents st1 !! k = documents dm0 !! k ∨
               documents st1 !! k = refreshed pre <$> documents dm0 !! k) as Hst1.
  { intros k. destruct (decide (k = doc_id doc)) as [->|Hk].
    - right. by rewrite Hnew, Hdoc.
    - rewrite Hold by done. apply Hst. }
  destruct (IH st1) as (Hinv & Hkeep & Hdone); [|done|].
  { intros doc' Hin. apply Hl, elem_of_cons. auto. }
  split; [done|]. split.
  - intros k Hk. apply Hkeep. destruct (decide (k = doc_id doc)) as [->|Hne].
    + by rewrite Hnew, Hdoc.
    + by rewrite Hold.
  - intros doc' [->|Hin]%elem_of_cons; [|by apply Hdone].
    rewrite Hkeep; by rewrite ?Hnew, Hdoc.
Qed.

Lemma refresh_store pre dm st :
  keys_match dm →
  documents st = documents dm →
  documents (foldl (λ dm doc,
                      DocumentManager_update_document_content (doc_id doc)
                        (pre (content doc)) dm) st (values (documents dm)))
  = refreshed pre <$> documents dm.
Proof.
  intros Hdm Hst.
  destruct (refresh_fold pre dm (values (documents dm)) st) as (Hinv & _ & Hdone).
  { intros doc [k Hk]%elem_of_values. by rewrite (Hdm k doc Hk). }
  { intros k. left. by rewrite Hst. }
  apply map_eq. intros k. rewrite lookup_fmap.
  destruct (documents dm !! k) as [doc|] eqn:Hk.
  - pose proof (Hdm k doc Hk) as Hid. rewrite <- Hid at 1.
    apply Hdone, elem_of_values. eauto.
  - destruct (Hinv k) as [-> | ->]; by rewrite Hk.
Qed.

Lemma reindex_fold_forward pre l s :
  NoDup (doc_id <$> l) →
  (∀ doc, doc ∈ l → forward_index s !! doc_id doc = None) →
  lengths_exact s →
  let s' := foldl (λ s doc, add_document pre (doc_id doc) (content doc) s) s l in
  (∀ doc, doc ∈ l → forward_index s' !! doc_id doc = fresh_entry pre doc) ∧
  (∀ k, k ∉ doc_id <$> l → forward_index s' !! k = forward_index s !! k) ∧
  lengths_exact s'.
Proof.
  revert s. induction l as [|doc l IH]; intros s Hnd Hl Hs; simpl.
  { split; [|done]. intros doc Hin. by apply elem_of_nil in Hin. }
  rewrite fmap_cons in Hnd. apply NoDup_cons in Hnd as [Hnotin Hnd].
  set (s1 := add_document pre (doc_id doc) (content doc) s).
  assert (forward_index s !! doc_id doc = None) as Hfresh
    by (apply Hl, elem_of_cons; auto).
  destruct (IH s1 Hnd) as (Hdone & Hkeep & Hexact).
  { intros doc' Hin. unfold s1.
    destruct (add_document_forward_other pre (doc_id doc) (content doc) s
                (doc_id doc')) as [-> _].
    - intros Heq. apply Hnotin. rewrite <- Heq. by apply list_elem_of_fmap_2.
    - apply Hl, elem_of_cons. auto. }
  { by apply add_document_lengths_exact. }
  split; [|split; [|done]].
  - intros doc' [->|Hin]%elem_of_cons; [|by apply Hdone].
    rewrite Hkeep by done. unfold s1. by rewrite add_document_fresh_entry.
  - intros k Hk. rewrite not_elem_of_cons in Hk. destruct Hk as [Hne Hk].
    rewrite Hkeep by done. unfold s1.
    by destruct (add_document_forward_other pre (doc_id doc) (content doc) s k Hne)
      as [-> _].
Qed.

Lemma keys_match_ids dm : keys_match dm → doc_id <$> values (documents dm) = keys (documents dm).
Proof.
  intros Hdm. unfold values, keys.
  assert (∀ kv, kv ∈ map_to_list (documents dm) → doc_id kv.2 = kv.1) as Hall.
  { intros [k doc] Hin. apply elem_of_map_to_list in Hin. by apply Hdm. }
  induction (map_to_list (documents dm)) as [|kv l IH]; [done|].
  rewrite !fmap_cons. f_equal.
  - apply Hall, elem_of_cons. auto.
  - apply IH. intros kv' Hin. apply Hall, elem_of_cons. auto.
Qed.

Lemma values_fmap {A B} (f : A → B) (m : gmap string A) :
  values (f <$> m) = f <$> values m.
Proof.
  unfold values. rewrite map_to_list_fmap, <- !list_fmap_compose.
  apply list_fmap_ext. by intros i [k x] _.
Qed.

Lemma reindex_fold_refreshed pre l s :
  foldl (λ s doc, add_document pre (doc_id doc) (content doc) s) s
        (refreshed pre <$> l)
  = foldl (λ s doc, add_document pre (doc_id doc) (content doc) s) s l.
Proof. revert s. induction l as [|doc l IH]; intros s; [done|]. simpl. by rewrite IH. Qed.

Lemma refreshed_keys_match pre dm :
  keys_match dm → keys_match (mkManager (refreshed pre <$> documents dm)).
Proof.
  intros Hdm k doc. simpl. rewrite lookup_fmap.
  intros (doc0 & Hdoc & ->)%fmap_Some. simpl. by apply Hdm.
Qed.

Lemma rebuild_store pre e :
  keys_match (document_manager e) →
  document_manager (SearchEngine_rebuild_index pre e)
  = mkManager (refreshed pre <$> documents (document_manager e)).
Proof.
  intros Hdm. unfold SearchEngine_rebuild_index, SearchEngine_reindex_documents,
    DocumentManager_get_all_documents.
  rewrite reindex_fold_store. cbn [document_manager].
  pose proof (refresh_store pre (document_manager e) (document_manager e) Hdm eq_refl)
    as Hst.
  destruct (foldl _ _ _) as [docs]. simpl in Hst. by rewrite Hst.
Qed.

(** X21. [rebuild_index] (and so the constructor, which runs the
    same loop on an empty index) on a store whose records sit under
    their own identifiers: every record keeps its fields and gets the
    normalised form of its own content as processed content; the forward
    entry of an identifier is the term count of the normalised content
    of the record stored under it, and there is none when there is no
    such record or no token; postings and stored lengths agree with
    these counts; and rebuilding a second time changes nothing. *)
Theorem rebuild_index_result (preprocess_text : string → string) (e : SearchEngine) :
  keys_match (document_manager e) →
  let e' := SearchEngine_rebuild_index preprocess_text e in
  documents (document_manager e')
  = refreshed preprocess_text <$> documents (document_manager e) ∧
  (∀ id, forward_index (index e') !! id
         = documents (document_manager e) !! id ≫= fresh_entry preprocess_text) ∧
  (∀ word id, lookup2 (inverted_index (index e')) word id
              = (documents (document_manager e) !! id
                   ≫= fresh_entry preprocess_text) ≫= (λ counts : gmap string Z, counts !! word)) ∧
  (∀ id doc, documents (document_manager e) !! id = Some doc →
             split (preprocess_text (content doc)) ≠ [] →
             document_lengths (index e') !! id
             = Some (Z.of_nat (length (split (preprocess_text (content doc)))))) ∧
  total_documents (index e') = Z.of_nat (size (forward_index (index e'))) ∧
  SearchEngine_rebuild_index preprocess_text e' = e'.
Proof.
  intros Hdm e'.
  pose proof (rebuild_store preprocess_text e Hdm) as Hstore. fold e' in Hstore.
  assert (index e'
          = foldl (λ s doc, add_document preprocess_text (doc_id doc) (content doc) s)
                  empty_index (values (documents (document_manager e)))) as Hindex.
  { unfold e', SearchEngine_rebuild_index, SearchEngine_reindex_documents,
      DocumentManager_get_all_documents. by rewrite reindex_fold_index. }
  destruct (reindex_fold_forward preprocess_text
              (values (documents (document_manager e))) empty_index)
    as (Hdone & Hkeep & Hexact).
  { rewrite keys_match_ids by done. apply NoDup_keys. }
  { intros doc _. simpl. apply lookup_empty. }
  { intros d m. simpl. by rewrite lookup_empty. }
  rewrite <- Hindex in Hdone, Hkeep, Hexact.
  assert (∀ id, forward_index (index e') !! id
                = documents (document_manager e) !! id ≫= fresh_entry preprocess_text)
    as Hforward.
  { intros id. destruct (documents (document_manager e) !! id) as [doc|] eqn:Hid.
    - pose proof (Hdm id doc Hid) as Hk. simpl. rewrite <- Hk.
      apply Hdone, elem_of_values. eauto.
    - simpl. rewrite Hkeep; [apply lookup_empty|].
      rewrite keys_match_ids by done. rewrite elem_of_keys, Hid. by intros [? ?]. }
  assert (wf (index e')) as Hwf.
  { destruct (init_ok preprocess_text (document_manager e) Hdm) as (_ & [ics Hics] & _).
    unfold e', SearchEngine_rebuild_index. cbn [document_manager].
    unfold SearchEngine_init in Hics. rewrite Hics. apply run_wf. }
  split; [by rewrite Hstore|]. split; [done|]. split; [|split; [|split]].
  - intros word id. rewrite (wf_agree _ Hwf). unfold lookup2.
    rewrite Hforward. by destruct (documents (document_manager e) !! id ≫= _).
  - intros id doc Hid Htok.
    pose proof (Hforward id) as Hf. rewrite Hid in Hf. simpl in Hf.
    unfold fresh_entry in Hf. rewrite decide_False in Hf by done.
    rewrite (Hexact _ _ Hf). by rewrite Counter_sum.
  - apply (wf_total _ Hwf).
  - assert (keys_match (document_manager e')) as Hdm'.
    { rewrite Hstore. by apply refreshed_keys_match. }
    pose proof (rebuild_store preprocess_text e' Hdm') as Hstore'.
    assert (index (SearchEngine_rebuild_index preprocess_text e') = index e') as Hindex'.
    { unfold SearchEngine_rebuild_index at 1, SearchEngine_reindex_documents,
        DocumentManager_get_all_documents.
      rewrite reindex_fold_index. cbn [document_manager index].
      rewrite Hstore. cbn [documents].
      by rewrite values_fmap, reindex_fold_refreshed, Hindex. }
    assert (document_manager (SearchEngine_rebuild_index preprocess_text e')
            = document_manager e') as Hstore2.
    { rewrite Hstore', Hstore. cbn [documents]. f_equal.
      rewrite <- map_fmap_compose. apply map_fmap_ext. by intros k doc _. }
    clearbody e'.
    destruct (SearchEngine_rebuild_index preprocess_text e') as [dm2 idx2].
    destruct e' as [dm1 idx1]. simpl in Hstore2, Hindex'. by rewrite Hstore2, Hindex'.
Qed.

Lemma rebuild_index_result_witness :
  let dm := mkManager
              {["d1" := mkDocument "d1" "Pets" "cat dog cat" None [] "t0" ""]} in
  let e := mkEngine dm empty_index in
  let e' := SearchEngine_rebuild_index keep_text e in
  documents (document_manager e')
  = refreshed keep_text <$> documents (document_manager e) ∧
  (∀ id, forward_index (index e') !! id
         = documents (document_manager e) !! id ≫= fresh_entry keep_text) ∧
  (∀ word id, lookup2 (inverted_index (index e')) word id
              = (documents (document_manager e) !! id
                   ≫= fresh_entry keep_text) ≫= (λ counts : gmap string Z, counts !! word)) ∧
  (∀ id doc, documents (document_manager e) !! id = Some doc →
             split (keep_text (content doc)) ≠ [] →
             document_lengths (index e') !! id
             = Some (Z.of_nat (length (split (keep_text (content doc)))))) ∧
  total_documents (index e') = Z.of_nat (size (forward_index (index e'))) ∧
  SearchEngine_rebuild_index keep_text e' = e'.
Proof.
  apply (rebuild_index_result keep_text
           (mkEngine
              (mkManager
                 {["d1" := mkDocument "d1" "Pets" "cat dog cat" None [] "t0" ""]})
              empty_index)).
  intros k doc. simpl. intros [<- <-]%lookup_singleton_Some. done.
Defined.

(** ** Adding a document through the engine *)

Lemma add_document_store_fresh hash now new_title new_content fp md dm :
  (∀ k doc, documents dm !! k = Some doc → content doc ≠ new_content) →
  DocumentManager_add_document hash now new_title new_content fp md dm
  = (new_doc_id hash dm new_content,
     mkManager (<[new_doc_id hash dm new_content :=
                    mkDocument (new_doc_id hash dm new_content) new_title
                      new_content fp (default [] md) now ""]> (documents dm))).
Proof.
  intros Hnone. apply add_document_store_new.
  apply list_find_None, Forall_forall. intros doc [k Hk]%elem_of_values.
  by eapply Hnone.
Qed.

(** X19. [SearchEngine.add_document] on a store whose records sit under
    their own identifiers.  The identifier it returns names a record
    with the given content whose processed content is the normalised
    content; no record under another identifier changes; the index is
    the result of [DocumentIndex.add_document] for the returned
    identifier.  When a record with this content existed already, the
    identifier is that of such a record, which only gets its processed
    content set; otherwise the identifier is the newly built one and the
    record under it carries the given title, path and metadata. *)
Theorem engine_add_document_stores (preprocess_text : string → string)
    (hash : string → Z) (now new_title new_content : string)
    (new_file_path : option string)
    (new_metadata : option (list (string * string))) (e : SearchEngine) :
  keys_match (document_manager e) →
  let out := SearchEngine_add_document preprocess_text hash now new_title
               new_content new_file_path new_metadata e in
  let old := documents (document_manager e) in
  let new := documents (document_manager out.2) in
  (∃ doc, DocumentManager_get_document out.1 (document_manager out.2) = Some doc ∧
          doc_id doc = out.1 ∧ content doc = new_content ∧
          processed_content doc = preprocess_text new_content) ∧
  (∀ k, k ≠ out.1 → new !! k = old !! k) ∧
  index out.2 = add_document preprocess_text out.1 new_content (index e) ∧
  ((∃ k doc, old !! k = Some doc ∧ content doc = new_content) →
   ∃ doc, old !! out.1 = Some doc ∧ content doc = new_content ∧
          new !! out.1
          = Some (with_processed_content (preprocess_text new_content) doc)) ∧
  ((∀ k doc, old !! k = Some doc → content doc ≠ new_content) →
   out.1 = new_doc_id hash (document_manager e) new_content ∧
   new !! out.1
   = Some (mkDocument out.1 new_title new_content new_file_path
             (default [] new_metadata) now (preprocess_text new_content))).
Proof.
  intros Hdm out old new. subst out old new.
  unfold SearchEngine_add_document, DocumentManager_get_document.
  destruct (list_find (λ existing_doc, content existing_doc = new_content)
              (values (documents (document_manager e)))) as [[i doc]|] eqn:Hfind.
  - destruct (add_document_store_existing hash now new_title new_content
                new_file_path new_metadata _ i doc Hfind) as (-> & Hc & k & Hk).
    pose proof (Hdm k doc Hk) as Hid. rewrite Hid. cbn [fst snd document_manager index].
    assert (documents (DocumentManager_update_document_content k
                         (preprocess_text new_content) (document_manager e)) !! k
            = Some (with_processed_content (preprocess_text new_content) doc))
      as Hnew.
    { by rewrite update_document_content_lookup, decide_True, Hk. }
    split; [|split; [|split; [|split]]].
    + eexists. split; [exact Hnew|]. simpl. auto.
    + intros k' Hk'. by rewrite update_document_content_lookup, decide_False.
    + done.
    + intros _. eauto.
    + intros Hnone. exfalso. by eapply Hnone.
  - destruct (add_document_store_new hash now new_title new_content
                new_file_path new_metadata _ Hfind) as (-> & Hnone).
    cbn [fst snd document_manager index].
    set (id := new_doc_id hash (document_manager e) new_content).
    assert (documents (DocumentManager_update_document_content id
                         (preprocess_text new_content)
                         (mkManager (<[id := mkDocument id new_title new_content
                                             new_file_path (default [] new_metadata)
                                             now ""]>
                                       (documents (document_manager e))))) !! id
            = Some (mkDocument id new_title new_content new_file_path
                      (default [] new_metadata) now (preprocess_text new_content)))
      as Hnew.
    { rewrite update_document_content_lookup, decide_True by done. simpl.
      by rewrite lookup_insert_eq. }
    split; [|split; [|split; [|split]]].
    + eexists. split; [exact Hnew|]. done.
    + intros k' Hk'. rewrite update_document_content_lookup, decide_False by done.
      simpl. by rewrite lookup_insert_ne.
    + done.
    + intros (k & doc & Hk & Hc). exfalso. by eapply Hnone.
    + done.
Qed.

Lemma engine_add_document_stores_witness :
  let e := mkEngine (mkManager ∅) empty_index in
  let out := SearchEngine_add_document keep_text (λ _, 7) "t0" "Pets"
               "cat dog cat" None None e in
  let old := documents (document_manager e) in
  let new := documents (document_manager out.2) in
  (∃ doc, DocumentManager_get_document out.1 (document_manager out.2) = Some doc ∧
          doc_id doc = out.1 ∧ content doc = "cat dog cat" ∧
          processed_content doc = keep_text "cat dog cat") ∧
  (∀ k, k ≠ out.1 → new !! k = old !! k) ∧
  index out.2 = add_document keep_text out.1 "cat dog cat" (index e) ∧
  ((∃ k doc, old !! k = Some doc ∧ content doc = "cat dog cat") →
   ∃ doc, old !! out.1 = Some doc ∧ content doc = "cat dog cat" ∧
          new !! out.1
          = Some (with_processed_content (keep_text "cat dog cat") doc)) ∧
  ((∀ k doc, old !! k = Some doc → content doc ≠ "cat dog cat") →
   out.1 = new_doc_id (λ _, 7) (document_manager e) "cat dog cat" ∧
   new !! out.1
   = Some (mkDocument out.1 "Pets" "cat dog cat" None (default [] None) "t0"
             (keep_text "cat dog cat"))).
Proof.
  apply (engine_add_document_stores keep_text (λ _, 7) "t0" "Pets" "cat dog cat"
           None None (mkEngine (mkManager ∅) empty_index)).
  intros k doc. simpl. by rewrite lookup_empty.
Defined.

Lemma doc_id_first_second x y : "doc_1_" +:+ x ≠ "doc_2_" +:+ y.
Proof. intros Heq. cbv [String.append] in Heq. discriminate Heq. Qed.

Lemma new_doc_id_first hash a :
  new_doc_id hash (mkManager ∅) a = "doc_1_" +:+ pretty (hash a `mod` 10000).
Proof. done. Qed.

Lemma new_doc_id_second hash k doc b :
  new_doc_id hash (mkManager {[k := doc]}) b
  = "doc_2_" +:+ pretty (hash b `mod` 10000).
Proof. unfold new_doc_id. cbn [documents]. by rewrite map_size_singleton. Qed.

(** X20. Identifiers are built from the number of stored records
    and the content hash modulo 10000, so they can repeat once a record
    has been deleted.  Starting from an empty store: add content [a],
    add a different content [b], delete the first record, add a content
    [c] other than [b] whose hash agrees with that of [b] modulo 10000.
    The record of [b] is stored before the last call; the last call
    returns the identifier of [b], and afterwards every stored record
    has content [c]: the record of [b] has been replaced. *)
Theorem add_document_identifier_collision (hash : string → Z)
    (now1 now2 now3 title1 title2 title3 a b c : string) :
  a ≠ b → b ≠ c →
  hash b `mod` 10000 = hash c `mod` 10000 →
  let r1 := DocumentManager_add_document hash now1 title1 a None None (mkManager ∅) in
  let r2 := DocumentManager_add_document hash now2 title2 b None None r1.2 in
  let r3 := DocumentManager_delete_document r1.1 r2.2 in
  let r4 := DocumentManager_add_document hash now3 title3 c None None r3.2 in
  r3.1 = true ∧
  (∃ doc, DocumentManager_get_document r2.1 r3.2 = Some doc ∧ content doc = b) ∧
  r4.1 = r2.1 ∧
  (∀ k doc, documents r4.2 !! k = Some doc → content doc = c).
Proof.
  intros Hab Hbc Hhash r1 r2 r3 r4.
  pose proof (doc_id_first_second (pretty (hash a `mod` 10000))
                (pretty (hash b `mod` 10000))) as Hids.
  remember ("doc_1_" +:+ pretty (hash a `mod` 10000)) as ida eqn:Hida.
  remember ("doc_2_" +:+ pretty (hash b `mod` 10000)) as idb eqn:Hidb.
  remember (mkDocument ida title1 a None [] now1 "") as A eqn:HA.
  remember (mkDocument idb title2 b None [] now2 "") as B eqn:HB.
  remember (mkDocument idb title3 c None [] now3 "") as C eqn:HC.
  assert (content A = a) as HcA by (by rewrite HA).
  assert (content B = b) as HcB by (by rewrite HB).
  assert (content C = c) as HcC by (by rewrite HC).
  assert (r1 = (ida, mkManager {[ida := A]})) as H1.
  { unfold r1. rewrite add_document_store_fresh.
    - by rewrite new_doc_id_first, <- Hida, HA.
    - intros k doc. cbn [documents]. by rewrite lookup_empty. }
  assert (r2 = (idb, mkManager (<[idb := B]> {[ida := A]}))) as H2.
  { unfold r2. rewrite H1. cbn [snd]. rewrite add_document_store_fresh.
    - by rewrite new_doc_id_second, <- Hidb, HB.
    - intros k doc. cbn [documents]. intros [_ <-]%lookup_singleton_Some. congruence. }
  assert (r3 = (true, mkManager {[idb := B]})) as H3.
  { unfold r3, DocumentManager_delete_document. rewrite H1, H2. cbn [fst snd documents].
    rewrite decide_True.
    - f_equal. f_equal. apply map_eq. intros k.
      destruct (decide (k = ida)) as [->|Hka].
      + by rewrite lookup_delete_eq, lookup_singleton_ne.
      + rewrite lookup_delete_ne by done.
        destruct (decide (k = idb)) as [->|Hkb].
        * by rewrite lookup_insert_eq, lookup_singleton_eq.
        * by rewrite lookup_insert_ne, !lookup_singleton_ne.
    - apply elem_of_dom. rewrite lookup_insert_ne, lookup_singleton_eq by done. eauto. }
  assert (r4 = (idb, mkManager (<[idb := C]> {[idb := B]}))) as H4.
  { unfold r4. rewrite H3. cbn [snd]. rewrite add_document_store_fresh.
    - by rewrite new_doc_id_second, <- Hhash, <- Hidb, HC.
    - intros k doc. cbn [documents]. intros [_ <-]%lookup_singleton_Some. congruence. }
  clearbody r1 r2 r3 r4. subst r1 r2 r3 r4. cbn [fst snd].
  clear Hida Hidb HA HB HC.
  split; [done|]. split; [|split; [done|]].
  - exists B. unfold DocumentManager_get_document. cbn [documents].
    split; [apply lookup_singleton_eq | exact HcB].
  - intros k doc. cbn [documents]. destruct (decide (k = idb)) as [->|Hk].
    + rewrite lookup_insert_eq. intros [= <-]. exact HcC.
    + rewrite lookup_insert_ne by done. rewrite lookup_singleton_ne by done. done.
Qed.

Lemma add_document_identifier_collision_witness :
  let hash := λ _ : string, 7 in
  let r1 := DocumentManager_add_document hash "t1" "A" "cat" None None (mkManager ∅) in
  let r2 := DocumentManager_add_document hash "t2" "B" "dog" None None r1.2 in
  let r3 := DocumentManager_delete_document r1.1 r2.2 in
  let r4 := DocumentManager_add_document hash "t3" "C" "bird" None None r3.2 in
  r3.1 = true ∧
  (∃ doc, DocumentManager_get_document r2.1 r3.2 = Some doc ∧ content doc = "dog") ∧
  r4.1 = r2.1 ∧
  (∀ k doc, documents r4.2 !! k = Some doc → content doc = "bird").
Proof.
  apply (add_document_identifier_collision (λ _, 7) "t1" "t2" "t3" "A" "B" "C"
           "cat" "dog" "bird"); done.
Defined.

(** ** Snippets *)

Lemma substring_length n m s : (String.length (substring n m s) ≤ m)%nat.
Proof.
  revert n m. induction s as [|c s IH]; intros n m.
  - destruct n, m; simpl; lia.
  - destruct n as [|n]; [destruct m as [|m]|]; simpl.
    + lia.
    + specialize (IH 0%nat m). lia.
    + apply IH.
Qed.

Lemma append_cons c s t : String c s +:+ t = String c (s +:+ t).
Proof. reflexivity. Qed.

Lemma append_nil_r s : s +:+ "" = s.
Proof. induction s as [|c s IH]; [done|]. by rewrite append_cons, IH. Qed.

Lemma append_assoc s1 s2 s3 : (s1 +:+ s2) +:+ s3 = s1 +:+ s2 +:+ s3.
Proof. induction s1 as [|c s1 IH]; [done|]. by rewrite !append_cons, IH. Qed.

Lemma append_length s1 s2 :
  String.length (s1 +:+ s2) = (String.length s1 + String.length s2)%nat.
Proof.
  induction s1 as [|c s1 IH]; [done|]. rewrite append_cons. simpl. by rewrite IH.
Qed.

Lemma str_slice_length s start stop m :
  0 ≤ start → 0 ≤ stop → stop ≤ start + m → 0 ≤ m →
  Z.of_nat (String.length (str_slice s start stop)) ≤ m.
Proof.
  intros Ha Hb Hab Hm. unfold str_slice, slice_index.
  rewrite !decide_False by lia.
  pose proof (substring_length
                (Z.to_nat (Z.of_nat (String.length s) `min` start))
                (Z.to_nat (stop `min` Z.of_nat (String.length s)
                           - start `min` Z.of_nat (String.length s))) s) as Hlen.
  rewrite (Z.min_comm (Z.of_nat (String.length s))) in Hlen. lia.
Qed.

Lemma str_slice_whole s start stop :
  ∃ n m, str_slice s start stop = substring n m s.
Proof. unfold str_slice. eauto. Qed.

Lemma snippet_around_shape doc_content max_length pos :
  0 ≤ max_length →
  ∃ before body after,
    snippet_around doc_content max_length pos = before +:+ body +:+ after ∧
    ellipsis_or_empty before ∧ ellipsis_or_empty after ∧
    (∃ n m, body = substring n m doc_content) ∧
    Z.of_nat (String.length body) ≤ max_length.
Proof.
  intros Hm. unfold snippet_around.
  set (start := Z.max 0 (pos - max_length `div` 2)).
  set (stop := Z.min (Z.of_nat (String.length doc_content)) (start + max_length)).
  set (body := str_slice doc_content start stop).
  assert (Z.of_nat (String.length body) ≤ max_length) as Hlen.
  { apply str_slice_length; unfold stop, start; lia. }
  destruct (decide (0 < start)); destruct (decide (stop < _)).
  - exists "...", body, "...". rewrite append_assoc. unfold ellipsis_or_empty.
    split; [done|]. split; [auto|]. split; [auto|]. split; [apply str_slice_whole|done].
  - exists "...", body, "". rewrite append_nil_r. unfold ellipsis_or_empty.
    split; [done|]. split; [auto|]. split; [auto|]. split; [apply str_slice_whole|done].
  - exists "", body, "...". unfold ellipsis_or_empty.
    split; [done|]. split; [auto|]. split; [auto|]. split; [apply str_slice_whole|done].
  - exists "", body, "". rewrite append_nil_r. unfold ellipsis_or_empty.
    split; [done|]. split; [auto|]. split; [auto|]. split; [apply str_slice_whole|done].
Qed.

Lemma snippet_loop_shape lower doc_content content_lower max_length keywords :
  0 ≤ max_length →
  ∃ before body after,
    snippet_loop lower doc_content content_lower max_length keywords
    = before +:+ body +:+ after ∧
    ellipsis_or_empty before ∧ ellipsis_or_empty after ∧
    (∃ n m, body = substring n m doc_content) ∧
    Z.of_nat (String.length body) ≤ max_length.
Proof.
  intros Hm. induction keywords as [|keyword rest IH]; simpl.
  - exists "", (str_slice doc_content 0 max_length), "...".
    unfold ellipsis_or_empty.
    split; [done|]. split; [auto|]. split; [auto|].
    split; [apply str_slice_whole|]. apply str_slice_length; lia.
  - case_decide; [by apply snippet_around_shape | exact IH].
Qed.

Lemma ellipsis_length s : ellipsis_or_empty s → (String.length s ≤ 3)%nat.
Proof. intros [-> | ->]; simpl; lia. Qed.

(** X22. The snippet of a search result, for a length limit that is
    not negative (the constructor uses 200) and whatever [str.lower]
    does.  A content no longer than the limit is returned as it is.  A
    longer one gives a contiguous piece of the content of at most
    [max_length] characters, with ["..."] or nothing in front of it and
    after it, so the snippet has at most [max_length + 6] characters;
    when no matched keyword occurs in the lower-cased content the
    snippet is the first [max_length] characters followed by ["..."]. *)
Theorem snippet_bounded (lower : string → string) (max_length : Z)
    (r : SearchResult) :
  0 ≤ max_length →
  let doc_content := content (document r) in
  let snippet := SearchResult_generate_snippet lower max_length r in
  (Z.of_nat (String.length doc_content) ≤ max_length → snippet = doc_content) ∧
  (max_length < Z.of_nat (String.length doc_content) →
   ∃ before body after,
     snippet = before +:+ body +:+ after ∧
     ellipsis_or_empty before ∧ ellipsis_or_empty after ∧
     (∃ n m, body = substring n m doc_content) ∧
     Z.of_nat (String.length body) ≤ max_length) ∧
  (max_length < Z.of_nat (String.length doc_content) →
   (∀ keyword, keyword ∈ matched_keywords r →
               str_find (lower doc_content) (lower keyword) = -1) →
   snippet = substring 0 (Z.to_nat max_length) doc_content +:+ "...") ∧
  Z.of_nat (String.length snippet) ≤ max_length + 6.
Proof.
  intros Hm doc_content snippet. subst snippet.
  unfold SearchResult_generate_snippet. fold doc_content.
  destruct (decide (Z.of_nat (String.length doc_content) ≤ max_length)) as [Hshort|Hlong].
  - split; [done|]. split; [lia|]. split; [lia|]. lia.
  - split; [lia|]. split; [|split].
    + intros _. by apply snippet_loop_shape.
    + intros _ Hnone. induction (matched_keywords r) as [|keyword rest IH]; simpl.
      * unfold str_slice, slice_index. rewrite !decide_False by lia.
        rewrite Z.min_l, Z.min_l by lia. by rewrite Z.sub_0_r.
      * rewrite decide_False.
        -- apply IH. intros kw Hin. apply Hnone, elem_of_cons. auto.
        -- intros Hpos. apply Hpos, Hnone, elem_of_cons. auto.
    + destruct (snippet_loop_shape lower doc_content (lower doc_content) max_length
                  (matched_keywords r) Hm)
        as (before & body & after & -> & Hb & Ha & _ & Hlen).
      apply ellipsis_length in Hb, Ha. rewrite !append_length. lia.
Qed.

Lemma snippet_bounded_witness :
  let r := mkResult (mkDocument "d1" "Pets" "one two cat three four" None [] "t0"
                                "one two cat three four")
                    (1 / 2)%R ["cat"] in
  let doc_content := content (document r) in
  let snippet := SearchResult_generate_snippet (λ s, s) 6 r in
  (Z.of_nat (String.length doc_content) ≤ 6 → snippet = doc_content) ∧
  (6 < Z.of_nat (String.length doc_content) →
   ∃ before body after,
     snippet = before +:+ body +:+ after ∧
     ellipsis_or_empty before ∧ ellipsis_or_empty after ∧
     (∃ n m, body = substring n m doc_content) ∧
     Z.of_nat (String.length body) ≤ 6) ∧
  (6 < Z.of_nat (String.length doc_content) →
   (∀ keyword, keyword ∈ matched_keywords r →
               str_find ((λ s, s) doc_content) ((λ s, s) keyword) = -1) →
   snippet = substring 0 (Z.to_nat 6) doc_content +:+ "...") ∧
  Z.of_nat (String.length snippet) ≤ 6 + 6.
Proof.
  apply (snippet_bounded (λ s, s) 6
           (mkResult (mkDocument "d1" "Pets" "one two cat three four" None [] "t0"
                                 "one two cat three four")
                     (1 / 2)%R ["cat"])).
  lia.
Defined.

(** ** The range of the inverse document frequency *)

Lemma postings_dom s w p :
  wf s → inverted_index s !! w = Some p → dom p ⊆ dom (forward_index s).
Proof.
  intros Hwf Hw d [c Hd]%elem_of_dom.
  assert (lookup2 (forward_index s) d w = Some c) as Hf.
  { rewrite <- (wf_agree _ Hwf). apply lookup2_Some. eauto. }
  apply lookup2_Some in Hf as (m & Hm & _). apply elem_of_dom. eauto.
Qed.

Lemma postings_size s w p :
  wf s → inverted_index s !! w = Some p →
  1 ≤ Z.of_nat (size p) ≤ total_documents s.
Proof.
  intros Hwf Hw. destruct (wf_corpus_positive s w p Hwf Hw) as [Hp _].
  split; [lia|]. rewrite (wf_total _ Hwf).
  rewrite <- (size_dom (D := gset string) p).
  rewrite <- (size_dom (D := gset string) (forward_index s)).
  apply inj_le, subseteq_size. by eapply postings_dom.
Qed.

Lemma ln_ge_1 x : (1 <= x)%R → (0 <= ln x)%R.
Proof.
  intros [Hlt | <-]; [|rewrite ln_1; lra].
  rewrite <- ln_1. left. apply ln_increasing; lra.
Qed.

Lemma ln_monotone x y : (0 < x)%R → (x <= y)%R → (ln x <= ln y)%R.
Proof. intros Hx [Hlt | ->]; [left; by apply ln_increasing | lra]. Qed.

Lemma idf_from_scratch_range s w :
  wf s →
  (0 <= idf_from_scratch s w <= ln (IZR (Z.max 1 (total_documents s))))%R.
Proof.
  intros Hwf. unfold idf_from_scratch.
  destruct (inverted_index s !! w) as [p|] eqn:Hw.
  - destruct (postings_size s w p Hwf Hw) as [Hp Ht].
    assert (1 <= IZR (Z.of_nat (size p)))%R as Hp' by (apply IZR_le; lia).
    assert (IZR (Z.of_nat (size p)) <= IZR (total_documents s))%R as Ht'
      by (by apply IZR_le).
    rewrite Z.max_r by lia. split.
    + apply ln_ge_1. apply Rle_trans with (IZR (Z.of_nat (size p)) / IZR (Z.of_nat (size p)))%R.
      * right. field. lra.
      * apply Rmult_le_compat_r; [|done]. left. apply Rinv_0_lt_compat. lra.
    + apply ln_monotone.
      * apply Rdiv_lt_0_compat; lra.
      * apply Rle_trans with (IZR (total_documents s) / 1)%R; [|right; field].
        apply Rmult_le_compat_l; [lra|]. apply Rinv_le_contravar; lra.
  - split; [lra|]. apply ln_ge_1, IZR_le. lia.
Qed.

Lemma idf_from_scratch_zero s w :
  wf s →
  idf_from_scratch s w = 0%R ↔
  (∀ d, lookup2 (forward_index s) d w = None) ∨
  (∀ d, is_Some (forward_index s !! d) → is_Some (lookup2 (forward_index s) d w)).
Proof.
  intros Hwf. unfold idf_from_scratch.
  destruct (inverted_index s !! w) as [p|] eqn:Hw.
  - destruct (postings_size s w p Hwf Hw) as [Hp Ht].
    pose proof (postings_dom s w p Hwf Hw) as Hsub.
    assert (∀ d, lookup2 (forward_index s) d w = p !! d) as Hlook.
    { intros d. rewrite <- (wf_agree _ Hwf). unfold lookup2. by rewrite Hw. }
    split.
    + intros Hln. right. intros d Hd. rewrite Hlook. apply elem_of_dom.
      assert (IZR (total_documents s) / IZR (Z.of_nat (size p)) = 1)%R as Hone.
      { apply ln_inv; [apply Rdiv_lt_0_compat; apply IZR_lt; lia | lra |].
        by rewrite ln_1. }
      assert (total_documents s = Z.of_nat (size p)) as Hsize.
      { apply eq_IZR.
        assert (0 < IZR (Z.of_nat (size p)))%R by (apply IZR_lt; lia).
        apply (Rmult_eq_reg_r (/ IZR (Z.of_nat (size p))));
          [|apply Rinv_neq_0_compat; lra].
        rewrite Rinv_r by lra. exact Hone. }
      assert (dom p = dom (forward_index s)) as ->.
      { apply set_subseteq_size_eq; [done|].
        rewrite !size_dom. rewrite (wf_total _ Hwf) in Hsize. lia. }
      by apply elem_of_dom.
    + intros [Hnone | Hall].
      * exfalso. assert (p ≠ ∅) as Hne by (by eapply wf_nonempty).
        apply Hne, map_eq. intros d. by rewrite <- Hlook, Hnone, lookup_empty.
      * assert (dom (forward_index s) ⊆ dom p) as Hsup.
        { intros d Hd%elem_of_dom. apply elem_of_dom. rewrite <- Hlook. by apply Hall. }
        assert (Z.of_nat (size p) = total_documents s) as <-.
        { rewrite (wf_total _ Hwf).
          rewrite <- (size_dom (D := gset string) p).
          rewrite <- (size_dom (D := gset string) (forward_index s)).
          f_equal. f_equal. apply set_eq. intros d. split; [apply Hsub | apply Hsup]. }
        replace (IZR (Z.of_nat (size p)) / IZR (Z.of_nat (size p)))%R with 1%R;
          [apply ln_1|].
        field. apply not_0_IZR. lia.
  - split; [|done]. intros _. left. intros d.
    rewrite <- (wf_agree _ Hwf). unfold lookup2. by rewrite Hw.
Qed.

(** X8. On every reachable index [calculate_idf] returns a value
    between 0 and [ln N], [N] being the number of indexed documents (0
    on an empty index), and the value is 0 exactly when the term occurs
    in no indexed document or in every one of them. *)
Theorem idf_range (preprocess_text : string → string) (cs : list call)
    (word : string) :
  let s := run preprocess_text cs in
  ∃ idf,
    (calculate_idf word s).1 = Ok idf ∧
    (0 <= idf <= ln (IZR (Z.max 1 (total_documents s))))%R ∧
    (idf = 0%R ↔
     (∀ d, lookup2 (forward_index s) d word = None) ∨
     (∀ d, is_Some (forward_index s !! d) →
           is_Some (lookup2 (forward_index s) d word))).
Proof.
  intros s. pose proof (run_wf preprocess_text cs) as Hwf. fold s in Hwf.
  exists (idf_from_scratch s word). split; [|split].
  - destruct (calculate_idf_value s word Hwf s) as (r & s' & -> & _ & ->); [|done].
    split; [apply same_index_refl | apply Hwf].
  - by apply idf_from_scratch_range.
  - by apply idf_from_scratch_zero.
Qed.

(** ** Hits share a term with the query *)

Lemma sum_float_nonzero {A} (f : A → R) l :
  sum_float (f <$> l) ≠ 0%R → ∃ x, x ∈ l ∧ f x ≠ 0%R.
Proof.
  induction l as [|x l IH]; [by intros []|].
  rewrite fmap_cons, sum_float_cons. intros Hsum.
  destruct (Req_dec_T (f x) 0) as [Hx|Hx].
  - destruct IH as (y & Hy & Hfy); [lra|]. exists y. split; [|done].
    apply elem_of_cons. auto.
  - exists x. split; [apply elem_of_cons; auto | done].
Qed.

Lemma similarity_positive_common v1 v2 :
  (0 < similarity v1 v2)%R →
  ∃ w x y, v1 !! w = Some x ∧ v2 !! w = Some y ∧ x ≠ 0%R ∧ y ≠ 0%R.
Proof.
  unfold similarity. rewrite cosine_unfold.
  case_decide; [lra|].
  destruct (Req_dec_T (l2_norm v1) 0); [lra|].
  destruct (Req_dec_T (l2_norm v2) 0); [lra|].
  intros Hpos.
  destruct (sum_float_nonzero (λ word, getitem v1 word * getitem v2 word)%R
              (elements (dom v1 ∩ dom v2))) as (w & Hw & Hprod).
  { intros Hz. rewrite Hz in Hpos. unfold Rdiv in Hpos. rewrite Rmult_0_l in Hpos. lra. }
  apply elem_of_elements, elem_of_intersection in Hw as [[x Hx]%elem_of_dom [y Hy]%elem_of_dom].
  unfold getitem in Hprod. rewrite Hx, Hy in Hprod. simpl in Hprod.
  exists w, x, y. split; [done|]. split; [done|].
  split; intros ->; apply Hprod; lra.
Qed.

Lemma query_vector_lookup pre s q w :
  query_vector pre s q !! w
  = (λ c, (IZR c * idf_from_scratch s w)%R) <$> Counter (split (pre q)) !! w.
Proof. unfold query_vector. rewrite map_lookup_imap. by destruct (_ !! w). Qed.

Lemma hit_shares_term pre s q d :
  wf s →
  (0 < similarity (query_vector pre s q) (document_vector s d))%R →
  ∃ w c, w ∈ split (pre q) ∧
         lookup2 (forward_index s) d w = Some c ∧
         (0 < idf_from_scratch s w)%R.
Proof.
  intros Hwf (w & x & y & Hx & Hy & Hx0 & _)%similarity_positive_common.
  rewrite query_vector_lookup in Hx. rewrite document_vector_lookup in Hy.
  apply fmap_Some in Hx as (n & Hn & ->). apply fmap_Some in Hy as (c & Hc & _).
  exists w, c. split; [|split; [done|]].
  - rewrite Counter_lookup in Hn. by case_decide.
  - destruct (idf_from_scratch_range s w Hwf) as [[Hlt | Heq] _]; [done|].
    exfalso. apply Hx0. rewrite <- Heq. lra.
Qed.

Lemma positive_idf_misses s w :
  wf s → (0 < idf_from_scratch s w)%R →
  ∃ d, is_Some (forward_index s !! d) ∧ lookup2 (forward_index s) d w = None.
Proof.
  intros Hwf Hpos.
  set (p := default ∅ (inverted_index s !! w)).
  assert (∀ d, lookup2 (forward_index s) d w = p !! d) as Hlook.
  { intros d. rewrite <- (wf_agree _ Hwf). unfold lookup2, p.
    destruct (inverted_index s !! w); simpl; [done | by rewrite lookup_empty]. }
  destruct (decide (dom (forward_index s) ∖ dom p = (∅ : gset string)))
    as [Hall | Hsome].
  - exfalso. assert (idf_from_scratch s w = 0%R) as Hz; [|lra].
    apply idf_from_scratch_zero; [done|]. right. intros d Hd. rewrite Hlook.
    destruct (p !! d) as [c|] eqn:Hpd; [eauto|]. exfalso.
    assert (d ∈ (∅ : gset string)) as Hd'; [|by apply elem_of_empty in Hd'].
    rewrite <- Hall. apply elem_of_difference. split.
    + by apply elem_of_dom.
    + by apply not_elem_of_dom.
  - apply set_choose_L in Hsome as (d & [Hd Hout]%elem_of_difference).
    exists d. split; [by apply elem_of_dom|].
    rewrite Hlook. by apply not_elem_of_dom.
Qed.

(** X7. On every reachable index (normaliser as in C5), every
    document [search] returns holds a token of the normalised query
    whose IDF is positive, that is, a query term that some other indexed
    document does not hold.  So a query whose terms all occur in every
    document gets no hit, and on an index of a single document [search]
    returns the empty list for every query. *)
Theorem search_hits_share_term (preprocess_text : string → string)
    (cs : list call) (query : string) (top_k : Z) :
  (∀ q, strip q = "" → preprocess_text q = "") →
  (∀ text, preprocess_text text ≠ "" → split (preprocess_text text) ≠ []) →
  let s := run preprocess_text cs in
  ∃ hits,
    (search preprocess_text query top_k s).1 = Ok hits ∧
    (∀ d sc, (d, sc) ∈ hits →
       ∃ w c d', w ∈ split (preprocess_text query) ∧
                 lookup2 (forward_index s) d w = Some c ∧
                 (0 < idf_from_scratch s w)%R ∧
                 is_Some (forward_index s !! d') ∧
                 lookup2 (forward_index s) d' w = None) ∧
    ((∀ w, w ∈ split (preprocess_text query) → idf_from_scratch s w = 0%R) →
     hits = []) ∧
    (total_documents s = 1 → hits = []).
Proof.
  intros Hblank Htokens s.
  pose proof (run_wf preprocess_text cs) as Hwf. fold s in Hwf.
  destruct (search_returns preprocess_text cs query top_k Hblank Htokens)
    as (s' & Hrun & _).
  fold s in Hrun. rewrite Hrun. cbn [fst].
  set (hits := slice_to top_k _).
  assert (∀ d sc, (d, sc) ∈ hits →
            ∃ w c, w ∈ split (preprocess_text query) ∧
                   lookup2 (forward_index s) d w = Some c ∧
                   (0 < idf_from_scratch s w)%R) as Hshare.
  { intros d sc Hin. eapply elem_of_sublist in Hin; [|apply slice_to_sublist].
    rewrite sort_desc_perm in Hin.
    apply scored_documents_elem in Hin as (_ & -> & Hpos).
    by apply hit_shares_term. }
  exists hits. split; [done|]. split; [|split].
  - intros d sc Hin. destruct (Hshare d sc Hin) as (w & c & Hw & Hc & Hidf).
    destruct (positive_idf_misses s w Hwf Hidf) as (d' & Hd' & Hmiss).
    exists w, c, d'. done.
  - intros Hzero. destruct hits as [|[d sc] rest] eqn:Hh; [done|].
    destruct (Hshare d sc) as (w & c & Hw & _ & Hidf); [apply elem_of_cons; auto|].
    rewrite (Hzero w Hw) in Hidf. lra.
  - intros Hone. destruct hits as [|[d sc] rest] eqn:Hh; [done|].
    destruct (Hshare d sc) as (w & c & Hw & Hc & Hidf); [apply elem_of_cons; auto|].
    exfalso. unfold idf_from_scratch in Hidf.
    destruct (inverted_index s !! w) as [p|] eqn:Hp; [|lra].
    destruct (postings_size s w p Hwf Hp) as [H1 H2].
    assert (Z.of_nat (size p) = 1) as Hsz by lia.
    rewrite Hsz, Hone in Hidf. replace (1 / 1)%R with 1%R in Hidf by field.
    rewrite ln_1 in Hidf. lra.
Qed.

Lemma search_hits_share_term_witness :
  let s := run keep_text
             [AddDocument "d1" "cat dog cat"; AddDocument "d2" "dog bird"] in
  ∃ hits,
    (search keep_text "cat" 10 s).1 = Ok hits ∧
    (∀ d sc, (d, sc) ∈ hits →
       ∃ w c d', w ∈ split (keep_text "cat") ∧
                 lookup2 (forward_index s) d w = Some c ∧
                 (0 < idf_from_scratch s w)%R ∧
                 is_Some (forward_index s !! d') ∧
                 lookup2 (forward_index s) d' w = None) ∧
    ((∀ w, w ∈ split (keep_text "cat") → idf_from_scratch s w = 0%R) →
     hits = []) ∧
    (total_documents s = 1 → hits = []).
Proof.
  apply (search_hits_share_term keep_text
           [AddDocument "d1" "cat dog cat"; AddDocument "d2" "dog bird"] "cat" 10).
  - apply keep_text_blank.
  - apply keep_text_tokens.
Defined.
